(** * Graph maps between graphs with inverses: [graph_map.py]

    A shallow embedding of the class [GraphMap] of [src/graph_map.py]
    (construction, application, composition, tightening, subdivision,
    Stallings folding and the homotopy inverse), followed by the
    properties of the design document that can be settled on it.

    Python objects are records, Python dictionaries and Sage word
    morphisms are finite maps ([gmap]), Sage words are lists of letters,
    and every method lives in an exception monad: a method either returns
    a value, raises, or (for the two [while] loops, which are run on
    fuel) is cut off. *)

From stdpp Require Import base option list gmap sets fin_maps.
From Stdlib Require Import ZArith Lia.

Set Default Proof Using "Type".
Set Warnings "-clear-no-such-hyp".

(** ** Letters, words, exceptions *)

(** A letter of an alphabet with inverses: the positive letter of index
    [n] and its formal inverse. *)
Inductive letter : Type :=
| Pos (n : nat)
| Neg (n : nat).

#[global] Instance letter_eq_dec : EqDecision letter.
Proof. solve_decision. Defined.

#[global] Instance letter_countable : Countable letter.
Proof.
  refine (inj_countable'
            (λ a, match a with Pos n => inl n | Neg n => inr n end)
            (λ s, match s with inl n => Pos n | inr n => Neg n end) _).
  by intros [].
Defined.

Abbreviation word := (list letter).
Abbreviation vertex := nat.

(** The exceptions a call can end in.  The first three are raised by
    Python itself (a missing dictionary key, [w[0]] on an empty word, a
    name bound nowhere); [LetterNotInDomain] stands for the exception
    Sage's [WordMorphism] raises when asked for a letter outside its
    domain alphabet, [TypeError] for the one it raises when asked to
    iterate a negative number of times; [NotInvertible] is the report of
    the inversion of free group automorphisms, in the words of its
    interface ([invert(automorphism) -> automorphism | NotInvertible]).
    The last four are the classes of the design's error taxonomy:
    statements name them, no line of [graph_map.py] raises them. *)
Inductive exception : Type :=
| KeyError
| IndexError
| NameError
| LetterNotInDomain
| TypeError
| NotInvertible
| MalformedEdgeMapError
| DisconnectedImageError
| NotAHomotopyEquivalenceError
| InvariantViolationError.

#[global] Instance exception_eq_dec : EqDecision exception.
Proof. solve_decision. Defined.

(** Outcome of a call: a value, an exception, or the fuel of a [while]
    loop ran out before the loop did. *)
Inductive result (A : Type) : Type :=
| Ok (x : A)
| Raise (e : exception)
| OutOfFuel.

Arguments Ok {A} x.
Arguments Raise {A} e.
Arguments OutOfFuel {A}.

#[global] Instance result_ret : MRet result := λ A x, Ok x.
#[global] Instance result_bind : MBind result := λ A B k r,
  match r with
  | Ok x => k x
  | Raise e => Raise e
  | OutOfFuel => OutOfFuel
  end.

(** [d[k]] on a Python dictionary. *)
Definition getitem `{Countable K} {V : Type} (d : gmap K V) (k : K) : result V :=
  match d !! k with
  | Some v => Ok v
  | None => Raise KeyError
  end.

(** [w[0]] and [w[-1]] on a word. *)
Definition first_letter (w : word) : result letter :=
  match w with
  | a :: _ => Ok a
  | [] => Raise IndexError
  end.

Definition last_letter (w : word) : result letter :=
  match last w with
  | Some a => Ok a
  | None => Raise IndexError
  end.

(** [w[i]]. *)
Definition nth_letter (w : word) (i : nat) : result letter :=
  match w !! i with
  | Some a => Ok a
  | None => Raise IndexError
  end.

(** The slice [w[:-k]], for [k > 0]. *)
Definition drop_last (k : nat) (w : word) : word := take (length w - k) w.

(** A [for] loop whose body may raise: the state is threaded through the
    items in order. *)
Fixpoint for_each {S X : Type} (body : S → X → result S) (s : S) (l : list X) : result S :=
  match l with
  | [] => Ok s
  | x :: l' => s' ← body s x; for_each body s' l'
  end.

(** ** The alphabet with inverses (collaborator) *)

Module Alphabet.

(** Modelled from the spec: the involution of an alphabet with
    inverses, [inv(inv(a)) = a] and [inv(a) ≠ a]. *)
Definition inverse_letter (a : letter) : letter :=
  match a with
  | Pos n => Neg n
  | Neg n => Pos n
  end.

(** Modelled from the spec: the alphabet's [add_new_letters(n)] hands
    out [n] pairs (letter, inverse letter) that the alphabet does not
    have yet, none when [n] is zero or negative ([n] is a Python integer:
    [subdivide_domain] passes [len(image) - 1], which is [-1] on an empty
    image).  [next_index] is the first index above all those in use. *)
Definition next_index (l : list nat) : nat := foldr (λ i acc, max (S i) acc) 0 l.

Definition new_letters (positive : list nat) (n : Z) : list (letter * letter) :=
  (λ i, (Pos i, Neg i)) <$> seq (next_index positive) (Z.to_nat n).

End Alphabet.

Export Alphabet.

(** ** Edge paths (collaborator) *)

Module Path.

(** Modelled from the spec: reversal maps [a1,…,an] to
    [inv(an),…,inv(a1)]. *)
Definition reverse_word (w : word) : word := inverse_letter <$> reverse w.

(** Modelled from the spec: a path is reduced if no adjacent pair
    [(a, inv(a))] occurs. *)
Fixpoint reduced (w : word) : bool :=
  match w with
  | a :: w' =>
      match w' with
      | b :: _ => bool_decide (b ≠ inverse_letter a) && reduced w'
      | [] => true
      end
  | [] => true
  end.

(** Modelled from the spec: reduction cancels adjacent pairs
    [(a, inv(a))] until the path is reduced. *)
Fixpoint reduce_word (w : word) : word :=
  match w with
  | [] => []
  | a :: w' =>
      match reduce_word w' with
      | b :: r => if decide (b = inverse_letter a) then r else a :: b :: r
      | [] => [a]
      end
  end.

(** Modelled from the spec: the length of the longest common prefix of
    two paths. *)
Fixpoint common_prefix (u v : word) : nat :=
  match u, v with
  | a :: u', b :: v' => if decide (a = b) then S (common_prefix u' v') else 0
  | _, _ => 0
  end.

End Path.

Export Path.

(** ** Graphs with inverses (collaborator) *)

(** Modelled from the spec: vertices (opaque identifiers) plus, for every
    letter, an initial and a terminal vertex, the inverse letter having
    them swapped.  [alphabet] lists the indices of the positive letters in
    the alphabet's order; [initial] and [terminal] are the two incidence
    dictionaries. *)
Record GraphWithInverses : Type := mkGraph {
  vertices : list vertex;
  alphabet : list nat;
  initial : gmap letter vertex;
  terminal : gmap letter vertex
}.

Module Graph.

Definition positive_letters (G : GraphWithInverses) : list letter := Pos <$> alphabet G.
Definition negative_letters (G : GraphWithInverses) : list letter := Neg <$> alphabet G.

(** Iterating over the alphabet ([for a in A]) yields every letter: the
    positive ones, then their inverses. *)
Definition letters (G : GraphWithInverses) : list letter :=
  positive_letters G ++ negative_letters G.

Definition has_vertex (G : GraphWithInverses) (v : vertex) : bool := bool_decide (v ∈ vertices G).

Definition initial_vertex (G : GraphWithInverses) (a : letter) : result vertex :=
  getitem (initial G) a.

Definition terminal_vertex (G : GraphWithInverses) (a : letter) : result vertex :=
  getitem (terminal G) a.

(** The path operations are methods of a graph; they only use its
    alphabet's involution. *)
Definition reduce_path (G : GraphWithInverses) (w : word) : word := reduce_word w.
Definition reverse_path (G : GraphWithInverses) (w : word) : word := reverse_word w.
Definition common_prefix_length (G : GraphWithInverses) (u v : word) : nat := common_prefix u v.

(** An edge that is added brings its end points into the graph. *)
Definition add_vertex (v : vertex) (vs : list vertex) : list vertex :=
  if decide (v ∈ vs) then vs else vs ++ [v].

(** Modelled from the spec: [new_vertices(n)] gives [n] identifiers of
    newly created vertices, none of them a vertex of the graph yet (none
    at all when the integer [n] is zero or negative). *)
Definition new_vertices (G : GraphWithInverses) (n : Z) : list vertex :=
  seq (next_index (vertices G)) (Z.to_nat n).

(** Modelled from the spec: the alphabet's [add_new_letters(n)]; the
    alphabet is owned by the graph, which is returned with the new
    positive letters appended. *)
Definition add_new_letters (G : GraphWithInverses) (n : Z)
  : GraphWithInverses * list (letter * letter) :=
  let new := new_letters (alphabet G) n in
  (mkGraph (vertices G) (alphabet G ++ seq (next_index (alphabet G)) (Z.to_nat n))
           (initial G) (terminal G),
   new).

(** Modelled from the spec: the edge [e] is made to end at [v] (its
    inverse to start there). *)
Definition set_terminal_vertex (G : GraphWithInverses) (e : letter) (v : vertex)
  : GraphWithInverses :=
  mkGraph (add_vertex v (vertices G)) (alphabet G)
          (<[inverse_letter e := v]> (initial G))
          (<[e := v]> (terminal G)).

(** Modelled from the spec: [add_edge(from, to, [letter, inverse_letter])]. *)
Definition add_edge (G : GraphWithInverses) (u v : vertex) (f ff : letter)
  : GraphWithInverses :=
  mkGraph (add_vertex v (add_vertex u (vertices G))) (alphabet G)
          (<[ff := v]> (<[f := u]> (initial G)))
          (<[ff := u]> (<[f := v]> (terminal G))).

(** Modelled from the spec: the turns of the graph are the unordered
    pairs of distinct letters going out of the same vertex; each pair is
    listed once, in the order of the alphabet. *)
Fixpoint turns_of (G : GraphWithInverses) (l : list letter) : list (letter * letter) :=
  match l with
  | [] => []
  | a :: l' =>
      ((λ b, (a, b)) <$>
         filter (λ b, is_Some (initial G !! a) ∧ initial G !! a = initial G !! b) l')
      ++ turns_of G l'
  end.

Definition turns (G : GraphWithInverses) : list (letter * letter) := turns_of G (letters G).

(** Where a vertex goes when the vertices [gone] are merged into [to]. *)
Definition redirect (gone : list vertex) (to : vertex) (v : vertex) : vertex :=
  if decide (v ∈ gone) then to else v.

(** Modelled from the spec: [fold(edge_set)] identifies all the edges of
    the list into the first one, which merges their terminal vertices
    into its terminal vertex and removes the other, now redundant, edges
    from the graph.  ([folding] passes an empty second list: no edge is
    folded partially.) *)
Definition fold (G : GraphWithInverses) (edges_full : list letter) : result GraphWithInverses :=
  match edges_full with
  | [] => Raise IndexError
  | e0 :: rest =>
      ve0 ← terminal_vertex G e0;
      ends ← for_each (λ acc e, v ← terminal_vertex G e; Ok (acc ++ [v])) [] rest;
      let gone := filter (λ v, v ≠ ve0) ends in
      let dead := rest ++ (inverse_letter <$> rest) in
      let keep := filter (λ i, Pos i ∉ dead) (alphabet G) in
      let prune (d : gmap letter vertex) : gmap letter vertex :=
        redirect gone ve0 <$> filter (λ kv, kv.1 ∉ dead) d in
      Ok (mkGraph (filter (λ v, v ∉ gone) (vertices G)) keep
                  (prune (initial G)) (prune (terminal G)))
  end.

End Graph.

Export Graph.

(** ** Word morphisms (Sage's [WordMorphism]) *)

Module WordMorphism.

(** [m.image(a)]. *)
Definition image (m : gmap letter word) (a : letter) : result word :=
  match m !! a with
  | Some w => Ok w
  | None => Raise LetterNotInDomain
  end.

(** [m(w)]: the concatenation of the images of the letters of [w]. *)
Fixpoint apply (m : gmap letter word) (w : word) : result word :=
  match w with
  | [] => Ok []
  | a :: w' => u ← image m a; r ← apply m w'; Ok (u ++ r)
  end.

(** The morphism applied [order] times. *)
Fixpoint apply_iter (m : gmap letter word) (order : nat) (w : word) : result word :=
  match order with
  | 0 => Ok w
  | S n => u ← apply m w; apply_iter m n u
  end.

(** [m(w, order)] for an integer [order]: a negative order is
    rejected. *)
Definition apply_order (m : gmap letter word) (order : Z) (w : word) : result word :=
  if decide (order < 0)%Z then Raise TypeError else apply_iter m (Z.to_nat order) w.

End WordMorphism.

(** ** The class [GraphMap] *)

Record GraphMap : Type := mkGraphMap {
  domain : GraphWithInverses;
  codomain : GraphWithInverses;
  edge_map : gmap letter word;
  vertex_map : option (gmap vertex vertex)
}.

(** The two assignments of the body of the loop of [set_edge_map]:
    [m[a] = reduce_path(image of a)] and
    [m[inverse_letter(a)] = reverse_path(m[a])]. *)
Definition store_image (cod : GraphWithInverses) (m : gmap letter word) (kv : letter * word)
  : gmap letter word :=
  let w := reduce_path cod kv.2 in
  <[inverse_letter kv.1 := reverse_path cod w]> (<[kv.1 := w]> m).

(** [set_edge_map]: the loop runs over the letters the given morphism is
    defined on. *)
Definition set_edge_map (f : GraphMap) (spec : gmap letter word) : result GraphMap :=
  let m := foldl (store_image (codomain f)) ∅ (map_to_list spec) in
  Ok (mkGraphMap (domain f) (codomain f) m None).

(** [__init__]. *)
Definition init (dom cod : GraphWithInverses) (spec : gmap letter word)
  (vmap : option (gmap vertex vertex)) : result GraphMap :=
  f ← set_edge_map (mkGraphMap dom cod ∅ None) spec;
  Ok (mkGraphMap (domain f) (codomain f) (edge_map f) vmap).

(** [image(letter)] (with [iter = 1]). *)
Definition image (f : GraphMap) (a : letter) : result word :=
  WordMorphism.image (edge_map f) a.

(** [image(letter, iter)]: the stored image when [iter == 1]; otherwise
    the image of the letter is handed to the morphism with the order
    [iter - 1], which is [-1] when [iter] is [0]. *)
Definition image_iter (f : GraphMap) (a : letter) (iter : nat) : result word :=
  match iter with
  | 1 => image f a
  | _ =>
      u ← WordMorphism.apply (edge_map f) [a];
      r ← WordMorphism.apply_order (edge_map f) (Z.of_nat iter - 1) u;
      Ok (reduce_path (codomain f) r)
  end.

(** The body of the loop of [update_vertex_map]. *)
Definition vertex_map_step (f : GraphMap) (vm : gmap vertex vertex) (e : letter)
  : result (gmap vertex vertex) :=
  p ← image f e;
  match p with
  | [] => Ok vm
  | _ :: _ =>
      p0 ← first_letter p;
      x ← initial_vertex (codomain f) p0;
      v ← initial_vertex (domain f) e;
      let vm1 := <[v := x]> vm in
      pl ← last_letter p;
      y ← terminal_vertex (codomain f) pl;
      w ← terminal_vertex (domain f) e;
      Ok (<[w := y]> vm1)
  end.

Definition compute_vertex_map (f : GraphMap) : result (gmap vertex vertex) :=
  for_each (vertex_map_step f) ∅ (positive_letters (domain f)).

(** [update_vertex_map]. *)
Definition update_vertex_map (f : GraphMap) : result GraphMap :=
  vm ← compute_vertex_map f;
  Ok (mkGraphMap (domain f) (codomain f) (edge_map f) (Some vm)).

(** The argument of [__call__] is a vertex or an edge path, its value a
    vertex or an edge path. *)
Inductive argument : Type :=
| Vertex (v : vertex)
| Path (w : word).

Inductive value : Type :=
| VertexValue (v : vertex)
| PathValue (w : word).

(** [self(path)]. *)
Definition apply_path (f : GraphMap) (w : word) : result word :=
  u ← WordMorphism.apply (edge_map f) w;
  Ok (reduce_path (codomain f) u).

(** [__call__]: the value and the object after the call (the vertex map
    may have been computed and cached).  An identifier that is not a
    vertex of the domain is handed to the word morphism, which rejects it. *)
Definition call (f : GraphMap) (arg : argument) : result (value * GraphMap) :=
  match arg with
  | Vertex v =>
      if has_vertex (domain f) v then
        f' ← match vertex_map f with
             | None => update_vertex_map f
             | Some _ => Ok f
             end;
        match vertex_map f' with
        | Some vm => x ← getitem vm v; Ok (VertexValue x, f')
        | None => Raise KeyError
        end
      else Raise LetterNotInDomain
  | Path w => u ← apply_path f w; Ok (PathValue u, f)
  end.

(** [__mul__]: [mul self other] is [self * other]. *)
Definition mul (self other : GraphMap) : result GraphMap :=
  result_map ← for_each
    (λ d a, w ← WordMorphism.image (edge_map other) a;
            u ← apply_path self w;
            Ok (<[a := u]> d))
    (∅ : gmap letter word) (positive_letters (domain other));
  init (domain other) (codomain self) result_map None.

(** [compose_edge_map]. *)
Definition compose_edge_map (f : GraphMap) (edge_morph : gmap letter word) : result GraphMap :=
  d ← for_each
    (λ d a, w ← WordMorphism.image (edge_map f) a;
            u ← WordMorphism.apply edge_morph w;
            Ok (<[a := u]> d))
    (∅ : gmap letter word) (positive_letters (domain f));
  set_edge_map f d.

(** ** [tighten] *)

(** First inner loop: the common prefix of the nonempty images of the
    letters going out of each vertex. *)
Definition prefix_step (G1 G2 : GraphWithInverses) (edge_map : gmap letter word)
  (prefix : gmap vertex word) (a : letter) : result (gmap vertex word) :=
  u ← getitem edge_map a;
  v ← initial_vertex G1 a;
  match u with
  | [] => Ok prefix
  | _ :: _ =>
      match prefix !! v with
      | Some [] => Ok prefix
      | Some pv => Ok (<[v := take (common_prefix_length G2 u pv) pv]> prefix)
      | None => Ok (<[v := u]> prefix)
      end
  end.

(** Second inner loop, on the pair (edge map, [done]). *)
Definition strip_step (G1 G2 : GraphWithInverses) (prefix : gmap vertex word)
  (st : gmap letter word * bool) (a : letter) : result (gmap letter word * bool) :=
  v ← initial_vertex G1 a;
  match prefix !! v with
  | Some (c :: p) =>
      let pv := c :: p in
      let aa := inverse_letter a in
      ua ← getitem st.1 a;
      match ua with
      | _ :: _ =>
          let em1 := <[a := drop (length pv) ua]> st.1 in
          uaa ← getitem em1 aa;
          Ok (<[aa := drop_last (length pv) uaa]> em1, false)
      | [] =>
          Ok (<[aa := pv]> (<[a := reverse_path G2 pv]> st.1), false)
      end
  | _ => Ok st
  end.

(** One turn of the [while] loop: the new edge map and the flag [done]. *)
Definition tighten_iteration (G1 G2 : GraphWithInverses) (A1 : list letter)
  (edge_map : gmap letter word) : result (gmap letter word * bool) :=
  prefix ← for_each (prefix_step G1 G2 edge_map) ∅ A1;
  for_each (strip_step G1 G2 prefix) (edge_map, true) A1.

Fixpoint tighten_loop (fuel : nat) (G1 G2 : GraphWithInverses) (A1 : list letter)
  (edge_map : gmap letter word) : result (gmap letter word) :=
  match fuel with
  | 0 => OutOfFuel
  | S n =>
      '(em, done) ← tighten_iteration G1 G2 A1 edge_map;
      if (done : bool) then Ok em else tighten_loop n G1 G2 A1 em
  end.

(** The dictionary [dict((a, self.image(a)) for a in A1)]. *)
Definition image_dict (f : GraphMap) (A1 : list letter) : result (gmap letter word) :=
  for_each (λ d a, u ← image f a; Ok (<[a := u]> d)) ∅ A1.

(** [tighten]; [G2] is the domain, as in the source. *)
Definition tighten (fuel : nat) (f : GraphMap) : result GraphMap :=
  let G1 := domain f in
  let A1 := letters G1 in
  let G2 := domain f in
  em0 ← image_dict f A1;
  em ← tighten_loop fuel G1 G2 A1 em0;
  set_edge_map f em.

(** ** Subdivision, illegal turns and Stallings folding *)

(** [l[i]] on a Python list. *)
Definition getindex {X : Type} (l : list X) (i : nat) : result X :=
  match l !! i with
  | Some x => Ok x
  | None => Raise IndexError
  end.

(** The body of the [enumerate] loop of [subdivide_domain], on the triple
    (domain graph, [result_map], [d]).  The two branches of the source
    differ only in the edge that is cut short: [e] itself when [i == 0],
    the previous new edge afterwards. *)
Definition subdivide_step (e : letter) (w : word)
  (new_edges : list (letter * letter)) (new_vs : list vertex)
  (st : GraphWithInverses * gmap letter word * gmap letter word)
  (ia : nat * (letter * letter))
  : result (GraphWithInverses * gmap letter word * gmap letter word) :=
  let '(G, result_map, d) := st in
  let '(i, a) := ia in
  v ← getindex new_vs i;
  cut ← match i with
        | 0 => Ok e
        | S j => g ← getindex new_edges j; Ok g.1
        end;
  vi ← initial_vertex G cut;
  vt ← terminal_vertex G cut;
  g ← getindex new_edges i;
  let f := g.1 in
  let ee := inverse_letter e in
  let ff := g.2 in
  let G' := add_edge (set_terminal_vertex G cut v) v vt f ff in
  re ← getitem result_map e;
  let rm1 := <[e := re ++ [f]]> result_map in
  ree ← getitem rm1 ee;
  let rm2 := <[ee := ff :: ree]> rm1 in
  wi ← nth_letter w (S i);
  Ok (G', rm2, <[a.1 := [wi]]> d).

(** [enumerate(l)]. *)
Definition enumerate {X : Type} (l : list X) : list (nat * X) := zip (seq 0 (length l)) l.

(** The loop that copies the images of the letters that are neither new
    nor [e]. *)
Definition keep_image_step (f : GraphMap) (e : letter) (new_edges : list (letter * letter))
  (d : gmap letter word) (a : letter) : result (gmap letter word) :=
  let counter := length (filter (λ g, a = g.1 ∨ a = g.2) new_edges) in
  if decide (counter = 0) then
    if decide (a ≠ e) then u ← image f a; Ok (<[a := u]> d) else Ok d
  else Ok d.

(** [subdivide_domain]: the object after the call and the returned
    [result_map]. *)
Definition subdivide_domain (f : GraphMap) (e : letter)
  : result (GraphMap * gmap letter word) :=
  let result_map : gmap letter word :=
    list_to_map ((λ a, (a, [a])) <$> letters (domain f)) in
  w ← image f e;
  let n := (Z.of_nat (length w) - 1)%Z in
  let '(G0, new_edges) := add_new_letters (domain f) n in
  let new_vs := new_vertices G0 n in
  '(G, result_map, d) ←
    for_each (subdivide_step e w new_edges new_vs) (G0, result_map, ∅) (enumerate new_edges);
  w0 ← first_letter w;
  let d := <[e := [w0]]> d in
  d ← for_each (keep_image_step f e new_edges) d (positive_letters G);
  f' ← set_edge_map (mkGraphMap G (codomain f) (edge_map f) (vertex_map f)) d;
  Ok (f', result_map).

(** The body of the loop of [illegal_turns]. *)
Definition illegal_turn_step (f : GraphMap) (res : list (letter * letter))
  (turn : letter * letter) : result (list (letter * letter)) :=
  u ← image f turn.1;
  x ← first_letter u;
  v ← image f turn.2;
  y ← first_letter v;
  Ok (if decide (x = y) then res ++ [turn] else res).

(** [illegal_turns]. *)
Definition illegal_turns (f : GraphMap) (turns : list (letter * letter))
  : result (list (letter * letter)) :=
  for_each (illegal_turn_step f) [] turns.

(** [folding] iterates over a name [A] that neither the method nor the
    module binds.  The binding is a parameter of the model: [None] when
    the name is bound nowhere, otherwise the sequence that iterating over
    [A] yields, as a function of the current domain graph (the constant
    function for a list of letters, [letters] when [A] is the alphabet of
    the domain itself). *)
Definition ambient : Type := option (GraphWithInverses → list letter).

Definition lookup_A (A : ambient) (G : GraphWithInverses) : result (list letter) :=
  match A with
  | Some it => Ok (it G)
  | None => Raise NameError
  end.

(** The inner loop collecting the gate of [e1]. *)
Definition gate_step (f : GraphMap) (e1 : letter) (Il_turns : list (letter * letter))
  (edge_list : list letter) (a : letter) : result (list letter) :=
  va ← initial_vertex (domain f) a;
  v1 ← initial_vertex (domain f) e1;
  if decide (va = v1 ∧ e1 ≠ a) then
    if decide ((e1, a) ∈ Il_turns ∨ (a, e1) ∈ Il_turns) then Ok (edge_list ++ [a])
    else Ok edge_list
  else Ok edge_list.

(** [list(set(l))]: the elements of [l] without repetition, in the
    order in which Python's set yields them.  The source does not
    determine that order (it is that of a hash table), so it is a
    parameter of the model: a function [order] from the list to its
    listing.  [listing order] says that [order] is such a function;
    [list_set] is one of them. *)
Definition set_order : Type := list letter → list letter.

Definition listing (order : set_order) : Prop :=
  ∀ l, NoDup (order l) ∧ ∀ x, x ∈ order l ↔ x ∈ l.

Definition list_set : set_order := λ l, elements (list_to_set l : gset letter).

(** One turn of the [while] loop of [folding]. *)
Definition fold_iteration (order : set_order) (A : ambient) (f : GraphMap)
  (Il_turns : list (letter * letter)) : result GraphMap :=
  t ← getindex Il_turns 0;
  let e1 := t.1 in
  ls ← lookup_A A (domain f);
  edge_list ← for_each (gate_step f e1 Il_turns) [e1] ls;
  let edge_list := order edge_list in
  G ← fold (domain f) edge_list;
  let f1 := mkGraphMap G (codomain f) (edge_map f) (vertex_map f) in
  e0 ← getindex edge_list 0;
  w0 ← image f1 e0;
  ls ← lookup_A A (domain f1);
  d ← for_each
        (λ d a, if decide (a ∈ edge_list) then Ok d
                else u ← image f1 a; Ok (<[a := u]> d))
        ({[e0 := w0]} : gmap letter word) ls;
  set_edge_map f1 d.

Fixpoint folding_loop (order : set_order) (fuel : nat) (A : ambient) (f : GraphMap)
  (Il_turns : list (letter * letter)) : result GraphMap :=
  match Il_turns with
  | [] => Ok f
  | _ :: _ =>
      match fuel with
      | 0 => OutOfFuel
      | S n =>
          f' ← fold_iteration order A f Il_turns;
          Il' ← illegal_turns f' (turns (domain f'));
          folding_loop order n A f' Il'
      end
  end.

(** The first loop of [folding]: subdivide every letter whose image has
    more than one letter. *)
Definition subdivide_long (f : GraphMap) (a : letter) : result GraphMap :=
  u ← image f a;
  if decide (1 < length u) then
    '(f', _) ← subdivide_domain f a; Ok f'
  else Ok f.

(** [folding]. *)
Definition folding (order : set_order) (fuel : nat) (A : ambient) (f : GraphMap)
  : result GraphMap :=
  ls ← lookup_A A (domain f);
  f1 ← for_each subdivide_long f ls;
  Il_turns ← illegal_turns f1 (turns (domain f1));
  folding_loop order fuel A f1 Il_turns.

(** ** The homotopy inverse *)

Section Inverse.

(** The two collaborators [inverse] delegates to: the spanning tree of a
    graph (for every vertex, the tree path from the root to it) and the
    inversion of a free group automorphism, given by the images of the
    generators. *)
Variable spanning_tree : GraphWithInverses → gmap vertex word.
Variable automorphism_inverse : gmap letter word → result (gmap letter word).

(** [A[i]] for [A = AlphabetWithInverses(n)]. *)
Definition rank_letter (n : Z) (i : nat) : result letter :=
  if decide (Z.of_nat i < n)%Z then Ok (Pos i) else Raise IndexError.

(** The test "[a] is not in the spanning tree". *)
Definition not_in_tree (G : GraphWithInverses) (t : gmap vertex word) (a : letter)
  : result bool :=
  vi ← initial_vertex G a;
  ti ← getitem t vi;
  vt ← terminal_vertex G a;
  tt ← getitem t vt;
  let l := (Z.of_nat (length ti) - Z.of_nat (length tt))%Z in
  c1 ← (if decide (l ≠ 1%Z) then Ok true
        else x ← last_letter ti; Ok (bool_decide (x ≠ inverse_letter a)));
  if (c1 : bool) then
    if decide (l ≠ (-1)%Z) then Ok true
    else y ← last_letter tt; Ok (bool_decide (y ≠ a))
  else Ok false.

(** The loop of the path from the root to the tail of [a], across [a],
    and back to the root. *)
Definition tree_loop (G : GraphWithInverses) (t : gmap vertex word) (a : letter)
  : result word :=
  vi ← initial_vertex G a;
  ti ← getitem t vi;
  vt ← terminal_vertex G a;
  tt ← getitem t vt;
  Ok (ti ++ [a] ++ reverse_path G tt).

(** First loop, on ([map], [translate], [i]). *)
Definition domain_step (f : GraphMap) (t1 : gmap vertex word) (n : Z)
  (st : gmap letter word * gmap letter letter * nat) (a : letter)
  : result (gmap letter word * gmap letter letter * nat) :=
  let '(map, translate, i) := st in
  c ← not_in_tree (domain f) t1 a;
  if (c : bool) then
    p ← tree_loop (domain f) t1 a;
    u ← apply_path f p;
    Ai ← rank_letter n i;
    Ok (<[Ai := u]> map,
        <[inverse_letter Ai := inverse_letter a]> (<[Ai := a]> translate),
        S i)
  else Ok st.

(** Second loop, on ([rename], [edge_map], [i]). *)
Definition codomain_step (f : GraphMap) (t2 : gmap vertex word) (n : Z)
  (st : gmap letter letter * gmap letter word * nat) (a : letter)
  : result (gmap letter letter * gmap letter word * nat) :=
  let '(rename, em, i) := st in
  c ← not_in_tree (codomain f) t2 a;
  if (c : bool) then
    Ai ← rank_letter n i;
    Ok (<[inverse_letter a := inverse_letter Ai]> (<[a := Ai]> rename), em, S i)
  else Ok (rename, <[a := []]> em, i).

(** [F([rename[b] for b in w if b in rename])]: an element of the free
    group is a reduced word. *)
Definition rename_word (rename : gmap letter letter) (w : word) : word :=
  reduce_word (omap (λ b, rename !! b) w).

(** Third loop, on ([edge_map], [i]). *)
Definition back_step (f : GraphMap) (t1 : gmap vertex word) (n : Z)
  (psi : gmap letter word) (translate : gmap letter letter)
  (st : gmap letter word * nat) (a : letter) : result (gmap letter word * nat) :=
  let '(em, i) := st in
  match em !! a with
  | Some _ => Ok st
  | None =>
      Ai ← rank_letter n i;
      img ← WordMorphism.image psi Ai;
      r ← for_each
            (λ r b, c ← getitem translate b;
                    p ← tree_loop (domain f) t1 c;
                    Ok (r ++ p))
            [] img;
      Ok (<[a := reduce_path (domain f) r]> em, S i)
  end.

(** Everything [inverse] does before it calls the inversion of the
    automorphism: the automorphism [phi], [translate] and the edge map
    so far. *)
Definition inverse_setup (f : GraphMap)
  : result (gmap letter word * gmap letter letter * gmap letter word) :=
  let G1 := domain f in
  let t1 := spanning_tree G1 in
  let G2 := codomain f in
  let t2 := spanning_tree G2 in
  let n := (Z.of_nat (length (alphabet G1)) - Z.of_nat (length (vertices G1)) + 1)%Z in
  '(map, translate, _) ←
    for_each (domain_step f t1 n)
      ((∅ : gmap letter word), (∅ : gmap letter letter), 0) (positive_letters G1);
  '(rename, em, _) ←
    for_each (codomain_step f t2 n)
      ((∅ : gmap letter letter), (∅ : gmap letter word), 0) (positive_letters G2);
  Ok (fmap (M := gmap letter) (rename_word rename) map, translate, em).

(** [inverse]. *)
Definition inverse (f : GraphMap) : result GraphMap :=
  let G1 := domain f in
  let t1 := spanning_tree G1 in
  let G2 := codomain f in
  let n := (Z.of_nat (length (alphabet G1)) - Z.of_nat (length (vertices G1)) + 1)%Z in
  '(phi, translate, em) ← inverse_setup f;
  psi ← automorphism_inverse phi;
  '(em, _) ← for_each (back_step f t1 n psi translate) (em, 0) (positive_letters G2);
  init G2 G1 em None.

End Inverse.

(** ** The invariant of the edge map, and the objects the methods produce *)

(** The inverse-consistency invariant on the letters that have a stored
    image: the inverse letter has one too, the reverse path, and both are
    reduced. *)
Definition consistent (m : gmap letter word) : Prop :=
  ∀ a w, m !! a = Some w →
    m !! inverse_letter a = Some (reverse_word w)
    ∧ reduced w = true ∧ reduced (reverse_word w) = true.

Definition inverse_consistent (f : GraphMap) : Prop := consistent (edge_map f).

(** The invariant on every letter of the alphabet of the domain. *)
Definition inverse_consistent_on_alphabet (f : GraphMap) : Prop :=
  ∀ a, a ∈ letters (domain f) →
    ∃ w, edge_map f !! a = Some w
      ∧ edge_map f !! inverse_letter a = Some (reverse_word w)
      ∧ reduced w = true ∧ reduced (reverse_word w) = true.

(** The objects that the methods of the class produce, starting from the
    constructor. *)
Inductive reachable : GraphMap → Prop :=
| reach_init dom cod spec vmap f :
    init dom cod spec vmap = Ok f → reachable f
| reach_set_edge_map f spec f' :
    reachable f → set_edge_map f spec = Ok f' → reachable f'
| reach_compose_edge_map f edge_morph f' :
    reachable f → compose_edge_map f edge_morph = Ok f' → reachable f'
| reach_mul f g h :
    reachable f → reachable g → mul f g = Ok h → reachable h
| reach_update_vertex_map f f' :
    reachable f → update_vertex_map f = Ok f' → reachable f'
| reach_call f arg v f' :
    reachable f → call f arg = Ok (v, f') → reachable f'
| reach_tighten fuel f f' :
    reachable f → tighten fuel f = Ok f' → reachable f'
| reach_subdivide_domain f e f' result_map :
    reachable f → subdivide_domain f e = Ok (f', result_map) → reachable f'
| reach_folding order fuel A f f' :
    reachable f → folding order fuel A f = Ok f' → reachable f'
| reach_inverse spanning_tree automorphism_inverse f f' :
    reachable f → inverse spanning_tree automorphism_inverse f = Ok f' → reachable f'.

(** A vertex is carried by the map when some positive letter with a
    nonempty image starts or ends at it: these are the vertices
    [update_vertex_map] assigns an image to. *)
Definition carried (f : GraphMap) (v : vertex) : Prop :=
  ∃ e p, e ∈ positive_letters (domain f)
    ∧ edge_map f !! e = Some p ∧ p ≠ []
    ∧ (initial (domain f) !! e = Some v ∨ terminal (domain f) !! e = Some v).

(** ** Example graphs and maps *)

(** The graph with the given vertices and, for each triple
    [(i, (u, v))], the positive letter [Pos i] from [u] to [v]. *)
Definition graph_of (vs : list vertex) (es : list (nat * (vertex * vertex)))
  : GraphWithInverses :=
  mkGraph vs (es.*1)
    (list_to_map (((λ e, (Pos e.1, e.2.1)) <$> es) ++ ((λ e, (Neg e.1, e.2.2)) <$> es)))
    (list_to_map (((λ e, (Pos e.1, e.2.2)) <$> es) ++ ((λ e, (Neg e.1, e.2.1)) <$> es))).

(** The rose with [n] petals: one vertex, [n] loops. *)
Definition rose (n : nat) : GraphWithInverses :=
  graph_of [0] ((λ i, (i, (0, 0))) <$> seq 0 n).

(** One edge between two vertices. *)
Definition interval : GraphWithInverses := graph_of [0; 1] [(0, (0, 1))].

(** The edge map with exactly the given images: the value of the record
    field, not a call to [set_edge_map]. *)
Definition images (l : list (letter * word)) : gmap letter word := list_to_map l.

(** On the rose with two petals, a specification that only gives the
    image of the first letter, and the object [__init__] makes of it. *)
Definition half_spec : gmap letter word := {[ Pos 0 := [Pos 0] ]}.

Definition half_map : GraphMap :=
  mkGraphMap (rose 2) (rose 1) (images [(Pos 0, [Pos 0]); (Neg 0, [Neg 0])]) None.

(** The loop [a] with image [c d C], tightened to [d]. *)
Definition conjugate_map : GraphMap :=
  mkGraphMap (rose 1) (rose 2)
    (images [(Pos 0, [Pos 0; Pos 1; Neg 0]); (Neg 0, [Pos 0; Neg 1; Neg 0])]) None.

Definition conjugate_map_tight : GraphMap :=
  mkGraphMap (rose 1) (rose 2) (images [(Pos 0, [Pos 1]); (Neg 0, [Neg 1])]) None.

(** Two loops [a], [b] at one vertex, [a] collapsed to the vertex and
    [b] sent to the loop [c]. *)
Definition collapsed_map : GraphMap :=
  mkGraphMap (rose 2) (rose 1)
    (images [(Pos 0, []); (Neg 0, []); (Pos 1, [Pos 0]); (Neg 1, [Neg 0])]) None.

(** One loop with empty image. *)
Definition constant_map : GraphMap :=
  mkGraphMap (rose 1) (rose 1) (images [(Pos 0, []); (Neg 0, [])]) None.

(** The loop [a] sent to [a a]: a map of degree two, not a homotopy
    equivalence.  The spanning tree of a rose: the empty path at the
    vertex. *)
Definition square_map : GraphMap :=
  mkGraphMap (rose 1) (rose 1)
    (images [(Pos 0, [Pos 0; Pos 0]); (Neg 0, [Neg 0; Neg 0])]) None.

Definition rose_tree (G : GraphWithInverses) : gmap vertex word := {[ 0 := [] ]}.

(** Modelled from the spec: the inversion of free group automorphisms
    is a collaborator that [graph_map.py] only calls; its interface is
    [invert(automorphism) -> automorphism | NotInvertible].  This one
    reports every automorphism as not invertible. *)
Definition never_invertible (phi : gmap letter word) : result (gmap letter word) :=
  Raise NotInvertible.

(** The first letter of the stored image of a letter, if any. *)
Definition first_of (f : GraphMap) (a : letter) : option letter :=
  edge_map f !! a ≫= head.

(** Two loops [a], [b] at one vertex, both sent to the loop [c], and the
    map folding makes of it when [A] is the alphabet of the domain: the
    two loops are identified. *)
Definition doubled_map : GraphMap :=
  mkGraphMap (rose 2) (rose 1)
    (images [(Pos 0, [Pos 0]); (Neg 0, [Neg 0]); (Pos 1, [Pos 0]); (Neg 1, [Neg 0])]) None.

Definition doubled_map_folded : GraphMap :=
  mkGraphMap (graph_of [0] [(1, (0, 0))]) (rose 1)
    (images [(Pos 1, [Pos 0]); (Neg 1, [Neg 0])]) None.

(** ** Measures and conditions on the loop of [tighten] *)

(** The total length of the images, summed over the letters of [A1]. *)
Definition total_length (A1 : list letter) (em : gmap letter word) : nat :=
  sum_list ((λ a, length (default [] (em !! a))) <$> A1).

(** The second inner loop takes its [else] branch on [a]: the prefix at
    the initial vertex of [a] is nonempty and the image of [a] is empty at
    that moment; [a] then receives the reversed prefix. *)
Definition grows (G1 : GraphWithInverses) (prefix : gmap vertex word)
  (em : gmap letter word) (a : letter) : bool :=
  match initial G1 !! a with
  | Some v =>
      match prefix !! v with
      | Some (_ :: _) => bool_decide (em !! a = Some [])
      | _ => false
      end
  | None => false
  end.

(** The second inner loop, run from the state [st] over [l], never takes
    its [else] branch. *)
Fixpoint strips_only (G1 G2 : GraphWithInverses) (prefix : gmap vertex word)
  (st : gmap letter word * bool) (l : list letter) : bool :=
  match l with
  | [] => true
  | a :: l' =>
      negb (grows G1 prefix st.1 a)
      && match strip_step G1 G2 prefix st a with
         | Ok st' => strips_only G1 G2 prefix st' l'
         | _ => true
         end
  end.

Definition iteration_strips_only (G1 G2 : GraphWithInverses) (A1 : list letter)
  (em : gmap letter word) : bool :=
  match for_each (prefix_step G1 G2 em) ∅ A1 with
  | Ok prefix => strips_only G1 G2 prefix (em, true) A1
  | _ => true
  end.

(** The first [n] turns of the loop of [tighten], started on [em], never
    take the [else] branch. *)
Fixpoint strips_throughout (n : nat) (G1 G2 : GraphWithInverses) (A1 : list letter)
  (em : gmap letter word) : bool :=
  match n with
  | 0 => true
  | S n' =>
      iteration_strips_only G1 G2 A1 em
      && match tighten_iteration G1 G2 A1 em with
         | Ok (em', false) => strips_throughout n' G1 G2 A1 em'
         | _ => true
         end
  end.

(** The edge [a] of the interval sent to the loop [c] of a rose. *)
Definition interval_map : GraphMap :=
  mkGraphMap interval (rose 1) (images [(Pos 0, [Pos 0]); (Neg 0, [Neg 0])]) None.

(** Three edges [a], [b], [c] from a vertex to another one, which carries
    two loops [x], [y]; [a] and [b] are collapsed, [c], [x], [y] are sent
    to the three loops of a rose.  Every vertex has valence at least
    three. *)
Definition tripod : GraphWithInverses :=
  graph_of [0; 1] [(0, (0, 1)); (1, (0, 1)); (2, (0, 1)); (3, (1, 1)); (4, (1, 1))].

Definition tripod_images : gmap letter word :=
  images [(Pos 0, []); (Neg 0, []); (Pos 1, []); (Neg 1, []);
          (Pos 2, [Pos 0]); (Neg 2, [Neg 0]);
          (Pos 3, [Pos 1]); (Neg 3, [Neg 1]);
          (Pos 4, [Pos 2]); (Neg 4, [Neg 2])].

Definition tripod_images_next : gmap letter word :=
  images [(Pos 0, [Neg 0]); (Neg 0, [Pos 0]); (Pos 1, [Neg 0]); (Neg 1, [Pos 0]);
          (Pos 2, []); (Neg 2, []);
          (Pos 3, [Pos 1]); (Neg 3, [Neg 1]);
          (Pos 4, [Pos 2]); (Neg 4, [Neg 2])].

Definition tripod_map : GraphMap := mkGraphMap tripod (rose 3) tripod_images None.

(** The state the loop of [tighten] keeps: the dictionary has an image
    for exactly the letters of [A1], and is inverse-consistent. *)
Definition loop_invariant (A1 : list letter) (em : gmap letter word) : Prop :=
  consistent em ∧ ∀ a, a ∈ A1 ↔ is_Some (em !! a).

(** The vertex [v] of the domain has a nonempty common prefix to strip:
    some letter going out of [v] has a nonempty image, and the nonempty
    images of the letters going out of [v] all begin with the same letter
    [c]. *)
Definition strippable (f : GraphMap) (v : vertex) : Prop :=
  ∃ c,
    (∃ a, a ∈ letters (domain f) ∧ initial (domain f) !! a = Some v
          ∧ first_of f a = Some c)
    ∧ ∀ a w, a ∈ letters (domain f) → initial (domain f) !! a = Some v →
             edge_map f !! a = Some w → w ≠ [] → head w = Some c.

(** The edge [e] of the interval sent to the path [c d] of the rose with
    two petals, and the map after the subdivision of [e]: a new vertex 2
    in the middle, a new edge [Pos 1] from it to the end of [e]. *)
Definition long_edge_map : GraphMap :=
  mkGraphMap interval (rose 2)
    (images [(Pos 0, [Pos 0; Pos 1]); (Neg 0, [Neg 1; Neg 0])]) None.

Definition long_edge_map_subdivided : GraphMap :=
  mkGraphMap (graph_of [0; 1; 2] [(0, (0, 2)); (1, (2, 1))]) (rose 2)
    (images [(Pos 0, [Pos 0]); (Neg 0, [Neg 0]); (Pos 1, [Pos 1]); (Neg 1, [Neg 1])]) None.

(** ** Auxiliary notions for the algebra of maps *)

(** One step of [reduce_word]: a letter is put in front of a reduced
    word. *)
Definition reduce_step (a : letter) (r : word) : word :=
  match r with
  | b :: r' => if decide (b = inverse_letter a) then r' else a :: b :: r'
  | [] => [a]
  end.

(** The mirror step: a letter is put at the end of a word, cancelling
    against the last letter if it is its inverse. *)
Fixpoint push_last (r : word) (a : letter) : word :=
  match r with
  | [] => [a]
  | b :: r' =>
      match r' with
      | [] => if decide (b = inverse_letter a) then [] else [b; a]
      | _ :: _ => b :: push_last r' a
      end
  end.

(** The identity map of a graph: every letter is sent to itself. *)
Definition identity_map (G : GraphWithInverses) : GraphMap :=
  mkGraphMap G G (list_to_map ((λ a, (a, [a])) <$> letters G)) None.

(** A map is incidence-complete when every positive letter of the domain
    has an image and both end points, and every letter of an image has
    both end points in the codomain: the lookups of [update_vertex_map]
    then all succeed. *)
Definition incidence_complete (f : GraphMap) : Prop :=
  ∀ e, e ∈ positive_letters (domain f) →
    is_Some (initial (domain f) !! e) ∧ is_Some (terminal (domain f) !! e)
    ∧ ∃ p, edge_map f !! e = Some p
           ∧ ∀ c, c ∈ p → is_Some (initial (codomain f) !! c)
                          ∧ is_Some (terminal (codomain f) !! c).

(** The entry [v ↦ x] of a vertex map is justified by a positive letter
    with nonempty image: [v] is its initial vertex and [x] the initial
    vertex of the first letter of the image, or [v] is its terminal
    vertex and [x] the terminal vertex of the last letter of the image. *)
Definition justified (f : GraphMap) (l : list letter) (v x : vertex) : Prop :=
  ∃ e c p, e ∈ l ∧ edge_map f !! e = Some (c :: p)
    ∧ ((initial (domain f) !! e = Some v ∧ initial (codomain f) !! c = Some x)
       ∨ (terminal (domain f) !! e = Some v
          ∧ ∃ cl, last (c :: p) = Some cl ∧ terminal (codomain f) !! cl = Some x)).

(** An inversion collaborator for the identity automorphism, which is
    its own inverse. *)
Definition identity_inverse (phi : gmap letter word) : result (gmap letter word) := Ok phi.

(** ** The objects after a mutation of the edge map *)

(** The edge map given to the constructor or to [set_edge_map] covers
    the alphabet of a graph when it gives an image to every letter of the
    alphabet or to its inverse. *)
Definition covers (G : GraphWithInverses) (spec : gmap letter word) : Prop :=
  ∀ a, a ∈ letters G → is_Some (spec !! a) ∨ is_Some (spec !! inverse_letter a).

(** The name [A] of [folding], where it is bound, yields every letter of
    the domain, as the alphabet of the domain does. *)
Definition yields_alphabet (A : ambient) : Prop :=
  ∀ it, A = Some it → ∀ G a, a ∈ letters G → a ∈ it G.

(** The objects a public mutation of the edge map leaves behind: the
    constructor and [set_edge_map] on an edge map that covers the alphabet
    of the domain; composition, [tighten], subdivision and inversion on
    any object; [folding] on an object whose stored images satisfy the
    invariant, with [A] the alphabet of the domain. *)
Inductive produced : GraphMap → Prop :=
| prod_init dom cod spec vmap f :
    covers dom spec → init dom cod spec vmap = Ok f → produced f
| prod_set_edge_map f spec f' :
    covers (domain f) spec → set_edge_map f spec = Ok f' → produced f'
| prod_compose_edge_map f edge_morph f' :
    compose_edge_map f edge_morph = Ok f' → produced f'
| prod_mul f g h :
    mul f g = Ok h → produced h
| prod_tighten fuel f f' :
    tighten fuel f = Ok f' → produced f'
| prod_subdivide_domain f e f' result_map :
    subdivide_domain f e = Ok (f', result_map) → produced f'
| prod_folding order fuel A f f' :
    inverse_consistent f → yields_alphabet A →
    folding order fuel A f = Ok f' → produced f'
| prod_inverse spanning_tree automorphism_inverse f f' :
    inverse spanning_tree automorphism_inverse f = Ok f' → produced f'.

(** The errors the lines of [inverse] themselves can raise: those of
    their lookups. *)
Definition lookup_error (e : exception) : Prop :=
  e = KeyError ∨ e = IndexError ∨ e = LetterNotInDomain.

(** Two edges [a], [b] out of one vertex, both sent to the loop [c],
    and a third edge [y] apart from them; the name [A] bound to a list
    that leaves [y] out; and the map folding makes of it: [a] is
    identified with [b], and [y] is left without a stored image. *)
Definition stray_map : GraphMap :=
  mkGraphMap (graph_of [0; 1; 2; 3; 4] [(0, (0, 1)); (1, (0, 2)); (2, (3, 4))]) (rose 1)
    (images [(Pos 0, [Pos 0]); (Neg 0, [Neg 0]); (Pos 1, [Pos 0]); (Neg 1, [Neg 0]);
             (Pos 2, [Pos 0]); (Neg 2, [Neg 0])]) None.

Definition some_letters : ambient := Some (λ _, [Pos 0; Neg 0; Pos 1; Neg 1]).

Definition stray_map_folded : GraphMap :=
  mkGraphMap (graph_of [0; 2; 3; 4] [(1, (0, 2)); (2, (3, 4))]) (rose 1)
    (images [(Pos 0, [Pos 0]); (Neg 0, [Neg 0]); (Pos 1, [Pos 0]); (Neg 1, [Neg 0])]) None.

(** * Properties *)

(** ** The exception monad and loops *)

Lemma bind_Ok {A B : Type} (r : result A) (k : A → result B) (y : B) :
  r ≫= k = Ok y ↔ ∃ x, r = Ok x ∧ k x = Ok y.
Proof. destruct r as [x|e|]; simpl; naive_solver. Qed.

Lemma bind_Ok_l {A B : Type} (x : A) (k : A → result B) : Ok x ≫= k = k x.
Proof. done. Qed.

Lemma bind_Raise_l {A B : Type} (e : exception) (k : A → result B) :
  Raise e ≫= k = Raise e.
Proof. done. Qed.

Lemma bind_Raise {A B : Type} (r : result A) (k : A → result B) (e : exception) :
  r ≫= k = Raise e ↔ r = Raise e ∨ ∃ x, r = Ok x ∧ k x = Raise e.
Proof.
  destruct r as [x|e'|]; simpl; split; try naive_solver.
Qed.

Lemma getitem_Ok `{Countable K} {V : Type} (d : gmap K V) (k : K) (v : V) :
  getitem d k = Ok v ↔ d !! k = Some v.
Proof. unfold getitem. destruct (d !! k); naive_solver. Qed.

Lemma image_Ok (f : GraphMap) (a : letter) (w : word) :
  image f a = Ok w ↔ edge_map f !! a = Some w.
Proof. unfold image, WordMorphism.image. destruct (edge_map f !! a); naive_solver. Qed.

(** Unfolds one monadic equation in the hypotheses. *)
Ltac inv_bind :=
  repeat match goal with
    | H : _ ≫= _ = Ok _ |- _ => apply bind_Ok in H as (? & ? & H)
    | H : mbind _ _ = Ok _ |- _ => apply bind_Ok in H as (? & ? & H)
    | H : Ok _ = Ok _ |- _ => injection H as H; subst
    | H : Raise _ = Ok _ |- _ => discriminate H
    | H : OutOfFuel = Ok _ |- _ => discriminate H
    | H : getitem _ _ = Ok _ |- _ => apply getitem_Ok in H
    | H : image _ _ = Ok _ |- _ => apply image_Ok in H
    end.

(** A loop invariant is carried through a [for] loop that returns. *)
Lemma for_each_invariant {S X : Type} (P : S → Prop) (body : S → X → result S)
  (l : list X) :
  (∀ s x s', x ∈ l → P s → body s x = Ok s' → P s') →
  ∀ s s', P s → for_each body s l = Ok s' → P s'.
Proof.
  induction l as [|x l IH]; simpl; intros Hstep s s' Hs Hrun.
  - by simplify_eq.
  - apply bind_Ok in Hrun as (s1 & H1 & Hrun).
    eapply IH; [| |exact Hrun].
    + intros ? ? ? ? ? ?. eapply Hstep; [|done..]. by right.
    + eapply Hstep; [|done..]. by left.
Qed.

(** An exception out of a [for] loop was raised by its body. *)
Lemma for_each_Raise {S X : Type} (body : S → X → result S) (l : list X) (s : S)
  (e : exception) :
  for_each body s l = Raise e → ∃ s1 x, x ∈ l ∧ body s1 x = Raise e.
Proof.
  revert s. induction l as [|x l IH]; simpl; intros s Hrun; [done|].
  apply bind_Raise in Hrun as [H1 | (s1 & H1 & Hrun)].
  - exists s, x. split; [by left|done].
  - destruct (IH _ Hrun) as (s2 & y & ? & ?). exists s2, y. split; [by right|done].
Qed.

Lemma for_each_app {S X : Type} (body : S → X → result S) (l1 l2 : list X) (s : S) :
  for_each body s (l1 ++ l2) = for_each body s l1 ≫= λ s1, for_each body s1 l2.
Proof.
  revert s. induction l1 as [|x l1 IH]; simpl; intros s; [done|].
  destruct (body s x); simpl; auto.
Qed.

(** ** Letters and edge paths *)

Lemma inverse_letter_involutive (a : letter) : inverse_letter (inverse_letter a) = a.
Proof. by destruct a. Qed.

Lemma inverse_letter_ne (a : letter) : inverse_letter a ≠ a.
Proof. by destruct a. Qed.

Lemma inverse_letter_inj (a b : letter) : inverse_letter a = inverse_letter b → a = b.
Proof. destruct a, b; simpl; congruence. Qed.

Lemma inverse_letter_swap (a b : letter) : inverse_letter a = b ↔ a = inverse_letter b.
Proof. split; intros; subst; by rewrite inverse_letter_involutive. Qed.

Lemma reverse_word_involutive (w : word) : reverse_word (reverse_word w) = w.
Proof.
  unfold reverse_word. rewrite <- fmap_reverse, reverse_involutive, <- list_fmap_compose.
  rewrite <- (list_fmap_id w) at 2. apply list_fmap_ext. intros _ a _. simpl.
  apply inverse_letter_involutive.
Qed.

Lemma reverse_word_length (w : word) : length (reverse_word w) = length w.
Proof. unfold reverse_word. by rewrite length_fmap, length_reverse. Qed.

Lemma reverse_word_nil_inv (w : word) : reverse_word w = [] → w = [].
Proof. intros H. apply (f_equal length) in H. rewrite reverse_word_length in H. by destruct w. Qed.

Lemma reverse_word_cons (a : letter) (w : word) :
  reverse_word (a :: w) = reverse_word w ++ [inverse_letter a].
Proof. unfold reverse_word. by rewrite reverse_cons, fmap_app. Qed.

Lemma reverse_word_app (u v : word) :
  reverse_word (u ++ v) = reverse_word v ++ reverse_word u.
Proof. unfold reverse_word. by rewrite reverse_app, fmap_app. Qed.

(** Cutting [k] letters off the front of a word cuts [k] letters off the
    back of its reverse. *)
Lemma reverse_word_drop (k : nat) (w : word) :
  reverse_word (drop k w) = drop_last k (reverse_word w).
Proof.
  unfold drop_last, reverse_word. rewrite length_fmap, length_reverse.
  by rewrite <- fmap_take, reverse_drop.
Qed.

Lemma reduced_cons2 (a b : letter) (w : word) :
  reduced (a :: b :: w) = bool_decide (b ≠ inverse_letter a) && reduced (b :: w).
Proof. done. Qed.

Lemma reduced_cons2_true (a b : letter) (w : word) :
  reduced (a :: b :: w) = true ↔ b ≠ inverse_letter a ∧ reduced (b :: w) = true.
Proof. rewrite reduced_cons2, andb_true_iff, bool_decide_eq_true. done. Qed.

Lemma reduced_cons_inv (a : letter) (w : word) : reduced (a :: w) = true → reduced w = true.
Proof. destruct w as [|b w]; [done|]. rewrite reduced_cons2_true. by intros [_ ?]. Qed.

Lemma reduced_app_inv (u v : word) :
  reduced (u ++ v) = true → reduced u = true ∧ reduced v = true.
Proof.
  induction u as [|a u IH]; [done|]. intros H.
  pose proof (reduced_cons_inv _ _ H) as Hr. destruct (IH Hr) as [Hu Hv].
  split; [|done]. destruct u as [|b u]; [done|].
  change (reduced (a :: b :: (u ++ v)) = true) in H.
  apply reduced_cons2_true in H as [H _]. by apply reduced_cons2_true.
Qed.

Lemma reduced_take (k : nat) (w : word) : reduced w = true → reduced (take k w) = true.
Proof. intros H. rewrite <- (take_drop k w) in H. by apply reduced_app_inv in H as [? _]. Qed.

Lemma reduced_drop (k : nat) (w : word) : reduced w = true → reduced (drop k w) = true.
Proof. intros H. rewrite <- (take_drop k w) in H. by apply reduced_app_inv in H as [_ ?]. Qed.

Lemma reduced_snoc (w : word) (a b : letter) :
  reduced (w ++ [a]) = true → b ≠ inverse_letter a → reduced (w ++ [a; b]) = true.
Proof.
  induction w as [|c w IH]; intros H Hb.
  - by apply reduced_cons2_true.
  - pose proof (reduced_cons_inv _ _ H) as Hr. specialize (IH Hr Hb).
    destruct w as [|d w].
    + change (reduced [c; a] = true) in H. apply reduced_cons2_true in H as [H _].
      change (reduced (c :: a :: [b]) = true). by apply reduced_cons2_true.
    + change (reduced (c :: d :: (w ++ [a])) = true) in H.
      apply reduced_cons2_true in H as [H _].
      change (reduced (c :: d :: (w ++ [a; b])) = true). by apply reduced_cons2_true.
Qed.

Lemma reduced_reverse_word (w : word) : reduced w = true → reduced (reverse_word w) = true.
Proof.
  induction w as [|a w IH]; [done|]. intros H.
  rewrite reverse_word_cons. pose proof (reduced_cons_inv _ _ H) as Hr.
  specialize (IH Hr). destruct w as [|b w]; [done|].
  rewrite reverse_word_cons in IH |- *. rewrite <- app_assoc.
  apply reduced_snoc; [done|].
  apply reduced_cons2_true in H as [H _].
  intros Heq. apply H. apply inverse_letter_inj.
  by rewrite Heq, inverse_letter_involutive.
Qed.

Lemma reduced_reduce_word (w : word) : reduced (reduce_word w) = true.
Proof.
  induction w as [|a w IH]; [done|]. simpl.
  destruct (reduce_word w) as [|b r] eqn:E; [done|].
  destruct (decide (b = inverse_letter a)) as [->|Hne].
  - by apply reduced_cons_inv in IH.
  - by apply reduced_cons2_true.
Qed.

Lemma reduce_word_reduced (w : word) : reduced w = true → reduce_word w = w.
Proof.
  induction w as [|a w IH]; [done|]. intros H.
  pose proof (reduced_cons_inv _ _ H) as Hr. simpl. rewrite (IH Hr).
  destruct w as [|b w]; [done|]. apply reduced_cons2_true in H as [H _].
  by rewrite decide_False.
Qed.

Lemma reduce_word_idempotent (w : word) : reduce_word (reduce_word w) = reduce_word w.
Proof. apply reduce_word_reduced, reduced_reduce_word. Qed.

(** ** [set_edge_map] and the invariant *)

Lemma store_image_consistent (cod : GraphWithInverses) (m : gmap letter word)
  (kv : letter * word) :
  consistent m → consistent (store_image cod m kv).
Proof.
  intros Hm b w. unfold store_image, reduce_path, reverse_path.
  destruct kv as [a u]; simpl.
  pose proof (reduced_reduce_word u) as Hred.
  pose proof (inverse_letter_ne a) as Hne.
  destruct (decide (b = inverse_letter a)) as [->|Hb1].
  - rewrite lookup_insert_eq. intros [= <-].
    rewrite inverse_letter_involutive, lookup_insert_ne, lookup_insert_eq by done.
    rewrite reverse_word_involutive. auto using reduced_reverse_word.
  - rewrite lookup_insert_ne by done.
    destruct (decide (b = a)) as [->|Hb2].
    + rewrite lookup_insert_eq. intros [= <-].
      rewrite lookup_insert_eq. auto using reduced_reverse_word.
    + rewrite lookup_insert_ne by done. intros Hb.
      rewrite !lookup_insert_ne; [by apply Hm| |].
      * intros Heq. apply Hb1. by apply inverse_letter_swap.
      * intros Heq. apply Hb2. symmetry. by apply inverse_letter_inj.
Qed.

Lemma consistent_empty : consistent ∅.
Proof. intros a w. by rewrite lookup_empty. Qed.

Lemma foldl_store_image_consistent (cod : GraphWithInverses)
  (l : list (letter * word)) (m : gmap letter word) :
  consistent m → consistent (foldl (store_image cod) m l).
Proof.
  revert m. induction l as [|kv l IH]; simpl; intros m Hm; [done|].
  by apply IH, store_image_consistent.
Qed.

(** The letters [set_edge_map] stores an image for: the keys of the
    specification and their inverses. *)
Lemma foldl_store_image_None (cod : GraphWithInverses) (l : list (letter * word))
  (m : gmap letter word) (b : letter) :
  (foldl (store_image cod) m l) !! b = None
  ↔ m !! b = None ∧ (b ∉ l.*1) ∧ (inverse_letter b ∉ l.*1).
Proof.
  revert m. induction l as [|[a u] l IH]; simpl; intros m.
  - rewrite !elem_of_nil. naive_solver.
  - rewrite IH. unfold store_image; simpl. rewrite !not_elem_of_cons.
    rewrite !lookup_insert_None. rewrite (inverse_letter_swap b a).
    naive_solver.
Qed.

Lemma set_edge_map_total (f : GraphMap) (spec : gmap letter word) :
  ∃ f', set_edge_map f spec = Ok f'.
Proof. by eexists. Qed.

Lemma set_edge_map_consistent (f f' : GraphMap) (spec : gmap letter word) :
  set_edge_map f spec = Ok f' → inverse_consistent f'.
Proof.
  intros [= <-]. apply foldl_store_image_consistent, consistent_empty.
Qed.

Lemma set_edge_map_frame (f f' : GraphMap) (spec : gmap letter word) :
  set_edge_map f spec = Ok f' →
  domain f' = domain f ∧ codomain f' = codomain f ∧ vertex_map f' = None.
Proof. by intros [= <-]. Qed.

Lemma set_edge_map_unmapped (f f' : GraphMap) (spec : gmap letter word) (a : letter) :
  set_edge_map f spec = Ok f' →
  edge_map f' !! a = None ↔ spec !! a = None ∧ spec !! inverse_letter a = None.
Proof.
  intros [= <-]. simpl. rewrite foldl_store_image_None, lookup_empty.
  rewrite <- !(not_elem_of_dom spec), <- !elem_of_elements.
  assert (Hk : ∀ b, b ∈ (map_to_list spec).*1 ↔ b ∈ elements (dom spec)).
  { intros b. rewrite elem_of_elements, elem_of_dom, list_elem_of_fmap.
    split.
    - intros ([b' w] & -> & Hin). apply elem_of_map_to_list in Hin. by exists w.
    - intros [w Hw]. exists (b, w). split; [done|]. by apply elem_of_map_to_list. }
  rewrite !Hk. naive_solver.
Qed.

Lemma init_consistent dom cod spec vmap f :
  init dom cod spec vmap = Ok f → inverse_consistent f.
Proof.
  unfold init. intros H. inv_bind.
  match goal with H : set_edge_map _ _ = Ok _ |- _ => apply set_edge_map_consistent in H end.
  done.
Qed.

Lemma mul_consistent (f g h : GraphMap) : mul f g = Ok h → inverse_consistent h.
Proof. unfold mul. intros H. inv_bind. by eapply init_consistent. Qed.

Lemma compose_edge_map_consistent (f f' : GraphMap) (edge_morph : gmap letter word) :
  compose_edge_map f edge_morph = Ok f' → inverse_consistent f'.
Proof. unfold compose_edge_map. intros H. inv_bind. by eapply set_edge_map_consistent. Qed.

Lemma update_vertex_map_edge_map (f f' : GraphMap) :
  update_vertex_map f = Ok f' → edge_map f' = edge_map f.
Proof. unfold update_vertex_map. intros H. by inv_bind. Qed.

Lemma call_edge_map (f f' : GraphMap) (arg : argument) (v : value) :
  call f arg = Ok (v, f') → edge_map f' = edge_map f.
Proof.
  unfold call. destruct arg as [x|w].
  - destruct (has_vertex (domain f) x); [|done]. intros H.
    apply bind_Ok in H as (f1 & H1 & H).
    destruct (vertex_map f1); [|done]. inv_bind.
    destruct (vertex_map f); [by simplify_eq|].
    by apply update_vertex_map_edge_map.
  - intros H. by inv_bind.
Qed.

Lemma tighten_consistent (fuel : nat) (f f' : GraphMap) :
  tighten fuel f = Ok f' → inverse_consistent f'.
Proof. unfold tighten. intros H. inv_bind. by eapply set_edge_map_consistent. Qed.

Lemma subdivide_domain_consistent (f f' : GraphMap) (e : letter)
  (result_map : gmap letter word) :
  subdivide_domain f e = Ok (f', result_map) → inverse_consistent f'.
Proof.
  unfold subdivide_domain. intros H. apply bind_Ok in H as (w & _ & H).
  destruct (add_new_letters (domain f) (Z.of_nat (length w) - 1)) as [G0 new_edges].
  apply bind_Ok in H as ([[G rm] d] & _ & H).
  inv_bind. by eapply set_edge_map_consistent.
Qed.

Lemma subdivide_long_consistent (f f' : GraphMap) (a : letter) :
  inverse_consistent f → subdivide_long f a = Ok f' → inverse_consistent f'.
Proof.
  unfold subdivide_long. intros Hf H. apply bind_Ok in H as (u & _ & H).
  case_decide; [|by simplify_eq].
  apply bind_Ok in H as ([f1 rm] & H1 & H). simplify_eq.
  by eapply subdivide_domain_consistent.
Qed.

Lemma fold_iteration_consistent (order : set_order) (A : ambient) (f f' : GraphMap)
  (Il_turns : list (letter * letter)) :
  fold_iteration order A f Il_turns = Ok f' → inverse_consistent f'.
Proof. unfold fold_iteration. intros H. inv_bind. by eapply set_edge_map_consistent. Qed.

Lemma folding_loop_consistent (order : set_order) (fuel : nat) (A : ambient)
  (f f' : GraphMap)
  (Il_turns : list (letter * letter)) :
  inverse_consistent f → folding_loop order fuel A f Il_turns = Ok f' →
  inverse_consistent f'.
Proof.
  revert f Il_turns. induction fuel as [|n IH]; intros f Il Hf H.
  - destruct Il; simpl in H; by simplify_eq.
  - destruct Il as [|t Il]; simpl in H; [by simplify_eq|].
    apply bind_Ok in H as (f1 & H1 & H). apply bind_Ok in H as (Il' & _ & H).
    eapply IH; [|exact H]. by eapply fold_iteration_consistent.
Qed.

Lemma folding_consistent (order : set_order) (fuel : nat) (A : ambient)
  (f f' : GraphMap) :
  inverse_consistent f → folding order fuel A f = Ok f' → inverse_consistent f'.
Proof.
  unfold folding. intros Hf H.
  apply bind_Ok in H as (ls & _ & H). apply bind_Ok in H as (f1 & H1 & H).
  apply bind_Ok in H as (Il & _ & H).
  eapply folding_loop_consistent; [|exact H].
  eapply (for_each_invariant inverse_consistent); [|exact Hf|exact H1].
  intros. by eapply subdivide_long_consistent.
Qed.

Lemma inverse_consistent_result spanning_tree automorphism_inverse (f f' : GraphMap) :
  inverse spanning_tree automorphism_inverse f = Ok f' → inverse_consistent f'.
Proof.
  unfold inverse. intros H. apply bind_Ok in H as ([[phi tr] em] & _ & H).
  apply bind_Ok in H as (psi & _ & H). apply bind_Ok in H as ([em' i] & _ & H).
  by eapply init_consistent.
Qed.

(** ** The invariant after every mutation *)

(** Every object the public methods produce satisfies the
    inverse-consistency invariant on the letters that have a stored
    image: if [a] has the stored image [w], then [inverse_letter a] has
    the stored image [reverse_word w], and both are reduced. *)
Lemma reachable_consistent (f : GraphMap) :
  reachable f → inverse_consistent f.
Proof.
  induction 1 as
    [dom cod spec vmap f H
    |f spec f' _ _ H
    |f morph f' _ _ H
    |f g h _ _ _ _ H
    |f f' _ IH H
    |f arg v f' _ IH H
    |fuel f f' _ _ H
    |f e f' rm _ _ H
    |order fuel A f f' _ IH H
    |st ai f f' _ _ H].
  - by eapply init_consistent.
  - by eapply set_edge_map_consistent.
  - by eapply compose_edge_map_consistent.
  - by eapply mul_consistent.
  - unfold inverse_consistent. by rewrite (update_vertex_map_edge_map _ _ H).
  - unfold inverse_consistent. by rewrite (call_edge_map _ _ _ _ H).
  - by eapply tighten_consistent.
  - by eapply subdivide_domain_consistent.
  - by eapply folding_consistent.
  - by eapply inverse_consistent_result.
Qed.

(** C1 as stated fails: the constructor accepts a specification that
    leaves the second letter of the domain out, and that letter of the
    domain alphabet then has no stored image at all. *)
Lemma invariant_on_alphabet_fails :
  init (rose 2) (rose 1) half_spec None = Ok half_map
  ∧ ¬ inverse_consistent_on_alphabet half_map.
Proof.
  split; [vm_compute; reflexivity|].
  intros H. destruct (H (Pos 1)) as (w & Hw & _).
  - vm_compute. set_solver.
  - vm_compute in Hw. discriminate Hw.
Qed.

(** ** A specification that leaves a letter out *)

Lemma image_unmapped (f : GraphMap) (a : letter) :
  edge_map f !! a = None → image f a = Raise LetterNotInDomain.
Proof. unfold image, WordMorphism.image. by intros ->. Qed.

(** C5 (as amended).  [set_edge_map], and with it the constructor, never
    fails: it returns for every specification, and a letter is left
    without a stored image exactly when the specification gives an image
    neither to it nor to its inverse; asking for the image of such a
    letter is what raises. *)
Theorem set_edge_map_leaves_unmapped (f : GraphMap) (spec : gmap letter word) :
  (∃ f', set_edge_map f spec = Ok f'
     ∧ ∀ a, (edge_map f' !! a = None
             ↔ spec !! a = None ∧ spec !! inverse_letter a = None)
            ∧ (edge_map f' !! a = None → image f' a = Raise LetterNotInDomain))
  ∧ (∀ vmap, ∃ f', init (domain f) (codomain f) spec vmap = Ok f'
     ∧ ∀ a, (edge_map f' !! a = None
             ↔ spec !! a = None ∧ spec !! inverse_letter a = None)
            ∧ (edge_map f' !! a = None → image f' a = Raise LetterNotInDomain)).
Proof.
  split.
  - eexists. split; [reflexivity|]. intros a. split; [|apply image_unmapped].
    by apply (set_edge_map_unmapped f _ spec a).
  - intros vmap. eexists. split; [reflexivity|]. intros a.
    split; [|apply image_unmapped].
    pose (g := mkGraphMap (domain f) (codomain f) ∅ None).
    by apply (set_edge_map_unmapped g
                (mkGraphMap (domain g) (codomain g)
                   (foldl (store_image (codomain g)) ∅ (map_to_list spec)) None)
                spec a).
Qed.

(** C5 as stated fails: the second positive letter of the rose has no
    image in the specification, directly or through its inverse, and
    [set_edge_map] returns, leaving it unmapped. *)
Lemma set_edge_map_accepts_partial :
  Pos 1 ∈ positive_letters (domain half_map)
  ∧ half_spec !! Pos 1 = None ∧ half_spec !! inverse_letter (Pos 1) = None
  ∧ set_edge_map half_map half_spec = Ok half_map
  ∧ set_edge_map half_map half_spec ≠ Raise MalformedEdgeMapError
  ∧ edge_map half_map !! Pos 1 = None.
Proof.
  split; [vm_compute; set_solver|].
  repeat split; try (vm_compute; reflexivity). vm_compute. discriminate.
Qed.

(** ** The vertex map computed on demand *)

(** What the body of the loop of [update_vertex_map] can raise. *)
Lemma vertex_map_step_Raise (f : GraphMap) (vm : gmap vertex vertex) (e : letter)
  (ex : exception) :
  vertex_map_step f vm e = Raise ex →
  ex = LetterNotInDomain ∨ ex = KeyError ∨ ex = IndexError.
Proof.
  unfold vertex_map_step, image, WordMorphism.image, first_letter, last_letter,
    initial_vertex, terminal_vertex, getitem.
  repeat (match goal with
          | |- context [match ?x with _ => _ end] => destruct x eqn:?
          end; simpl); naive_solver.
Qed.

Lemma compute_vertex_map_Raise (f : GraphMap) (ex : exception) :
  compute_vertex_map f = Raise ex →
  ex = LetterNotInDomain ∨ ex = KeyError ∨ ex = IndexError.
Proof.
  intros H. apply for_each_Raise in H as (vm & e & _ & H).
  by eapply vertex_map_step_Raise.
Qed.

(** The computed vertex map has no entry for a vertex that is not
    carried. *)
Lemma compute_vertex_map_not_carried (f : GraphMap) (v : vertex)
  (vm : gmap vertex vertex) :
  ¬ carried f v → compute_vertex_map f = Ok vm → vm !! v = None.
Proof.
  intros Hv. unfold compute_vertex_map.
  apply (for_each_invariant (λ vm, vm !! v = None)); [|apply lookup_empty].
  intros vm0 e vm1 He Hvm0 Hstep. unfold vertex_map_step in Hstep.
  apply bind_Ok in Hstep as (p & Hp & Hstep). apply image_Ok in Hp.
  destruct p as [|c p]; [by simplify_eq|].
  unfold initial_vertex, terminal_vertex in Hstep. inv_bind.
  rewrite !lookup_insert_ne; [done| |].
  - intros ->. apply Hv. exists e, (c :: p). eauto 10.
  - intros ->. apply Hv. exists e, (c :: p). eauto 10.
Qed.

(** C6 as stated fails: the loop at the only vertex of the rose has an
    empty image, so the vertex has no incident edge with nonempty image;
    [update_vertex_map] returns with the empty vertex map, and the call on
    the vertex raises [KeyError] at the lookup. *)
Lemma update_vertex_map_returns_partial_map :
  has_vertex (domain constant_map) 0 = true
  ∧ edge_map constant_map !! Pos 0 = Some []
  ∧ update_vertex_map constant_map
    = Ok (mkGraphMap (rose 1) (rose 1) (edge_map constant_map) (Some ∅))
  ∧ update_vertex_map constant_map ≠ Raise DisconnectedImageError
  ∧ call constant_map (Vertex 0) = Raise KeyError
  ∧ call constant_map (Vertex 0) ≠ Raise DisconnectedImageError.
Proof. repeat split; try (vm_compute; reflexivity); vm_compute; discriminate. Qed.

(** ** The homotopy inverse *)

(** ** Illegal turns *)

(** On turns between letters with nonempty images, [illegal_turns]
    returns the turns whose two images begin with the same letter. *)
Lemma first_of_Some (f : GraphMap) (a x : letter) :
  first_of f a = Some x → ∃ u, image f a = Ok (x :: u).
Proof.
  unfold first_of, image, WordMorphism.image.
  destruct (edge_map f !! a) as [[|y u]|]; simpl; intros; simplify_eq. by exists u.
Qed.

Lemma illegal_turn_steps_nonempty (f : GraphMap) (turns acc : list (letter * letter)) :
  (∀ t, t ∈ turns → is_Some (first_of f t.1) ∧ is_Some (first_of f t.2)) →
  for_each (illegal_turn_step f) acc turns
  = Ok (acc ++ filter (λ t, first_of f t.1 = first_of f t.2) turns).
Proof.
  revert acc. induction turns as [|t turns IH]; intros acc Hne.
  - by rewrite filter_nil, app_nil_r.
  - destruct (Hne t) as [[x Hx] [y Hy]]; [by left|].
    destruct (first_of_Some _ _ _ Hx) as [u Hu].
    destruct (first_of_Some _ _ _ Hy) as [v Hv].
    assert (Hstep : illegal_turn_step f acc t
                    = Ok (if decide (x = y) then acc ++ [t] else acc)).
    { unfold illegal_turn_step. by rewrite Hu, Hv. }
    rewrite filter_cons. cbn [for_each]. rewrite Hstep. simpl.
    rewrite IH by (intros ? ?; apply Hne; by right).
    rewrite Hx, Hy.
    destruct (decide (x = y)) as [->|Hxy].
    + rewrite decide_True by done. by rewrite <- app_assoc.
    + rewrite decide_False by congruence. done.
Qed.

(** X14.  On turns whose two letters both have a nonempty stored image,
    [illegal_turns] returns, in the order given, exactly the turns whose
    two images begin with the same letter. *)
Lemma illegal_turns_nonempty (f : GraphMap) (turns : list (letter * letter)) :
  (∀ t, t ∈ turns → is_Some (first_of f t.1) ∧ is_Some (first_of f t.2)) →
  illegal_turns f turns
  = Ok (filter (λ t, first_of f t.1 = first_of f t.2) turns).
Proof. apply illegal_turn_steps_nonempty. Qed.

(** C8 (the code misses the case).  On a turn with a letter of empty
    image, [illegal_turns] does not leave the turn out: taking the first
    letter of the empty image raises [IndexError].  Here the turn of the
    two loops of the rose, the first one with empty image, alone and among
    all the turns of the rose. *)
Theorem illegal_turns_fails_on_empty_image :
  edge_map collapsed_map !! Pos 0 = Some []
  ∧ illegal_turns collapsed_map [(Pos 0, Pos 1)] = Raise IndexError
  ∧ (Pos 0, Pos 1) ∈ turns (domain collapsed_map)
  ∧ illegal_turns collapsed_map (turns (domain collapsed_map)) = Raise IndexError.
Proof.
  split; [vm_compute; reflexivity|]. split; [vm_compute; reflexivity|].
  split; [vm_compute; set_solver|]. vm_compute; reflexivity.
Qed.

(** ** Folding *)

(** With the name [A] bound nowhere, [folding] raises [NameError] at its
    first statement, on every map. *)
Lemma folding_unbound_A (order : set_order) (fuel : nat) (f : GraphMap) :
  folding order fuel None f = Raise NameError.
Proof. reflexivity. Qed.

Lemma collapsed_map_short (a : letter) (u : word) :
  edge_map collapsed_map !! a = Some u → length u ≤ 1.
Proof.
  intros H. apply elem_of_list_to_map_2 in H.
  repeat (apply elem_of_cons in H as [H|H]; [simplify_eq; simpl; lia|]).
  by apply elem_of_nil in H.
Qed.

Lemma collapsed_map_not_subdivided (ls : list letter) :
  for_each subdivide_long collapsed_map ls = Ok collapsed_map
  ∨ for_each subdivide_long collapsed_map ls = Raise LetterNotInDomain.
Proof.
  induction ls as [|a ls IH]; [by left|]. cbn [for_each].
  assert (Hstep : subdivide_long collapsed_map a = Ok collapsed_map
                  ∨ subdivide_long collapsed_map a = Raise LetterNotInDomain).
  { unfold subdivide_long, image, WordMorphism.image.
    destruct (edge_map collapsed_map !! a) as [u|] eqn:Hu; [|by right]. simpl.
    apply collapsed_map_short in Hu. rewrite decide_False by lia. by left. }
  destruct Hstep as [-> | ->]; [exact IH|by right].
Qed.

(** C2 (the code fails).  On the map of the rose with two petals that
    collapses the first loop and sends the second to a loop, [folding]
    returns no immersion: whatever the name [A] is bound to and whatever
    the fuel, it raises ([NameError] when [A] is unbound, [IndexError] out
    of [illegal_turns] when [A] is the alphabet of the domain). *)
Theorem folding_fails_on_collapsed_edge :
  inverse_consistent_on_alphabet collapsed_map
  ∧ (∀ order fuel A, ∃ e, folding order fuel A collapsed_map = Raise e)
  ∧ (∀ order fuel, folding order fuel None collapsed_map = Raise NameError)
  ∧ (∀ order fuel, folding order fuel (Some letters) collapsed_map = Raise IndexError).
Proof.
  split; [|split; [|split]].
  - intros a Ha. vm_compute in Ha.
    repeat (apply elem_of_cons in Ha as [->|Ha];
            [eexists; repeat split; vm_compute; reflexivity|]).
    by apply elem_of_nil in Ha.
  - intros order fuel [it|]; [|by exists NameError].
    unfold folding, lookup_A. rewrite bind_Ok_l.
    destruct (collapsed_map_not_subdivided (it (domain collapsed_map))) as [-> | ->].
    + exists IndexError. reflexivity.
    + by exists LetterNotInDomain.
  - reflexivity.
  - intros order fuel. reflexivity.
Qed.

(** ** What [tighten] leaves alone *)

Lemma folding_rewires_domain :
  folding list_set 1 (Some letters) doubled_map = Ok doubled_map_folded
  ∧ domain doubled_map_folded ≠ domain doubled_map.
Proof.
  split; [vm_compute; reflexivity|].
  intros H. apply (f_equal alphabet) in H. vm_compute in H. discriminate H.
Qed.

(** Whatever the order of the sets, [folding] subdivides the edge of
    the interval whose image has two letters: the domain gets a vertex
    and an edge more, and no turn is left to fold. *)
Lemma folding_subdivides_domain (order : set_order) :
  folding order 0 (Some letters) long_edge_map = Ok long_edge_map_subdivided
  ∧ domain long_edge_map_subdivided ≠ domain long_edge_map.
Proof.
  split; [vm_compute; reflexivity|].
  intros H. apply (f_equal alphabet) in H. vm_compute in H. discriminate H.
Qed.

(** C10.  [tighten] returns the object with the same domain graph and
    the same codomain graph, and with the vertex map reset to "not
    computed": only the edge map is replaced.  Folding, on the contrary,
    can change the domain graph, whatever the order in which the sets of
    edges are listed. *)
Theorem tighten_frame (fuel : nat) (f f' : GraphMap) :
  tighten fuel f = Ok f' →
  domain f' = domain f ∧ codomain f' = codomain f ∧ vertex_map f' = None
  ∧ ∀ order, ∃ fuel' A g g', folding order fuel' A g = Ok g' ∧ domain g' ≠ domain g.
Proof.
  unfold tighten. intros H. inv_bind.
  match goal with
  | H : set_edge_map _ _ = Ok _ |- _ => apply set_edge_map_frame in H as (? & ? & ?)
  end.
  repeat split; try done.
  intros order. exists 0, (Some letters), long_edge_map, long_edge_map_subdivided.
  exact (folding_subdivides_domain order).
Qed.

Lemma tighten_frame_witness :
  tighten 3 conjugate_map = Ok conjugate_map_tight
  ∧ domain conjugate_map_tight = domain conjugate_map
  ∧ codomain conjugate_map_tight = codomain conjugate_map
  ∧ vertex_map conjugate_map_tight = None.
Proof.
  assert (H : tighten 3 conjugate_map = Ok conjugate_map_tight).
  { vm_compute. reflexivity. }
  split; [exact H|].
  destruct (tighten_frame 3 conjugate_map conjugate_map_tight H) as (H1 & H2 & H3 & _).
  exact (conj H1 (conj H2 H3)).
Defined.

(** ** The loop of [tighten]: lengths *)

Lemma total_length_insert_notin (A1 : list letter) (em : gmap letter word)
  (a : letter) (w : word) :
  a ∉ A1 → total_length A1 (<[a := w]> em) = total_length A1 em.
Proof.
  unfold total_length. induction A1 as [|b A1 IH]; [done|].
  rewrite not_elem_of_cons. intros [Hab Ha]. rewrite !fmap_cons. simpl.
  rewrite lookup_insert_ne by done. f_equal. by apply IH.
Qed.

Lemma total_length_insert (A1 : list letter) (em : gmap letter word)
  (a : letter) (w : word) :
  NoDup A1 → a ∈ A1 →
  total_length A1 (<[a := w]> em) + length (default [] (em !! a))
  = total_length A1 em + length w.
Proof.
  unfold total_length. induction A1 as [|b A1 IH]; intros Hnd Ha.
  - by apply elem_of_nil in Ha.
  - apply NoDup_cons in Hnd as [Hb Hnd]. rewrite !fmap_cons. simpl.
    destruct (decide (a = b)) as [->|Hab].
    + rewrite lookup_insert_eq. simpl.
      pose proof (total_length_insert_notin A1 em b w Hb) as Heq.
      unfold total_length in Heq. rewrite Heq. lia.
    + rewrite lookup_insert_ne by done.
      apply elem_of_cons in Ha as [?|Ha]; [done|].
      specialize (IH Hnd Ha). lia.
Qed.

Lemma total_length_insert_le (A1 : list letter) (em : gmap letter word)
  (a : letter) (u w : word) :
  NoDup A1 → em !! a = Some u → length w ≤ length u →
  total_length A1 (<[a := w]> em) ≤ total_length A1 em.
Proof.
  intros Hnd Hu Hle. destruct (decide (a ∈ A1)) as [Ha|Ha].
  - pose proof (total_length_insert A1 em a w Hnd Ha) as H.
    rewrite Hu in H. simpl in H. lia.
  - by rewrite total_length_insert_notin.
Qed.

Lemma total_length_insert_lt (A1 : list letter) (em : gmap letter word)
  (a : letter) (u w : word) :
  NoDup A1 → a ∈ A1 → em !! a = Some u → length w < length u →
  total_length A1 (<[a := w]> em) < total_length A1 em.
Proof.
  intros Hnd Ha Hu Hlt. pose proof (total_length_insert A1 em a w Hnd Ha) as H.
  rewrite Hu in H. simpl in H. lia.
Qed.

(** The three ways through the body of the second inner loop. *)
Lemma strip_step_cases (G1 G2 : GraphWithInverses) (prefix : gmap vertex word)
  (em em' : gmap letter word) (done done' : bool) (a : letter) :
  strip_step G1 G2 prefix (em, done) a = Ok (em', done') →
  (em' = em ∧ done' = done
   ∧ ∃ v, initial G1 !! a = Some v ∧ (prefix !! v = None ∨ prefix !! v = Some []))
  ∨ (∃ v pv ua uaa, initial G1 !! a = Some v ∧ prefix !! v = Some pv ∧ pv ≠ []
       ∧ em !! a = Some ua ∧ ua ≠ [] ∧ em !! inverse_letter a = Some uaa
       ∧ em' = <[inverse_letter a := drop_last (length pv) uaa]>
                 (<[a := drop (length pv) ua]> em)
       ∧ done' = false)
  ∨ (∃ v pv, initial G1 !! a = Some v ∧ prefix !! v = Some pv ∧ pv ≠ []
       ∧ em !! a = Some []
       ∧ em' = <[inverse_letter a := pv]> (<[a := reverse_word pv]> em)
       ∧ done' = false).
Proof.
  unfold strip_step, initial_vertex. intros H.
  apply bind_Ok in H as (v & Hv & H). apply getitem_Ok in Hv.
  destruct (prefix !! v) as [[|c p]|] eqn:Hp.
  - left. simplify_eq. eauto 10.
  - cbn zeta in H. apply bind_Ok in H as (ua & Hua & H). apply getitem_Ok in Hua.
    simpl in Hua. destruct ua as [|x ua].
    + right; right. simplify_eq. exists v, (c :: p). eauto 10.
    + right; left. apply bind_Ok in H as (uaa & Huaa & H). apply getitem_Ok in Huaa.
      rewrite lookup_insert_ne in Huaa by (symmetry; apply inverse_letter_ne).
      simplify_eq. exists v, (c :: p), (x :: ua), uaa. eauto 10.
  - left. simplify_eq. eauto 10.
Qed.

Lemma strips_only_cons (G1 G2 : GraphWithInverses) (prefix : gmap vertex word)
  (st st' : gmap letter word * bool) (a : letter) (l : list letter) :
  strips_only G1 G2 prefix st (a :: l) = true →
  strip_step G1 G2 prefix st a = Ok st' →
  grows G1 prefix st.1 a = false ∧ strips_only G1 G2 prefix st' l = true.
Proof.
  simpl. intros H Hstep. rewrite Hstep in H. apply andb_prop in H as [H1 H2].
  split; [|done]. by apply negb_true_iff.
Qed.

(** Over a run of the second inner loop that never takes the [else]
    branch the total length does not grow, and it drops if the loop marks
    "not done". *)
Lemma strip_pass_length (G1 G2 : GraphWithInverses) (prefix : gmap vertex word)
  (A1 l : list letter) (em em' : gmap letter word) (done done' : bool) :
  NoDup A1 → (∀ a, a ∈ l → a ∈ A1) →
  for_each (strip_step G1 G2 prefix) (em, done) l = Ok (em', done') →
  strips_only G1 G2 prefix (em, done) l = true →
  total_length A1 em' ≤ total_length A1 em
  ∧ (done = true → done' = false → total_length A1 em' < total_length A1 em).
Proof.
  intros Hnd. revert em done. induction l as [|a l IH]; intros em done Hl Hrun Hso.
  - simpl in Hrun. simplify_eq. split; [lia|]. by intros ->.
  - cbn [for_each] in Hrun. apply bind_Ok in Hrun as ([em1 done1] & Hstep & Hrun).
    destruct (strips_only_cons _ _ _ _ _ _ _ Hso Hstep) as [Hg Hso'].
    assert (Hl' : ∀ b, b ∈ l → b ∈ A1) by (intros b Hb; apply Hl; by right).
    destruct (IH em1 done1 Hl' Hrun Hso') as [IHle IHlt].
    apply strip_step_cases in Hstep
      as [(-> & -> & _)
         |[(v & pv & ua & uaa & Hv & Hp & Hpv & Hua & Hne & Huaa & -> & ->)
          |(v & pv & Hv & Hp & Hpv & Hua & _)]].
    + done.
    + assert (Hlt : total_length A1
                      (<[inverse_letter a := drop_last (length pv) uaa]>
                         (<[a := drop (length pv) ua]> em))
                    < total_length A1 em).
      { eapply Nat.le_lt_trans.
        - apply (total_length_insert_le _ _ _ uaa); [done| |].
          + rewrite lookup_insert_ne by (symmetry; apply inverse_letter_ne). done.
          + unfold drop_last. rewrite length_take. lia.
        - apply (total_length_insert_lt _ _ _ ua); [done|apply Hl; by left|done|].
          rewrite length_drop. destruct ua, pv; simpl; try done; lia. }
      split; [lia|]. intros _ _. lia.
    + exfalso. unfold grows in Hg. simpl in Hg. rewrite Hv, Hp in Hg.
      destruct pv; [done|]. by rewrite bool_decide_eq_true_2 in Hg.
Qed.

Lemma tighten_iteration_length (G1 G2 : GraphWithInverses) (A1 : list letter)
  (em em' : gmap letter word) :
  NoDup A1 →
  tighten_iteration G1 G2 A1 em = Ok (em', false) →
  iteration_strips_only G1 G2 A1 em = true →
  total_length A1 em' < total_length A1 em.
Proof.
  unfold tighten_iteration, iteration_strips_only. intros Hnd Hrun Hso.
  apply bind_Ok in Hrun as (prefix & Hp & Hrun). rewrite Hp in Hso.
  by apply (strip_pass_length G1 G2 prefix A1 A1 em em' true false).
Qed.

(** The fuel never runs out inside a [for] loop: only a [while] loop
    consumes it. *)
Lemma for_each_fuel {S X : Type} (body : S → X → result S) (l : list X) (s : S) :
  (∀ s x, body s x ≠ OutOfFuel) → for_each body s l ≠ OutOfFuel.
Proof.
  intros Hbody. revert s. induction l as [|x l IH]; intros s; [done|].
  cbn [for_each]. pose proof (Hbody s x) as Hx.
  destruct (body s x) as [s1| |]; [apply IH|done|done].
Qed.

Lemma tighten_iteration_fuel (G1 G2 : GraphWithInverses) (A1 : list letter)
  (em : gmap letter word) :
  tighten_iteration G1 G2 A1 em ≠ OutOfFuel.
Proof.
  unfold tighten_iteration.
  pose proof (for_each_fuel (prefix_step G1 G2 em) A1 ∅) as Hp.
  destruct (for_each (prefix_step G1 G2 em) ∅ A1) as [prefix| |].
  - rewrite bind_Ok_l. apply for_each_fuel. intros [e1 d1] a.
    unfold strip_step, initial_vertex, getitem. simpl.
    repeat (match goal with
            | |- context [match ?x with _ => _ end] => destruct x eqn:?
            end; simpl; try done).
  - done.
  - exfalso. apply Hp; [|done]. intros p a.
    unfold prefix_step, initial_vertex, getitem.
    repeat (match goal with
            | |- context [match ?x with _ => _ end] => destruct x eqn:?
            end; simpl; try done).
Qed.

(** With more fuel than the total length, a run of the loop that only
    ever strips comes to an end. *)
Lemma tighten_loop_terminates (G1 G2 : GraphWithInverses) (A1 : list letter)
  (n : nat) (em : gmap letter word) :
  NoDup A1 →
  total_length A1 em < n →
  strips_throughout n G1 G2 A1 em = true →
  tighten_loop n G1 G2 A1 em ≠ OutOfFuel.
Proof.
  intros Hnd. revert em. induction n as [|n IH]; intros em Hlt Hso; [lia|].
  cbn [strips_throughout] in Hso. apply andb_prop in Hso as [Hso Hnext].
  cbn [tighten_loop]. pose proof (tighten_iteration_fuel G1 G2 A1 em) as Hfuel.
  destruct (tighten_iteration G1 G2 A1 em) as [[em' [|]]| |] eqn:Hit; try done.
  rewrite bind_Ok_l.
  pose proof (tighten_iteration_length G1 G2 A1 em em' Hnd Hit Hso) as Hdec.
  apply IH; [lia|done].
Qed.

(** C3 (as amended).  A turn of the loop of [tighten] that marks "not
    done" strictly decreases the total length of the images, summed over
    the letters of the alphabet, provided every letter it visits at a
    vertex with nonempty prefix has a nonempty image at that moment (the
    branch that strips is the only one taken); and a run of the loop in
    which this holds at every turn terminates, within as many turns as the
    total length plus one. *)
Theorem tighten_iteration_decreases (G1 G2 : GraphWithInverses) (A1 : list letter)
  (em : gmap letter word) :
  NoDup A1 →
  (∀ em', tighten_iteration G1 G2 A1 em = Ok (em', false) →
          iteration_strips_only G1 G2 A1 em = true →
          total_length A1 em' < total_length A1 em)
  ∧ (strips_throughout (S (total_length A1 em)) G1 G2 A1 em = true →
     tighten_loop (S (total_length A1 em)) G1 G2 A1 em ≠ OutOfFuel).
Proof.
  intros Hnd. split.
  - intros em'. by apply tighten_iteration_length.
  - apply tighten_loop_terminates; [done|lia].
Qed.

Lemma tighten_iteration_decreases_witness :
  NoDup (letters (rose 1))
  ∧ tighten_iteration (rose 1) (rose 1) (letters (rose 1)) (edge_map conjugate_map)
    = Ok (edge_map conjugate_map_tight, false)
  ∧ iteration_strips_only (rose 1) (rose 1) (letters (rose 1)) (edge_map conjugate_map)
    = true
  ∧ total_length (letters (rose 1)) (edge_map conjugate_map_tight)
    < total_length (letters (rose 1)) (edge_map conjugate_map)
  ∧ strips_throughout 7 (rose 1) (rose 1) (letters (rose 1)) (edge_map conjugate_map)
    = true
  ∧ tighten_loop 7 (rose 1) (rose 1) (letters (rose 1)) (edge_map conjugate_map)
    ≠ OutOfFuel.
Proof.
  assert (Hnd : NoDup (letters (rose 1))).
  { vm_compute. apply NoDup_cons. split; [set_solver|]. apply NoDup_singleton. }
  assert (Hrun : tighten_iteration (rose 1) (rose 1) (letters (rose 1))
                   (edge_map conjugate_map)
                 = Ok (edge_map conjugate_map_tight, false)).
  { vm_compute. reflexivity. }
  assert (Hso : strips_throughout 7 (rose 1) (rose 1) (letters (rose 1))
                  (edge_map conjugate_map) = true).
  { vm_compute. reflexivity. }
  destruct (tighten_iteration_decreases (rose 1) (rose 1) (letters (rose 1))
              (edge_map conjugate_map) Hnd) as [Hdec Hterm].
  split; [exact Hnd|]. split; [exact Hrun|]. split; [vm_compute; reflexivity|].
  split; [exact (Hdec _ Hrun eq_refl)|]. split; [exact Hso|].
  exact (Hterm Hso).
Defined.

(** C3 as stated fails: on the edge [a] of the interval sent to the loop
    [c], the first turn of the loop marks "not done" and leaves the total
    length at 2 (the images become [a ↦ C], [A ↦ c]); the next turn
    restores the first edge map. *)
Lemma tighten_iteration_keeps_length :
  tighten_iteration interval interval (letters interval) (edge_map interval_map)
  = Ok (images [(Pos 0, [Neg 0]); (Neg 0, [Pos 0])], false)
  ∧ total_length (letters interval) (edge_map interval_map) = 2
  ∧ total_length (letters interval) (images [(Pos 0, [Neg 0]); (Neg 0, [Pos 0])]) = 2
  ∧ tighten_iteration interval interval (letters interval)
      (images [(Pos 0, [Neg 0]); (Neg 0, [Pos 0])])
    = Ok (edge_map interval_map, false).
Proof. repeat split; vm_compute; reflexivity. Qed.

(** On that map [tighten] does not terminate: no fuel is enough. *)
Lemma tighten_loops_forever (fuel : nat) : tighten fuel interval_map = OutOfFuel.
Proof.
  assert (H : tighten_loop fuel interval interval (letters interval)
                (edge_map interval_map) = OutOfFuel
              ∧ tighten_loop fuel interval interval (letters interval)
                  (images [(Pos 0, [Neg 0]); (Neg 0, [Pos 0])]) = OutOfFuel).
  { assert (H1 : tighten_iteration interval interval (letters interval)
                   (edge_map interval_map)
                 = Ok (images [(Pos 0, [Neg 0]); (Neg 0, [Pos 0])], false))
      by (vm_compute; reflexivity).
    assert (H2 : tighten_iteration interval interval (letters interval)
                   (images [(Pos 0, [Neg 0]); (Neg 0, [Pos 0])])
                 = Ok (edge_map interval_map, false))
      by (vm_compute; reflexivity).
    induction fuel as [|n [IH1 IH2]]; [done|].
    cbn [tighten_loop]. rewrite H1, H2. simpl. done. }
  unfold tighten.
  replace (image_dict interval_map (letters (domain interval_map)))
    with (Ok (edge_map interval_map)) by (vm_compute; reflexivity).
  rewrite bind_Ok_l. simpl domain. by rewrite (proj1 H).
Qed.

(** Where every vertex has valence at least three, a turn of the loop
    can also lengthen the images (from 6 to 8 here), and the loop does not
    terminate either. *)
Lemma tighten_iteration_lengthens :
  tighten_iteration tripod tripod (letters tripod) tripod_images
  = Ok (tripod_images_next, false)
  ∧ tighten_iteration tripod tripod (letters tripod) tripod_images_next
    = Ok (tripod_images, false)
  ∧ total_length (letters tripod) tripod_images = 6
  ∧ total_length (letters tripod) tripod_images_next = 8.
Proof. repeat split; vm_compute; reflexivity. Qed.

Lemma tighten_loops_forever_tripod (fuel : nat) : tighten fuel tripod_map = OutOfFuel.
Proof.
  assert (H : tighten_loop fuel tripod tripod (letters tripod) tripod_images = OutOfFuel
              ∧ tighten_loop fuel tripod tripod (letters tripod) tripod_images_next
                = OutOfFuel).
  { destruct tighten_iteration_lengthens as (H1 & H2 & _).
    induction fuel as [|n [IH1 IH2]]; [done|].
    cbn [tighten_loop]. rewrite H1, H2. simpl. done. }
  unfold tighten.
  replace (image_dict tripod_map (letters (domain tripod_map)))
    with (Ok tripod_images) by (vm_compute; reflexivity).
  rewrite bind_Ok_l. simpl domain. by rewrite (proj1 H).
Qed.

(** ** The loop of [tighten]: the fixed point *)

Lemma letters_inverse_closed (G : GraphWithInverses) (a : letter) :
  a ∈ letters G → inverse_letter a ∈ letters G.
Proof.
  unfold letters, positive_letters, negative_letters.
  rewrite !elem_of_app, !list_elem_of_fmap.
  intros [(i & -> & Hi)|(i & -> & Hi)]; simpl; [right|left]; by exists i.
Qed.

Lemma consistent_insert_pair (m : gmap letter word) (a : letter) (w : word) :
  consistent m → reduced w = true →
  consistent (<[inverse_letter a := reverse_word w]> (<[a := w]> m)).
Proof.
  intros Hm Hw. pose proof (store_image_consistent (mkGraph [] [] ∅ ∅) m (a, w) Hm) as H.
  unfold store_image, reduce_path, reverse_path in H. simpl in H.
  by rewrite (reduce_word_reduced w Hw) in H.
Qed.

(** The dictionary of the images of the letters of [A1]. *)
Lemma image_dict_steps_lookup (f : GraphMap) (l : list letter) (d0 d : gmap letter word) :
  for_each (λ d a, u ← image f a; Ok (<[a := u]> d)) d0 l = Ok d →
  ∀ b, d !! b = if decide (b ∈ l) then edge_map f !! b else d0 !! b.
Proof.
  revert d0. induction l as [|a l IH]; intros d0 Hrun b.
  - simpl in Hrun. simplify_eq. rewrite decide_False; [done|]. apply not_elem_of_nil.
  - cbn [for_each] in Hrun. apply bind_Ok in Hrun as (d1 & Hstep & Hrun).
    apply bind_Ok in Hstep as (u & Hu & Hstep). apply image_Ok in Hu. simplify_eq.
    rewrite (IH _ Hrun b). destruct (decide (b ∈ l)) as [Hb|Hb].
    + rewrite decide_True; [done|]. by right.
    + destruct (decide (b = a)) as [->|Hba].
      * rewrite lookup_insert_eq, decide_True; [done|]. by left.
      * rewrite lookup_insert_ne by done. rewrite decide_False; [done|].
        rewrite not_elem_of_cons. done.
Qed.

Lemma image_dict_steps_total (f : GraphMap) (l : list letter) (d0 : gmap letter word) :
  (∀ a, a ∈ l → is_Some (edge_map f !! a)) →
  ∃ d, for_each (λ d a, u ← image f a; Ok (<[a := u]> d)) d0 l = Ok d.
Proof.
  revert d0. induction l as [|a l IH]; intros d0 Hl; [by eexists|].
  destruct (Hl a) as [u Hu]; [by left|]. cbn [for_each].
  rewrite (proj2 (image_Ok f a u) Hu), !bind_Ok_l.
  apply IH. intros b Hb. apply Hl. by right.
Qed.

Lemma image_dict_steps_defined (f : GraphMap) (l : list letter) (d0 d : gmap letter word) :
  for_each (λ d a, u ← image f a; Ok (<[a := u]> d)) d0 l = Ok d →
  ∀ a, a ∈ l → is_Some (edge_map f !! a).
Proof.
  revert d0. induction l as [|b l IH]; intros d0 Hd a Ha.
  - by apply elem_of_nil in Ha.
  - cbn [for_each] in Hd. apply bind_Ok in Hd as (d1 & Hstep & Hd).
    apply bind_Ok in Hstep as (u & Hu & _). apply image_Ok in Hu.
    apply elem_of_cons in Ha as [->|Ha]; [by eexists|]. by eapply IH.
Qed.

Lemma image_dict_eq (f : GraphMap) (A1 : list letter) (em : gmap letter word) :
  (∀ a, a ∈ A1 ↔ is_Some (em !! a)) →
  (∀ a, a ∈ A1 → edge_map f !! a = em !! a) →
  image_dict f A1 = Ok em.
Proof.
  intros Hdom Heq. unfold image_dict.
  destruct (image_dict_steps_total f A1 ∅) as [d Hd].
  { intros a Ha. rewrite (Heq a Ha). by apply Hdom. }
  rewrite Hd. f_equal. apply map_eq. intros b.
  rewrite (image_dict_steps_lookup _ _ _ _ Hd b).
  destruct (decide (b ∈ A1)) as [Hb|Hb]; [by apply Heq|].
  rewrite lookup_empty. symmetry. apply eq_None_not_Some. by rewrite <- Hdom.
Qed.

Lemma image_dict_invariant (f : GraphMap) (em : gmap letter word) :
  inverse_consistent f →
  image_dict f (letters (domain f)) = Ok em →
  loop_invariant (letters (domain f)) em.
Proof.
  intros Hf Hd. pose proof (image_dict_steps_lookup _ _ _ _ Hd) as Hlook.
  pose proof (image_dict_steps_defined _ _ _ _ Hd) as Hall.
  split.
  - intros a w Ha. rewrite Hlook in Ha.
    destruct (decide (a ∈ letters (domain f))) as [Hin|]; [|by rewrite lookup_empty in Ha].
    destruct (Hf a w Ha) as (Hinv & Hr & Hr'). split; [|done].
    rewrite Hlook. rewrite decide_True; [done|]. by apply letters_inverse_closed.
  - intros a. rewrite Hlook. destruct (decide (a ∈ letters (domain f))) as [Hin|Hin].
    + split; [intros _; by apply Hall|done].
    + rewrite lookup_empty. split; [done|]. by intros [? ?].
Qed.

(** The first inner loop only stores pieces of images. *)
Lemma prefix_pass_reduced (G1 G2 : GraphWithInverses) (em : gmap letter word)
  (l : list letter) (prefix0 prefix : gmap vertex word) :
  (∀ a w, em !! a = Some w → reduced w = true) →
  (∀ v w, prefix0 !! v = Some w → reduced w = true) →
  for_each (prefix_step G1 G2 em) prefix0 l = Ok prefix →
  ∀ v w, prefix !! v = Some w → reduced w = true.
Proof.
  intros Hem H0 Hrun.
  eapply (for_each_invariant
            (λ p : gmap vertex word, ∀ v w, p !! v = Some w → reduced w = true));
    [|exact H0|exact Hrun].
  simpl. intros s x s' _ Hs Hstep.
  unfold prefix_step, initial_vertex in Hstep.
  apply bind_Ok in Hstep as (u & Hu & Hstep). apply getitem_Ok in Hu.
  apply bind_Ok in Hstep as (va & Hva & Hstep).
  destruct u as [|y u]; [by simplify_eq|].
  destruct (s !! va) as [[|z q]|] eqn:Hq; simplify_eq; intros v w; try apply Hs.
  - rewrite lookup_insert. case_decide; [|apply Hs].
    intros [= <-]. apply reduced_take. by eapply Hs.
  - rewrite lookup_insert. case_decide; [|apply Hs].
    intros [= <-]. by eapply Hem.
Qed.

(** If the nonempty images of the letters going out of [v] all begin
    with [c], and there is one, the first inner loop leaves at [v] a
    prefix that begins with [c]. *)
Lemma prefix_pass_first_letter (G1 G2 : GraphWithInverses) (em : gmap letter word)
  (l : list letter) (prefix0 prefix : gmap vertex word) (v : vertex) (c : letter) :
  for_each (prefix_step G1 G2 em) prefix0 l = Ok prefix →
  (∀ a w, a ∈ l → initial G1 !! a = Some v → em !! a = Some w → w ≠ [] →
          head w = Some c) →
  (∃ q, prefix0 !! v = Some (c :: q))
  ∨ (prefix0 !! v = None
     ∧ ∃ a w, a ∈ l ∧ initial G1 !! a = Some v ∧ em !! a = Some (c :: w)) →
  ∃ q, prefix !! v = Some (c :: q).
Proof.
  revert prefix0. induction l as [|a l IH]; intros prefix0 Hrun Hall Hstart.
  - simpl in Hrun. simplify_eq.
    destruct Hstart as [?|(_ & a & w & Ha & _)]; [done|]. by apply elem_of_nil in Ha.
  - cbn [for_each] in Hrun. apply bind_Ok in Hrun as (prefix1 & Hstep & Hrun).
    apply (IH prefix1 Hrun).
    { intros b w Hb. apply Hall. by right. }
    unfold prefix_step, initial_vertex in Hstep.
    apply bind_Ok in Hstep as (u & Hu & Hstep). apply getitem_Ok in Hu.
    apply bind_Ok in Hstep as (va & Hva & Hstep). apply getitem_Ok in Hva.
    assert (Hrest : ∀ b w, b ∈ a :: l → initial G1 !! b = Some v →
                           em !! b = Some (c :: w) → b ≠ a →
                           ∃ b w, b ∈ l ∧ initial G1 !! b = Some v ∧ em !! b = Some (c :: w)).
    { intros b w Hb Hbv Hbw Hne. apply elem_of_cons in Hb as [?|Hb]; [done|]. eauto. }
    destruct (decide (va = v)) as [->|Hne].
    + assert (Hhead : u ≠ [] → head u = Some c).
      { apply (Hall a u); [by left|done|done]. }
      destruct u as [|x u].
      * simplify_eq. destruct Hstart as [?|(Hn & b & w & Hb & Hbv & Hbw)]; [by left|].
        right. split; [done|]. eapply Hrest; [done..|]. intros ->. congruence.
      * specialize (Hhead ltac:(done)). simpl in Hhead. simplify_eq.
        destruct (prefix0 !! v) as [[|z q]|] eqn:Hq; simplify_eq.
        -- destruct Hstart as [[? ?]|[? _]]; done.
        -- destruct Hstart as [[q' Hq']|[? _]]; [|done]. simplify_eq.
           left. rewrite lookup_insert_eq. unfold common_prefix_length. simpl.
           rewrite decide_True by done. simpl. by eexists.
        -- left. rewrite lookup_insert_eq. by eexists.
    + assert (Hother : prefix1 !! v = prefix0 !! v).
      { destruct u as [|x u]; [by simplify_eq|].
        destruct (prefix0 !! va) as [[|z q]|]; simplify_eq; try done;
          by rewrite lookup_insert_ne. }
      rewrite Hother. destruct Hstart as [?|(Hn & b & w & Hb & Hbv & Hbw)]; [by left|].
      right. split; [done|]. eapply Hrest; [done..|]. intros ->. congruence.
Qed.

(** The flag [done] is only ever reset. *)
Lemma strip_pass_not_done (G1 G2 : GraphWithInverses) (prefix : gmap vertex word)
  (l : list letter) (em em' : gmap letter word) (done' : bool) :
  for_each (strip_step G1 G2 prefix) (em, false) l = Ok (em', done') → done' = false.
Proof.
  revert em. induction l as [|a l IH]; intros em Hrun.
  - simpl in Hrun. by simplify_eq.
  - cbn [for_each] in Hrun. apply bind_Ok in Hrun as ([em1 done1] & Hstep & Hrun).
    apply strip_step_cases in Hstep
      as [(-> & -> & _)|[(? & ? & ? & ? & ? & ? & ? & ? & ? & ? & ? & ->)
                        |(? & ? & ? & ? & ? & ? & ? & ->)]]; by eapply IH.
Qed.

(** A run of the second inner loop that ends with [done] set has changed
    nothing, and has found no nonempty prefix at the initial vertex of any
    letter. *)
Lemma strip_pass_done (G1 G2 : GraphWithInverses) (prefix : gmap vertex word)
  (l : list letter) (em em' : gmap letter word) (done : bool) :
  for_each (strip_step G1 G2 prefix) (em, done) l = Ok (em', true) →
  em' = em
  ∧ ∀ a, a ∈ l → ∃ v, initial G1 !! a = Some v
                      ∧ (prefix !! v = None ∨ prefix !! v = Some []).
Proof.
  revert em done. induction l as [|a l IH]; intros em done Hrun.
  - simpl in Hrun. simplify_eq. split; [done|]. intros a Ha. by apply elem_of_nil in Ha.
  - cbn [for_each] in Hrun. apply bind_Ok in Hrun as ([em1 done1] & Hstep & Hrun).
    apply strip_step_cases in Hstep
      as [(-> & -> & Hskip)|[(? & ? & ? & ? & ? & ? & ? & ? & ? & ? & ? & ->)
                            |(? & ? & ? & ? & ? & ? & ? & ->)]].
    + destruct (IH _ _ Hrun) as [-> Hl]. split; [done|].
      intros b Hb. apply elem_of_cons in Hb as [->|Hb]; [done|]. by apply Hl.
    + by apply strip_pass_not_done in Hrun.
    + by apply strip_pass_not_done in Hrun.
Qed.

Lemma strip_step_invariant (G1 G2 : GraphWithInverses) (prefix : gmap vertex word)
  (A1 : list letter) (em em' : gmap letter word) (done done' : bool) (a : letter) :
  (∀ b, b ∈ A1 → inverse_letter b ∈ A1) →
  (∀ v w, prefix !! v = Some w → reduced w = true) →
  a ∈ A1 → loop_invariant A1 em →
  strip_step G1 G2 prefix (em, done) a = Ok (em', done') →
  loop_invariant A1 em'.
Proof.
  intros Hcl Hp Ha [Hc Hdom] Hstep.
  assert (Hins : ∀ w, reduced w = true →
            loop_invariant A1 (<[inverse_letter a := reverse_word w]> (<[a := w]> em))).
  { intros w Hw. split; [by apply consistent_insert_pair|].
    intros b. rewrite !lookup_insert_is_Some', <- Hdom. split; [tauto|].
    intros [<-|[<-|?]]; auto. }
  apply strip_step_cases in Hstep
    as [(-> & -> & _)
       |[(v & pv & ua & uaa & Hv & Hpv & _ & Hua & _ & Huaa & -> & _)
        |(v & pv & Hv & Hpv & _ & Hua & -> & _)]].
  - done.
  - destruct (Hc a ua Hua) as (Hinv & Hr & _). rewrite Hinv in Huaa. simplify_eq.
    rewrite <- reverse_word_drop. apply Hins. by apply reduced_drop.
  - rewrite <- (reverse_word_involutive pv) at 1. apply Hins.
    apply reduced_reverse_word. by eapply Hp.
Qed.

Lemma tighten_iteration_invariant (G1 G2 : GraphWithInverses) (A1 : list letter)
  (em em' : gmap letter word) (done' : bool) :
  (∀ b, b ∈ A1 → inverse_letter b ∈ A1) →
  loop_invariant A1 em →
  tighten_iteration G1 G2 A1 em = Ok (em', done') →
  loop_invariant A1 em'.
Proof.
  intros Hcl Hinv Hrun. unfold tighten_iteration in Hrun.
  apply bind_Ok in Hrun as (prefix & Hp & Hrun).
  assert (Hred : ∀ v w, prefix !! v = Some w → reduced w = true).
  { eapply prefix_pass_reduced; [| |exact Hp].
    - intros a w Hw. by destruct (proj1 Hinv a w Hw) as (_ & ? & _).
    - intros v w. by rewrite lookup_empty. }
  refine (for_each_invariant (λ st : gmap letter word * bool, loop_invariant A1 st.1)
            _ _ _ (em, true) (em', done') Hinv Hrun).
  intros [e1 d1] x [e2 d2] Hx Hs Hstep. simpl in *.
  by eapply strip_step_invariant.
Qed.

(** When the loop of [tighten] returns, one more turn changes nothing. *)
Lemma tighten_loop_fixpoint (fuel : nat) (G1 G2 : GraphWithInverses) (A1 : list letter)
  (em0 em : gmap letter word) :
  (∀ b, b ∈ A1 → inverse_letter b ∈ A1) →
  loop_invariant A1 em0 →
  tighten_loop fuel G1 G2 A1 em0 = Ok em →
  loop_invariant A1 em ∧ tighten_iteration G1 G2 A1 em = Ok (em, true).
Proof.
  intros Hcl. revert em0. induction fuel as [|n IH]; intros em0 Hinv Hrun; [done|].
  cbn [tighten_loop] in Hrun. apply bind_Ok in Hrun as ([em1 done1] & Hit & Hrun).
  destruct done1.
  - simplify_eq. pose proof Hit as Hit'. unfold tighten_iteration in Hit'.
    apply bind_Ok in Hit' as (prefix & _ & Hstrip).
    apply strip_pass_done in Hstrip as [-> _]. done.
  - apply (IH em1); [|done]. by eapply tighten_iteration_invariant.
Qed.

(** [set_edge_map] stores an inverse-consistent dictionary as it is. *)
Lemma foldl_store_image_consistent_lookup (cod : GraphWithInverses)
  (em : gmap letter word) (l : list (letter * word)) (m : gmap letter word) (b : letter) :
  consistent em →
  (∀ a w, (a, w) ∈ l → em !! a = Some w) →
  foldl (store_image cod) m l !! b
  = if decide (b ∈ l.*1 ∨ inverse_letter b ∈ l.*1) then em !! b else m !! b.
Proof.
  intros Hc. revert m. induction l as [|[a u] l IH]; intros m Hl.
  - case_decide as H; [|done]. exfalso. destruct H as [H|H]; by apply elem_of_nil in H.
  - cbn [foldl]. rewrite IH by (intros ? ? ?; apply Hl; by right).
    assert (Hu : em !! a = Some u) by (apply Hl; by left).
    destruct (Hc a u Hu) as (Hinv & Hr & _).
    unfold store_image, reduce_path, reverse_path. simpl.
    rewrite (reduce_word_reduced u Hr).
    change (((a, u) :: l).*1) with (a :: l.*1).
    destruct (decide (b ∈ l.*1 ∨ inverse_letter b ∈ l.*1)) as [Hin|Hin].
    + rewrite decide_True; [done|]. destruct Hin; [left|right]; by right.
    + destruct (decide (b = inverse_letter a)) as [->|Hb1].
      * rewrite lookup_insert_eq, decide_True; [done|].
        right. rewrite inverse_letter_involutive. by left.
      * rewrite lookup_insert_ne by done.
        destruct (decide (b = a)) as [->|Hb2].
        -- rewrite lookup_insert_eq, decide_True; [done|]. left. by left.
        -- rewrite lookup_insert_ne by done. rewrite decide_False; [done|].
           intros [H|H]; apply elem_of_cons in H as [H|H]; try tauto.
           apply Hb1. by apply inverse_letter_swap.
Qed.

Lemma set_edge_map_consistent_id (f f' : GraphMap) (em : gmap letter word) :
  consistent em → set_edge_map f em = Ok f' → edge_map f' = em.
Proof.
  intros Hc [= <-]. simpl. apply map_eq. intros b.
  rewrite (foldl_store_image_consistent_lookup _ em).
  - rewrite lookup_empty. case_decide as Hin; [done|]. symmetry.
    apply eq_None_not_Some. intros [w Hw]. apply Hin. left.
    apply list_elem_of_fmap. exists (b, w). split; [done|]. by apply elem_of_map_to_list.
  - done.
  - intros a w Ha. by apply elem_of_map_to_list.
Qed.

(** C4.  After [tighten] has returned, on a map that satisfied the
    invariant of the edge map, no vertex of the domain has a nonempty
    common prefix left to strip, and running [tighten] again, on any
    positive fuel, returns the very same object: the edge map is
    unchanged. *)
Theorem tighten_idempotent (fuel : nat) (f f' : GraphMap) :
  inverse_consistent f →
  tighten fuel f = Ok f' →
  (∀ v, ¬ strippable f' v) ∧ (∀ k, tighten (S k) f' = Ok f').
Proof.
  intros Hf Hrun. unfold tighten in Hrun.
  apply bind_Ok in Hrun as (em0 & Hdict & Hrun).
  apply bind_Ok in Hrun as (em & Hloop & Hset).
  pose proof (image_dict_invariant f em0 Hf Hdict) as Hinv0.
  destruct (tighten_loop_fixpoint _ _ _ _ _ _ (letters_inverse_closed (domain f)) Hinv0 Hloop)
    as [[Hc Hdom] Hfix].
  pose proof (set_edge_map_consistent_id f f' em Hc Hset) as Hem. subst em.
  destruct (set_edge_map_frame f f' _ Hset) as (Hd & Hcod & Hvm).
  split.
  - intros v (c & (a & Ha & Hav & Hac) & Hall).
    rewrite Hd in Ha, Hav, Hall. unfold first_of in Hac.
    unfold tighten_iteration in Hfix.
    apply bind_Ok in Hfix as (prefix & Hp & Hstrip).
    apply strip_pass_done in Hstrip as [_ Hskip].
    destruct (Hskip a Ha) as (v' & Hv' & Hnone).
    rewrite Hav in Hv'. injection Hv' as <-.
    destruct (edge_map f' !! a) as [[|x w]|] eqn:Hw; simpl in Hac; simplify_eq.
    destruct (prefix_pass_first_letter _ _ _ _ _ _ v c Hp) as [q Hq].
    + intros b u Hb. by apply Hall.
    + right. split; [apply lookup_empty|]. eauto 10.
    + destruct Hnone; congruence.
  - intros k. unfold tighten. rewrite Hd.
    rewrite (image_dict_eq f' (letters (domain f)) (edge_map f')) by done.
    rewrite bind_Ok_l. cbn [tighten_loop]. rewrite Hfix. simpl.
    revert Hset. unfold set_edge_map. rewrite Hd, Hcod. done.
Qed.

Lemma tighten_idempotent_witness :
  inverse_consistent conjugate_map
  ∧ tighten 3 conjugate_map = Ok conjugate_map_tight
  ∧ (∀ v, ¬ strippable conjugate_map_tight v)
  ∧ tighten 1 conjugate_map_tight = Ok conjugate_map_tight.
Proof.
  assert (Hc : inverse_consistent conjugate_map).
  { apply (init_consistent (rose 1) (rose 2) {[ Pos 0 := [Pos 0; Pos 1; Neg 0] ]} None).
    vm_compute. reflexivity. }
  assert (Hrun : tighten 3 conjugate_map = Ok conjugate_map_tight).
  { vm_compute. reflexivity. }
  split; [exact Hc|]. split; [exact Hrun|].
  destruct (tighten_idempotent 3 conjugate_map conjugate_map_tight Hc Hrun) as [H1 H2].
  split; [exact H1|exact (H2 0)].
Defined.

(** ** Subdivision *)

Lemma next_index_above (l : list nat) (i : nat) : i ∈ l → i < next_index l.
Proof.
  unfold next_index. induction l as [|j l IH]; intros Hi.
  - by apply elem_of_nil in Hi.
  - simpl. apply elem_of_cons in Hi as [->|Hi]; [lia|]. specialize (IH Hi). lia.
Qed.

Lemma next_index_fresh (l : list nat) : next_index l ∉ l.
Proof. intros H. apply next_index_above in H. lia. Qed.

Lemma add_vertex_in (v : vertex) (vs : list vertex) : v ∈ vs → add_vertex v vs = vs.
Proof. intros H. unfold add_vertex. by rewrite decide_True. Qed.

Lemma add_vertex_notin (v : vertex) (vs : list vertex) :
  v ∉ vs → add_vertex v vs = vs ++ [v].
Proof. intros H. unfold add_vertex. by rewrite decide_False. Qed.

(** The dictionary [result_map] starts with [a ↦ [a]] on every letter. *)
Lemma identity_dict_lookup (l : list letter) (a : letter) :
  a ∈ l →
  (list_to_map ((λ a, (a, [a])) <$> l) : gmap letter word) !! a = Some [a].
Proof.
  induction l as [|b l IH]; intros Ha.
  - by apply elem_of_nil in Ha.
  - rewrite fmap_cons. cbn [list_to_map foldr fst snd].
    destruct (decide (a = b)) as [->|Hab].
    + apply lookup_insert_eq.
    + rewrite lookup_insert_ne by done.
      apply elem_of_cons in Ha as [?|Ha]; [done|]. by apply IH.
Qed.

(** A [for] loop whose body returns and keeps an invariant returns. *)
Lemma for_each_total {S X : Type} (P : S → Prop) (body : S → X → result S)
  (l : list X) :
  (∀ s x, x ∈ l → P s → ∃ s', body s x = Ok s' ∧ P s') →
  ∀ s, P s → ∃ s', for_each body s l = Ok s' ∧ P s'.
Proof.
  induction l as [|x l IH]; intros Hstep s Hs; [by exists s|].
  destruct (Hstep s x) as (s1 & H1 & Hs1); [by left|done|].
  destruct (IH (λ s y Hy, Hstep s y (list_elem_of_further _ _ _ Hy)) s1 Hs1)
    as (s' & Hrun & Hs').
  exists s'. split; [|done]. cbn [for_each]. by rewrite H1.
Qed.

(** A key of the specification keeps its own image through
    [set_edge_map] when no later key, and no key's inverse, shadows it. *)
Lemma foldl_store_image_untouched (cod : GraphWithInverses) (l : list (letter * word))
  (m : gmap letter word) (a : letter) :
  a ∉ l.*1 → inverse_letter a ∉ l.*1 →
  foldl (store_image cod) m l !! a = m !! a.
Proof.
  revert m. induction l as [|[b w] l IH]; intros m Ha Hia; [done|].
  change (((b, w) :: l).*1) with (b :: l.*1) in Ha, Hia.
  apply not_elem_of_cons in Ha as [Hab Ha]. apply not_elem_of_cons in Hia as [Hiab Hia].
  cbn [foldl]. rewrite IH by done. unfold store_image. simpl.
  rewrite !lookup_insert_ne; [done|congruence|].
  intros Heq. apply Hiab. by rewrite <- Heq, inverse_letter_involutive.
Qed.

Lemma foldl_store_image_key (cod : GraphWithInverses) (l : list (letter * word))
  (m : gmap letter word) (a : letter) (u : word) :
  NoDup l.*1 → (a, u) ∈ l → inverse_letter a ∉ l.*1 →
  foldl (store_image cod) m l !! a = Some (reduce_word u).
Proof.
  revert m. induction l as [|[b w] l IH]; intros m Hnd Hin Hia.
  - by apply elem_of_nil in Hin.
  - change (((b, w) :: l).*1) with (b :: l.*1) in Hnd, Hia.
    apply NoDup_cons in Hnd as [Hb Hnd]. apply not_elem_of_cons in Hia as [Hiab Hia].
    cbn [foldl]. apply elem_of_cons in Hin as [Heq|Hin].
    + simplify_eq. rewrite foldl_store_image_untouched by done.
      unfold store_image, reduce_path. simpl.
      rewrite lookup_insert_ne by apply inverse_letter_ne. apply lookup_insert_eq.
    + by apply IH.
Qed.

Lemma set_edge_map_positive_keys (g g' : GraphMap) (d : gmap letter word)
  (i : nat) (w : word) :
  (∀ a, is_Some (d !! a) → ∃ j, a = Pos j) →
  set_edge_map g d = Ok g' →
  d !! Pos i = Some w →
  edge_map g' !! Pos i = Some (reduce_word w).
Proof.
  intros Hpos [= <-] Hw. simpl. apply foldl_store_image_key.
  - apply NoDup_fst_map_to_list.
  - by apply elem_of_map_to_list.
  - intros Hin. apply list_elem_of_fmap in Hin as ([a u] & Ha & Hin). simpl in Ha.
    apply elem_of_map_to_list in Hin. destruct (Hpos a) as [j ->]; [by eexists|]. done.
Qed.

(** The loop of [subdivide_domain] that copies the old images, for one
    new edge [Pos n]: it keeps the two entries already set and only adds
    images of positive letters. *)
Lemma keep_image_steps (f : GraphMap) (k n : nat) (c d : letter) (l : list letter)
  (d0 : gmap letter word) :
  k ≠ n →
  (∀ a, a ∈ l → a = Pos n ∨ (a ∈ positive_letters (domain f))) →
  (∀ a, a ∈ positive_letters (domain f) → is_Some (edge_map f !! a)) →
  Pos n ∉ positive_letters (domain f) →
  d0 !! Pos k = Some [c] → d0 !! Pos n = Some [d] →
  (∀ a, is_Some (d0 !! a) → ∃ j, a = Pos j) →
  ∃ d1, for_each (keep_image_step f (Pos k) [(Pos n, Neg n)]) d0 l = Ok d1
        ∧ d1 !! Pos k = Some [c] ∧ d1 !! Pos n = Some [d]
        ∧ ∀ a, is_Some (d1 !! a) → ∃ j, a = Pos j.
Proof.
  intros Hkn Hl Himg Hn Hk0 Hn0 Hpos0.
  apply (for_each_total
           (λ dd : gmap letter word,
              dd !! Pos k = Some [c] ∧ dd !! Pos n = Some [d]
              ∧ ∀ a, is_Some (dd !! a) → ∃ j, a = Pos j)); [|done].
  intros dd a Ha (Hk1 & Hn1 & Hpos1). unfold keep_image_step.
  rewrite filter_cons, filter_nil. cbn [fst snd].
  destruct (decide (a = Pos n ∨ a = Neg n)) as [Hnew|Hold]; cbn [length].
  { rewrite decide_False by done. by exists dd. }
  rewrite decide_True by done.
  destruct (decide (a ≠ Pos k)) as [Hak|Hak]; [|by exists dd].
  destruct (Hl a Ha) as [->|Hin]; [tauto|].
  destruct (Himg a Hin) as [u Hu].
  rewrite (proj2 (image_Ok f a u) Hu), bind_Ok_l. eexists. split; [done|].
  apply list_elem_of_fmap in Hin as (j & -> & Hj).
  rewrite !lookup_insert_ne by naive_solver. split; [done|]. split; [done|].
  intros b. rewrite lookup_insert_is_Some'. intros [<-|Hb]; eauto.
Qed.

(** C9.  Let [e = Pos k] be an edge of the domain from [v1] to [v2] whose
    stored image is the path [c d].  [subdivide_domain] returns; it adds
    exactly one vertex [v'] and one pair of letters [Pos n], [Neg n] to
    the domain; afterwards [e] runs from [v1] to [v'] with image [c], the
    new edge [Pos n] runs from [v'] to [v2] with image [d], and the path
    [e · Pos n], which [result_map] records for [e], still has image
    [c d]. *)
Theorem subdivide_edge_of_length_two (f : GraphMap) (k : nat) (c d : letter)
  (v1 v2 : vertex) :
  inverse_consistent f →
  k ∈ alphabet (domain f) →
  initial (domain f) !! Pos k = Some v1 →
  terminal (domain f) !! Pos k = Some v2 →
  v2 ∈ vertices (domain f) →
  edge_map f !! Pos k = Some [c; d] →
  (∀ a, a ∈ positive_letters (domain f) → is_Some (edge_map f !! a)) →
  ∃ f' result_map v' n,
    subdivide_domain f (Pos k) = Ok (f', result_map)
    ∧ (v' ∉ vertices (domain f))
    ∧ vertices (domain f') = vertices (domain f) ++ [v']
    ∧ (n ∉ alphabet (domain f))
    ∧ alphabet (domain f') = alphabet (domain f) ++ [n]
    ∧ initial (domain f') !! Pos k = Some v1
    ∧ terminal (domain f') !! Pos k = Some v'
    ∧ initial (domain f') !! Pos n = Some v'
    ∧ terminal (domain f') !! Pos n = Some v2
    ∧ initial (domain f') !! Neg n = Some v2
    ∧ terminal (domain f') !! Neg n = Some v'
    ∧ edge_map f' !! Pos k = Some [c]
    ∧ edge_map f' !! Pos n = Some [d]
    ∧ result_map !! Pos k = Some [Pos k; Pos n]
    ∧ apply_path f' [Pos k; Pos n] = Ok [c; d].
Proof.
  intros Hf Hk Hv1 Hv2 Hv2in Himg Hall.
  set (n := next_index (alphabet (domain f))).
  set (v' := next_index (vertices (domain f))).
  assert (Hn : n ∉ alphabet (domain f)) by apply next_index_fresh.
  assert (Hv' : v' ∉ vertices (domain f)) by apply next_index_fresh.
  assert (Hkn : k ≠ n) by (intros ->; done).
  assert (Hcd : d ≠ inverse_letter c).
  { destruct (Hf _ _ Himg) as (_ & Hr & _). by apply reduced_cons2_true in Hr as [? _]. }
  set (G' := add_edge (set_terminal_vertex
                         (mkGraph (vertices (domain f)) (alphabet (domain f) ++ [n])
                                  (initial (domain f)) (terminal (domain f)))
                         (Pos k) v') v' v2 (Pos n) (Neg n)).
  destruct (keep_image_steps f k n c d (positive_letters G')
              (<[Pos k := [c]]> (<[Pos n := [d]]> ∅)))
    as (d1 & Hd1 & Hd1k & Hd1n & Hd1pos); try done.
  { intros a Ha. unfold positive_letters in Ha |- *. simpl in Ha.
    rewrite fmap_app, elem_of_app in Ha. destruct Ha as [?|Ha]; [by right|left].
    by apply list_elem_of_singleton in Ha. }
  { unfold positive_letters. rewrite list_elem_of_fmap. intros (j & [= <-] & ?). done. }
  { apply lookup_insert_eq. }
  { rewrite lookup_insert_ne by congruence. apply lookup_insert_eq. }
  { intros a. rewrite !lookup_insert_is_Some', lookup_empty.
    intros [<-|[<-|[? ?]]]; eauto; done. }
  destruct (set_edge_map_total (mkGraphMap G' (codomain f) (edge_map f) (vertex_map f)) d1)
    as [f' Hset].
  pose proof (set_edge_map_positive_keys _ _ _ k _ Hd1pos Hset Hd1k) as Hek.
  pose proof (set_edge_map_positive_keys _ _ _ n _ Hd1pos Hset Hd1n) as Hen.
  destruct (set_edge_map_frame _ _ _ Hset) as (Hdom & _ & _). simpl in Hdom, Hek, Hen.
  assert (Hrm : ∀ a, a ∈ letters (domain f) →
            (list_to_map ((λ a, (a, [a])) <$> letters (domain f)) : gmap letter word) !! a
            = Some [a]) by apply identity_dict_lookup.
  assert (Hke : Pos k ∈ letters (domain f)).
  { unfold letters, positive_letters. apply elem_of_app. left. by apply list_elem_of_fmap_2. }
  exists f', (<[Neg k := [Neg n; Neg k]]>
               (<[Pos k := [Pos k; Pos n]]>
                  (list_to_map ((λ a, (a, [a])) <$> letters (domain f))))), v', n.
  split.
  { unfold subdivide_domain.
    rewrite (proj2 (image_Ok f (Pos k) [c; d]) Himg), bind_Ok_l.
    change (Z.of_nat (length [c; d]) - 1)%Z with 1%Z. cbv zeta.
    unfold add_new_letters, new_letters, new_vertices, enumerate.
    change (Z.to_nat 1) with 1.
    cbn [length Nat.sub seq fmap list_fmap zip zip_with vertices alphabet for_each].
    fold n. fold v'. unfold subdivide_step at 1.
    cbn [getindex lookup list_lookup]. rewrite !bind_Ok_l.
    unfold initial_vertex, terminal_vertex. cbn [initial terminal].
    rewrite (proj2 (getitem_Ok _ _ _) Hv1), (proj2 (getitem_Ok _ _ _) Hv2), !bind_Ok_l.
    cbn [fst snd inverse_letter].
    rewrite (proj2 (getitem_Ok _ _ _) (Hrm _ Hke)), bind_Ok_l.
    assert (Hree : (<[Pos k := [Pos k; Pos n]]>
                      (list_to_map ((λ a, (a, [a])) <$> letters (domain f))
                       : gmap letter word)) !! Neg k = Some [Neg k]).
    { rewrite lookup_insert_ne by done. apply Hrm.
      by apply (letters_inverse_closed _ (Pos k)). }
    simpl app. rewrite (proj2 (getitem_Ok _ _ _) Hree), bind_Ok_l.
    unfold nth_letter. cbn [lookup list_lookup]. rewrite !bind_Ok_l.
    cbn [first_letter]. rewrite bind_Ok_l.
    fold G'. rewrite Hd1, bind_Ok_l. rewrite Hset. done. }
  rewrite Hdom.
  assert (Hvs : vertices G' = vertices (domain f) ++ [v']).
  { unfold G', add_edge, set_terminal_vertex. cbn [vertices].
    rewrite (add_vertex_notin v' _ Hv').
    rewrite (add_vertex_in v') by (apply elem_of_app; right; by left).
    apply add_vertex_in. apply elem_of_app. by left. }
  repeat split; try done.
  all: try (unfold G'; cbn [initial terminal add_edge set_terminal_vertex inverse_letter];
            rewrite ?lookup_insert_ne by congruence;
            first [apply lookup_insert_eq | done]).
  - unfold apply_path. cbn [WordMorphism.apply]. unfold WordMorphism.image.
    rewrite Hek, Hen. simpl. unfold reduce_path. simpl.
    by rewrite decide_False.
Qed.

Lemma subdivide_edge_of_length_two_witness :
  inverse_consistent long_edge_map
  ∧ subdivide_domain long_edge_map (Pos 0)
    = Ok (long_edge_map_subdivided,
          images [(Pos 0, [Pos 0; Pos 1]); (Neg 0, [Neg 1; Neg 0])])
  ∧ ∃ f' result_map v' n,
      subdivide_domain long_edge_map (Pos 0) = Ok (f', result_map)
      ∧ (v' ∉ vertices interval)
      ∧ vertices (domain f') = vertices interval ++ [v']
      ∧ alphabet (domain f') = alphabet interval ++ [n]
      ∧ terminal (domain f') !! Pos 0 = Some v'
      ∧ initial (domain f') !! Pos n = Some v'
      ∧ terminal (domain f') !! Pos n = Some 1
      ∧ edge_map f' !! Pos 0 = Some [Pos 0]
      ∧ edge_map f' !! Pos n = Some [Pos 1]
      ∧ apply_path f' [Pos 0; Pos n] = Ok [Pos 0; Pos 1].
Proof.
  assert (Hc : inverse_consistent long_edge_map).
  { apply (init_consistent interval (rose 2) {[ Pos 0 := [Pos 0; Pos 1] ]} None).
    vm_compute. reflexivity. }
  split; [exact Hc|]. split; [vm_compute; reflexivity|].
  destruct (subdivide_edge_of_length_two long_edge_map 0 (Pos 0) (Pos 1) 0 1 Hc)
    as (f' & rm & v' & n & H1 & H2 & H3 & H4 & H5 & H6 & H7 & H8 & H9 & H10 & H11
        & H12 & H13 & H14 & H15).
  - vm_compute. set_solver.
  - reflexivity.
  - reflexivity.
  - vm_compute. set_solver.
  - reflexivity.
  - intros a Ha. vm_compute in Ha. apply list_elem_of_singleton in Ha as ->.
    by eexists.
  - exists f', rm, v', n. auto 15.
Defined.

(** * Further properties of the methods *)

(** ** Reduction and reversal of paths *)

Lemma reduce_word_cons (a : letter) (w : word) :
  reduce_word (a :: w) = reduce_step a (reduce_word w).
Proof. done. Qed.

Lemma push_last_cons2 (b b' : letter) (r : word) (a : letter) :
  push_last (b :: b' :: r) a = b :: push_last (b' :: r) a.
Proof. done. Qed.

Lemma push_last_snoc (r : word) (y a : letter) :
  push_last (r ++ [y]) a = if decide (y = inverse_letter a) then r else r ++ [y; a].
Proof.
  induction r as [|b r IH]; [done|].
  destruct r as [|b' r].
  - simpl. by destruct (decide (y = inverse_letter a)).
  - simpl app in *. rewrite push_last_cons2, IH.
    by destruct (decide (y = inverse_letter a)).
Qed.

Lemma reduce_step_push_last (c a : letter) (r : word) :
  reduce_step c (push_last r a) = push_last (reduce_step c r) a.
Proof.
  destruct r as [|b [|b' r]].
  - simpl. destruct (decide (a = inverse_letter c)) as [->|Hac].
    + by rewrite decide_True by (by rewrite inverse_letter_involutive).
    + rewrite decide_False; [done|]. intros ->. by rewrite inverse_letter_involutive in Hac.
  - simpl. destruct (decide (b = inverse_letter a)) as [Hba|Hba],
      (decide (b = inverse_letter c)) as [Hbc|Hbc]; simpl.
    + f_equal. apply inverse_letter_inj. congruence.
    + by rewrite decide_True.
    + by rewrite decide_True.
    + rewrite (decide_False (P := b = inverse_letter c)) by done.
      by rewrite (decide_False (P := b = inverse_letter a)).
  - rewrite push_last_cons2. unfold reduce_step.
    destruct (decide (b = inverse_letter c)); [done|].
    by rewrite !push_last_cons2.
Qed.

Lemma reduce_word_snoc (w : word) (a : letter) :
  reduce_word (w ++ [a]) = push_last (reduce_word w) a.
Proof.
  induction w as [|c w IH]; [done|].
  change ((c :: w) ++ [a]) with (c :: (w ++ [a])).
  by rewrite !reduce_word_cons, IH, reduce_step_push_last.
Qed.

(** A path may be reduced piece by piece. *)
Lemma reduce_word_app_r (u v : word) :
  reduce_word (u ++ v) = reduce_word (u ++ reduce_word v).
Proof.
  induction u as [|a u IH]; simpl app.
  - by rewrite reduce_word_idempotent.
  - by rewrite !reduce_word_cons, IH.
Qed.

Lemma reduce_word_app_l (u v : word) :
  reduce_word (u ++ v) = reduce_word (reduce_word u ++ v).
Proof.
  induction v as [|a v IH] using rev_ind.
  - by rewrite !app_nil_r, reduce_word_idempotent.
  - by rewrite !app_assoc, !reduce_word_snoc, IH.
Qed.

Lemma reduce_word_app (u v : word) :
  reduce_word (u ++ v) = reduce_word (reduce_word u ++ reduce_word v).
Proof. by rewrite reduce_word_app_l, reduce_word_app_r. Qed.

Lemma reverse_word_reduce_step (a : letter) (r : word) :
  reverse_word (reduce_step a r) = push_last (reverse_word r) (inverse_letter a).
Proof.
  destruct r as [|b r]; [done|]. unfold reduce_step.
  rewrite (reverse_word_cons b r), push_last_snoc, inverse_letter_involutive.
  destruct (decide (b = inverse_letter a)) as [->|Hb].
  - by rewrite decide_True by apply inverse_letter_involutive.
  - rewrite decide_False.
    + rewrite !reverse_word_cons, <- app_assoc. done.
    + intros Heq. apply Hb. by apply inverse_letter_swap.
Qed.

(** Reduction commutes with reversal. *)
Lemma reduce_word_reverse (w : word) :
  reduce_word (reverse_word w) = reverse_word (reduce_word w).
Proof.
  induction w as [|a w IH]; [done|].
  by rewrite reverse_word_cons, reduce_word_snoc, IH, reduce_word_cons,
    reverse_word_reduce_step.
Qed.

(** A path followed by its reverse reduces to the empty path. *)
Lemma reduce_word_cancel (u : word) : reduce_word (u ++ reverse_word u) = [].
Proof.
  induction u as [|a u IH]; [done|].
  rewrite reverse_word_cons, app_assoc, reduce_word_snoc.
  change ((a :: u) ++ reverse_word u) with (a :: (u ++ reverse_word u)).
  rewrite reduce_word_cons, IH. simpl.
  by rewrite decide_True by (by rewrite inverse_letter_involutive).
Qed.

(** ** Applying the edge map to a path *)

Lemma apply_app (m : gmap letter word) (u v : word) (x y : word) :
  WordMorphism.apply m u = Ok x → WordMorphism.apply m v = Ok y →
  WordMorphism.apply m (u ++ v) = Ok (x ++ y).
Proof.
  revert x. induction u as [|a u IH]; intros x Hu Hv.
  - simpl in Hu. by simplify_eq.
  - cbn [WordMorphism.apply] in Hu. apply bind_Ok in Hu as (ia & Hia & Hu).
    apply bind_Ok in Hu as (r & Hr & Hu). simplify_eq.
    change (WordMorphism.apply m (a :: (u ++ v)) = Ok ((ia ++ r) ++ y)).
    cbn [WordMorphism.apply]. rewrite Hia, bind_Ok_l, (IH r Hr Hv), bind_Ok_l.
    by rewrite app_assoc.
Qed.

Lemma apply_app_inv (m : gmap letter word) (u v z : word) :
  WordMorphism.apply m (u ++ v) = Ok z →
  ∃ x y, WordMorphism.apply m u = Ok x ∧ WordMorphism.apply m v = Ok y ∧ z = x ++ y.
Proof.
  revert z. induction u as [|a u IH]; intros z Hz.
  - exists [], z. done.
  - change (WordMorphism.apply m (a :: (u ++ v)) = Ok z) in Hz.
    cbn [WordMorphism.apply] in Hz. apply bind_Ok in Hz as (ia & Hia & Hz).
    apply bind_Ok in Hz as (r & Hr & Hz). simplify_eq.
    destruct (IH r Hr) as (x & y & Hx & Hy & ->).
    exists (ia ++ x), y. cbn [WordMorphism.apply].
    rewrite Hia, bind_Ok_l, Hx, bind_Ok_l. by rewrite app_assoc.
Qed.

Lemma apply_singleton (m : gmap letter word) (a : letter) (w : word) :
  m !! a = Some w → WordMorphism.apply m [a] = Ok w.
Proof.
  intros Hw. cbn [WordMorphism.apply]. unfold WordMorphism.image. rewrite Hw. simpl.
  by rewrite app_nil_r.
Qed.

(** An inverse-consistent edge map sends the reverse of a path to the
    reverse of its image, letter by letter. *)
Lemma apply_reverse (m : gmap letter word) (w x : word) :
  consistent m →
  WordMorphism.apply m w = Ok x →
  WordMorphism.apply m (reverse_word w) = Ok (reverse_word x).
Proof.
  intros Hm. revert x. induction w as [|a w IH]; intros x Hx.
  - simpl in Hx. by simplify_eq.
  - cbn [WordMorphism.apply] in Hx. apply bind_Ok in Hx as (ia & Hia & Hx).
    apply bind_Ok in Hx as (r & Hr & Hx). simplify_eq.
    unfold WordMorphism.image in Hia.
    destruct (m !! a) as [u|] eqn:Hu; [|done]. simplify_eq.
    destruct (Hm a ia Hu) as (Hinv & _).
    rewrite reverse_word_cons, reverse_word_app.
    apply apply_app; [by apply IH|by apply apply_singleton].
Qed.

(** What [set_edge_map] stores on a key of the specification whose
    inverse is not a key. *)
Lemma set_edge_map_key (f f' : GraphMap) (spec : gmap letter word)
  (a : letter) (w : word) :
  set_edge_map f spec = Ok f' →
  spec !! a = Some w →
  spec !! inverse_letter a = None →
  edge_map f' !! a = Some (reduce_word w)
  ∧ edge_map f' !! inverse_letter a = Some (reverse_word (reduce_word w)).
Proof.
  intros Hset Hw Hinv.
  assert (Ha : edge_map f' !! a = Some (reduce_word w)).
  { injection Hset as <-. simpl. apply foldl_store_image_key.
    - apply NoDup_fst_map_to_list.
    - by apply elem_of_map_to_list.
    - intros Hin. apply list_elem_of_fmap in Hin as ([b u] & Hb & Hin). simpl in Hb.
      apply elem_of_map_to_list in Hin. congruence. }
  split; [done|]. by destruct (set_edge_map_consistent f f' spec Hset a _ Ha) as [? _].
Qed.

(** X1.  [set_edge_map] stores, for a letter of the specification whose
    inverse is not in the specification, the reduction of the given
    image, and for the inverse letter the reverse of that. *)
Theorem set_edge_map_stores_reduction (f f' : GraphMap) (spec : gmap letter word)
  (a : letter) (w : word) :
  set_edge_map f spec = Ok f' →
  spec !! a = Some w →
  spec !! inverse_letter a = None →
  edge_map f' !! a = Some (reduce_word w)
  ∧ edge_map f' !! inverse_letter a = Some (reverse_word (reduce_word w)).
Proof. exact (set_edge_map_key f f' spec a w). Qed.

Lemma set_edge_map_stores_reduction_witness :
  set_edge_map half_map {[ Pos 0 := [Pos 0; Pos 1; Neg 1] ]}
  = Ok (mkGraphMap (rose 2) (rose 1) (images [(Pos 0, [Pos 0]); (Neg 0, [Neg 0])]) None)
  ∧ edge_map half_map !! Pos 0 = Some (reduce_word [Pos 0; Pos 1; Neg 1])
  ∧ edge_map half_map !! Neg 0 = Some (reverse_word (reduce_word [Pos 0; Pos 1; Neg 1])).
Proof.
  assert (H : set_edge_map half_map {[ Pos 0 := [Pos 0; Pos 1; Neg 1] ]}
              = Ok half_map) by (vm_compute; reflexivity).
  split; [exact H|].
  exact (set_edge_map_stores_reduction half_map half_map _ (Pos 0) _ H eq_refl eq_refl).
Defined.

(** X2.  Installing the stored edge map of a map that satisfies the
    invariant stores it unchanged: [set_edge_map] is the identity on
    inverse-consistent edge maps. *)
Theorem set_edge_map_round_trip (f g f' : GraphMap) :
  inverse_consistent g →
  set_edge_map f (edge_map g) = Ok f' →
  edge_map f' = edge_map g.
Proof. intros Hg Hset. by apply (set_edge_map_consistent_id f f' (edge_map g)). Qed.

Lemma set_edge_map_round_trip_witness :
  inverse_consistent conjugate_map
  ∧ set_edge_map square_map (edge_map conjugate_map)
    = Ok (mkGraphMap (rose 1) (rose 1) (edge_map conjugate_map) None)
  ∧ edge_map (mkGraphMap (rose 1) (rose 1) (edge_map conjugate_map) None)
    = edge_map conjugate_map.
Proof.
  assert (Hc : inverse_consistent conjugate_map).
  { apply (init_consistent (rose 1) (rose 2) {[ Pos 0 := [Pos 0; Pos 1; Neg 0] ]} None).
    vm_compute. reflexivity. }
  assert (H : set_edge_map square_map (edge_map conjugate_map)
              = Ok (mkGraphMap (rose 1) (rose 1) (edge_map conjugate_map) None)).
  { vm_compute. reflexivity. }
  split; [exact Hc|]. split; [exact H|].
  exact (set_edge_map_round_trip square_map conjugate_map _ Hc H).
Defined.

(** X3.  On a map that satisfies the invariant, applying the map to the
    path of one letter gives the stored image of the letter. *)
Theorem call_on_letter (f : GraphMap) (a : letter) (w : word) :
  inverse_consistent f →
  image f a = Ok w →
  call f (Path [a]) = Ok (PathValue w, f).
Proof.
  intros Hf Hw. apply image_Ok in Hw.
  unfold call, apply_path. rewrite (apply_singleton _ _ _ Hw), !bind_Ok_l.
  unfold reduce_path. destruct (Hf a w Hw) as (_ & Hr & _).
  by rewrite (reduce_word_reduced w Hr).
Qed.

Lemma call_on_letter_witness :
  inverse_consistent conjugate_map
  ∧ image conjugate_map (Pos 0) = Ok [Pos 0; Pos 1; Neg 0]
  ∧ call conjugate_map (Path [Pos 0]) = Ok (PathValue [Pos 0; Pos 1; Neg 0], conjugate_map).
Proof.
  assert (Hc : inverse_consistent conjugate_map).
  { apply (init_consistent (rose 1) (rose 2) {[ Pos 0 := [Pos 0; Pos 1; Neg 0] ]} None).
    vm_compute. reflexivity. }
  split; [exact Hc|]. split; [reflexivity|].
  exact (call_on_letter conjugate_map (Pos 0) _ Hc eq_refl).
Defined.

(** [self(path)] commutes with the reversal of paths. *)
Lemma apply_path_reverse_word (f : GraphMap) (w u : word) :
  inverse_consistent f →
  apply_path f w = Ok u →
  apply_path f (reverse_path (domain f) w) = Ok (reverse_path (codomain f) u).
Proof.
  intros Hf Hu. unfold apply_path, reverse_path, reduce_path in *.
  apply bind_Ok in Hu as (x & Hx & Hu). simplify_eq.
  rewrite (apply_reverse _ _ _ Hf Hx), bind_Ok_l. by rewrite reduce_word_reverse.
Qed.

(** X4.  On a map that satisfies the invariant, the image of the reverse
    of a path is the reverse of the image of the path. *)
Theorem apply_path_reverse (f : GraphMap) (w u : word) :
  inverse_consistent f →
  apply_path f w = Ok u →
  apply_path f (reverse_path (domain f) w) = Ok (reverse_path (codomain f) u).
Proof. exact (apply_path_reverse_word f w u). Qed.

Lemma apply_path_reverse_witness :
  inverse_consistent conjugate_map
  ∧ apply_path conjugate_map [Pos 0; Pos 0] = Ok [Pos 0; Pos 1; Pos 1; Neg 0]
  ∧ apply_path conjugate_map [Neg 0; Neg 0] = Ok [Pos 0; Neg 1; Neg 1; Neg 0].
Proof.
  assert (Hc : inverse_consistent conjugate_map).
  { apply (init_consistent (rose 1) (rose 2) {[ Pos 0 := [Pos 0; Pos 1; Neg 0] ]} None).
    vm_compute. reflexivity. }
  split; [exact Hc|]. split; [reflexivity|].
  exact (apply_path_reverse conjugate_map [Pos 0; Pos 0] _ Hc eq_refl).
Defined.

(** ** Composition *)

Lemma bind_assoc {A B C : Type} (r : result A) (k1 : A → result B) (k2 : B → result C) :
  (r ≫= k1) ≫= k2 = r ≫= λ x, k1 x ≫= k2.
Proof. by destruct r. Qed.

(** A loop that fills a dictionary with the values of [F] on the items:
    the values all exist, and the dictionary holds them. *)
Lemma build_dict_lookup (F : letter → result word)
  (body : gmap letter word → letter → result (gmap letter word))
  (l : list letter) (d0 d : gmap letter word) :
  (∀ d a, body d a = F a ≫= λ v, Ok (<[a := v]> d)) →
  for_each body d0 l = Ok d →
  (∀ a, a ∈ l → ∃ v, F a = Ok v)
  ∧ ∀ b, d !! b = if decide (b ∈ l)
                  then match F b with Ok v => Some v | _ => None end
                  else d0 !! b.
Proof.
  intros Hbody. revert d0. induction l as [|a l IH]; intros d0 Hrun.
  - simpl in Hrun. simplify_eq. split.
    + intros a Ha. by apply elem_of_nil in Ha.
    + intros b. rewrite decide_False; [done|]. apply not_elem_of_nil.
  - cbn [for_each] in Hrun. apply bind_Ok in Hrun as (d1 & Hstep & Hrun).
    rewrite Hbody in Hstep. apply bind_Ok in Hstep as (v & Hv & Hstep). simplify_eq.
    destruct (IH _ Hrun) as [IHall IHlook]. split.
    + intros b Hb. apply elem_of_cons in Hb as [->|Hb]; [by exists v|by apply IHall].
    + intros b. rewrite IHlook. destruct (decide (b ∈ l)) as [Hb|Hb].
      * rewrite decide_True; [done|]. by right.
      * destruct (decide (b = a)) as [->|Hba].
        -- rewrite lookup_insert_eq, decide_True, Hv; [done|]. by left.
        -- rewrite lookup_insert_ne by done. rewrite decide_False; [done|].
           rewrite not_elem_of_cons. done.
Qed.

Lemma build_dict_total (F : letter → result word)
  (body : gmap letter word → letter → result (gmap letter word))
  (l : list letter) (d0 : gmap letter word) :
  (∀ d a, body d a = F a ≫= λ v, Ok (<[a := v]> d)) →
  (∀ a, a ∈ l → ∃ v, F a = Ok v) →
  ∃ d, for_each body d0 l = Ok d.
Proof.
  intros Hbody. revert d0. induction l as [|a l IH]; intros d0 Hall; [by eexists|].
  destruct (Hall a) as [v Hv]; [by left|]. cbn [for_each].
  rewrite Hbody, Hv, !bind_Ok_l. apply IH. intros b Hb. apply Hall. by right.
Qed.

Lemma init_inv (dom cod : GraphWithInverses) (spec : gmap letter word)
  (vmap : option (gmap vertex vertex)) (f : GraphMap) :
  init dom cod spec vmap = Ok f →
  ∃ f0, set_edge_map (mkGraphMap dom cod ∅ None) spec = Ok f0
        ∧ f = mkGraphMap dom cod (edge_map f0) vmap.
Proof. unfold init. intros H. eexists. split; [done|]. simpl in H. by simplify_eq. Qed.

Lemma elem_of_letters (G : GraphWithInverses) (b : letter) :
  b ∈ letters G ↔ b ∈ positive_letters G ∨ inverse_letter b ∈ positive_letters G.
Proof.
  unfold letters, positive_letters, negative_letters.
  rewrite elem_of_app, !list_elem_of_fmap. split.
  - intros [(i & -> & Hi)|(i & -> & Hi)]; [left|right]; by exists i.
  - intros [(i & -> & Hi)|(i & Hb & Hi)]; [left; by exists i|right].
    exists i. split; [|done]. destruct b; simpl in Hb; congruence.
Qed.

(** The dictionary [result_map] of [__mul__], and the map built from
    it. *)
Lemma mul_inv (f g h : GraphMap) :
  mul f g = Ok h →
  ∃ rm f0,
    (∀ a, a ∈ positive_letters (domain g) →
          ∃ w u, image g a = Ok w ∧ apply_path f w = Ok u ∧ rm !! a = Some u)
    ∧ (∀ b, b ∉ positive_letters (domain g) → rm !! b = None)
    ∧ set_edge_map (mkGraphMap (domain g) (codomain f) ∅ None) rm = Ok f0
    ∧ h = mkGraphMap (domain g) (codomain f) (edge_map f0) None.
Proof.
  unfold mul. intros H. apply bind_Ok in H as (rm & Hrm & Hinit).
  apply init_inv in Hinit as (f0 & Hset & ->).
  pose (F := λ a, WordMorphism.image (edge_map g) a ≫= apply_path f).
  apply (build_dict_lookup F) in Hrm as [Hall Hlook].
  2:{ intros d a. unfold F. by rewrite bind_assoc. }
  exists rm, f0. split; [|split; [|done]].
  - intros a Ha. destruct (Hall a Ha) as [u Hu]. unfold F in Hu.
    apply bind_Ok in Hu as (w & Hw & Hu). exists w, u. split; [done|]. split; [done|].
    rewrite Hlook, decide_True by done. unfold F. by rewrite Hw, bind_Ok_l, Hu.
  - intros b Hb. rewrite Hlook, decide_False by done. apply lookup_empty.
Qed.

(** What [__mul__] builds: the graphs and the stored images. *)
Lemma mul_stores (f g h : GraphMap) (a : letter) :
  mul f g = Ok h →
  a ∈ positive_letters (domain g) →
  domain h = domain g ∧ codomain h = codomain f ∧ vertex_map h = None
  ∧ ∃ w u, image g a = Ok w ∧ apply_path f w = Ok u
           ∧ image h a = Ok u
           ∧ image h (inverse_letter a) = Ok (reverse_word u).
Proof.
  intros Hmul Ha. destruct (mul_inv f g h Hmul) as (rm & f0 & Hall & Hnone & Hset & ->).
  repeat split. destruct (Hall a Ha) as (w & u & Hw & Hu & Hrm).
  exists w, u. split; [done|]. split; [done|].
  assert (Hinv : rm !! inverse_letter a = None).
  { apply Hnone. unfold positive_letters in Ha |- *. rewrite list_elem_of_fmap in Ha |- *.
    destruct Ha as (i & -> & _). intros (j & Hj & _). done. }
  destruct (set_edge_map_key _ _ _ _ _ Hset Hrm Hinv) as [H1 H2].
  assert (Hred : reduce_word u = u).
  { unfold apply_path in Hu. apply bind_Ok in Hu as (x & _ & Hu). simplify_eq.
    apply reduce_word_idempotent. }
  rewrite Hred in H1, H2. split; by apply image_Ok.
Qed.

(** X5.  The product [f * g] goes from the domain of [g] to the codomain
    of [f], has no cached vertex map, and stores for every positive
    letter [a] of the domain of [g] the image by [f] of the image of [a]
    by [g], and for the inverse letter the reverse of that path. *)
Theorem mul_image (f g h : GraphMap) (a : letter) :
  mul f g = Ok h →
  a ∈ positive_letters (domain g) →
  domain h = domain g ∧ codomain h = codomain f ∧ vertex_map h = None
  ∧ ∃ w u, image g a = Ok w ∧ apply_path f w = Ok u
           ∧ image h a = Ok u
           ∧ image h (inverse_letter a) = Ok (reverse_word u).
Proof. exact (mul_stores f g h a). Qed.

Lemma mul_image_witness :
  mul conjugate_map square_map
  = Ok (mkGraphMap (rose 1) (rose 2)
          (images [(Pos 0, [Pos 0; Pos 1; Pos 1; Neg 0]);
                   (Neg 0, [Pos 0; Neg 1; Neg 1; Neg 0])]) None)
  ∧ Pos 0 ∈ positive_letters (domain square_map)
  ∧ ∃ w u, image square_map (Pos 0) = Ok w ∧ apply_path conjugate_map w = Ok u
           ∧ image (mkGraphMap (rose 1) (rose 2)
                      (images [(Pos 0, [Pos 0; Pos 1; Pos 1; Neg 0]);
                               (Neg 0, [Pos 0; Neg 1; Neg 1; Neg 0])]) None) (Pos 0)
             = Ok u.
Proof.
  assert (H : mul conjugate_map square_map
              = Ok (mkGraphMap (rose 1) (rose 2)
                      (images [(Pos 0, [Pos 0; Pos 1; Pos 1; Neg 0]);
                               (Neg 0, [Pos 0; Neg 1; Neg 1; Neg 0])]) None)).
  { vm_compute. reflexivity. }
  assert (Ha : Pos 0 ∈ positive_letters (domain square_map)).
  { vm_compute. set_solver. }
  split; [exact H|]. split; [exact Ha|].
  destruct (mul_image _ _ _ (Pos 0) H Ha) as (_ & _ & _ & w & u & Hw & Hu & Hh & _).
  exists w, u. auto.
Defined.

Lemma mul_unmapped (f g h : GraphMap) (b : letter) :
  mul f g = Ok h → b ∉ letters (domain g) → edge_map h !! b = None.
Proof.
  intros Hmul Hb. destruct (mul_inv f g h Hmul) as (rm & f0 & _ & Hnone & Hset & ->).
  simpl. rewrite elem_of_letters in Hb.
  apply (set_edge_map_unmapped _ _ _ b Hset). split; apply Hnone; tauto.
Qed.

(** X6.  For a map that satisfies the invariant and has an image for
    every positive letter of its domain, the product with the identity
    map of the domain is defined and has the same image as the map on
    every letter of the domain. *)
Theorem mul_identity_right (f : GraphMap) :
  inverse_consistent f →
  (∀ a, a ∈ positive_letters (domain f) → is_Some (edge_map f !! a)) →
  ∃ h, mul f (identity_map (domain f)) = Ok h
       ∧ domain h = domain f ∧ codomain h = codomain f
       ∧ ∀ a, a ∈ letters (domain f) → edge_map h !! a = edge_map f !! a.
Proof.
  intros Hf Hall.
  assert (Hid : ∀ a, a ∈ letters (domain f) →
                     edge_map (identity_map (domain f)) !! a = Some [a]).
  { intros a Ha. by apply identity_dict_lookup. }
  assert (Hpos : ∀ a, a ∈ positive_letters (domain f) → a ∈ letters (domain f)).
  { intros a Ha. apply elem_of_letters. by left. }
  assert (Hmul : ∃ h, mul f (identity_map (domain f)) = Ok h).
  { unfold mul.
    destruct (build_dict_total
                (λ a, WordMorphism.image (edge_map (identity_map (domain f))) a
                      ≫= apply_path f)
                (λ d a, w ← WordMorphism.image (edge_map (identity_map (domain f))) a;
                        u ← apply_path f w; Ok (<[a := u]> d))
                (positive_letters (domain (identity_map (domain f)))) ∅) as [rm Hrm].
    - intros d a. by rewrite bind_assoc.
    - intros a Ha. simpl in Ha. destruct (Hall a Ha) as [w Hw].
      unfold WordMorphism.image at 1. rewrite (Hid a (Hpos a Ha)), bind_Ok_l.
      unfold apply_path. rewrite (apply_singleton _ _ _ Hw), bind_Ok_l. by eexists.
    - rewrite Hrm, bind_Ok_l. unfold init, set_edge_map. simpl. by eexists. }
  destruct Hmul as [h Hmul]. exists h. split; [done|].
  assert (Himg : ∀ a, a ∈ positive_letters (domain f) →
                      edge_map h !! a = edge_map f !! a
                      ∧ edge_map h !! inverse_letter a = edge_map f !! inverse_letter a).
  { intros a Ha.
    destruct (mul_stores _ _ _ a Hmul Ha) as (_ & _ & _ & w & u & Hw & Hu & H1 & H2).
    apply image_Ok in Hw, H1, H2. rewrite (Hid a (Hpos a Ha)) in Hw. simplify_eq.
    destruct (Hall a Ha) as [x Hx]. destruct (Hf a x Hx) as (Hxi & Hr & _).
    unfold apply_path in Hu. rewrite (apply_singleton _ _ _ Hx), bind_Ok_l in Hu.
    unfold reduce_path in Hu. rewrite (reduce_word_reduced x Hr) in Hu. simplify_eq.
    by rewrite H1, H2, Hx, Hxi. }
  destruct (mul_inv _ _ _ Hmul) as (rm & f0 & _ & _ & _ & Hh).
  split; [by rewrite Hh|]. split; [by rewrite Hh|].
  intros a Ha. apply elem_of_letters in Ha as [Ha|Ha].
  - by apply Himg.
  - destruct (Himg _ Ha) as [_ H2]. by rewrite inverse_letter_involutive in H2.
Qed.

Lemma mul_identity_right_witness :
  inverse_consistent conjugate_map
  ∧ (∀ a, a ∈ positive_letters (domain conjugate_map) →
          is_Some (edge_map conjugate_map !! a))
  ∧ ∃ h, mul conjugate_map (identity_map (domain conjugate_map)) = Ok h
         ∧ ∀ a, a ∈ letters (domain conjugate_map) →
                edge_map h !! a = edge_map conjugate_map !! a.
Proof.
  assert (Hc : inverse_consistent conjugate_map).
  { apply (init_consistent (rose 1) (rose 2) {[ Pos 0 := [Pos 0; Pos 1; Neg 0] ]} None).
    vm_compute. reflexivity. }
  assert (Hall : ∀ a, a ∈ positive_letters (domain conjugate_map) →
                      is_Some (edge_map conjugate_map !! a)).
  { intros a Ha. vm_compute in Ha. apply list_elem_of_singleton in Ha as ->. by eexists. }
  split; [exact Hc|]. split; [exact Hall|].
  destruct (mul_identity_right conjugate_map Hc Hall) as (h & Hh & _ & _ & Himg).
  exists h. auto.
Defined.

Lemma image_iter_two (f : GraphMap) (a : letter) (w : word) :
  image f a = Ok w → image_iter f a 2 = apply_path f w.
Proof.
  intros Hw. apply image_Ok in Hw. unfold image_iter, apply_path.
  rewrite (apply_singleton _ _ _ Hw), bind_Ok_l.
  change (Z.of_nat 2 - 1)%Z with 1%Z. unfold WordMorphism.apply_order.
  rewrite decide_False by lia. change (Z.to_nat 1) with 1.
  cbn [WordMorphism.apply_iter].
  by destruct (WordMorphism.apply (edge_map f) w).
Qed.

(** X7.  For a map [f] that satisfies the invariant, the product [f * f]
    stores, on every letter of the domain, the second iterate
    [image(letter, 2)] of [f]. *)
Theorem mul_square_image (f h : GraphMap) (a : letter) :
  inverse_consistent f →
  mul f f = Ok h →
  a ∈ letters (domain f) →
  image h a = image_iter f a 2.
Proof.
  intros Hf Hmul Ha. apply elem_of_letters in Ha as [Ha|Ha].
  - destruct (mul_stores _ _ _ a Hmul Ha) as (_ & _ & _ & w & u & Hw & Hu & H1 & _).
    by rewrite H1, (image_iter_two f a w Hw).
  - destruct (mul_stores _ _ _ _ Hmul Ha) as (_ & _ & _ & w & u & Hw & Hu & _ & H2).
    rewrite inverse_letter_involutive in H2. rewrite H2.
    apply image_Ok in Hw. destruct (Hf _ _ Hw) as (Hinv & _).
    rewrite inverse_letter_involutive in Hinv.
    rewrite (image_iter_two f a (reverse_word w)) by by apply image_Ok.
    symmetry. by apply (apply_path_reverse_word f w u).
Qed.

Lemma mul_square_image_witness :
  inverse_consistent square_map
  ∧ mul square_map square_map
    = Ok (mkGraphMap (rose 1) (rose 1)
            (images [(Pos 0, [Pos 0; Pos 0; Pos 0; Pos 0]);
                     (Neg 0, [Neg 0; Neg 0; Neg 0; Neg 0])]) None)
  ∧ Neg 0 ∈ letters (domain square_map)
  ∧ image_iter square_map (Neg 0) 2 = Ok [Neg 0; Neg 0; Neg 0; Neg 0].
Proof.
  assert (Hc : inverse_consistent square_map).
  { apply (init_consistent (rose 1) (rose 1) {[ Pos 0 := [Pos 0; Pos 0] ]} None).
    vm_compute. reflexivity. }
  assert (H : mul square_map square_map
              = Ok (mkGraphMap (rose 1) (rose 1)
                      (images [(Pos 0, [Pos 0; Pos 0; Pos 0; Pos 0]);
                               (Neg 0, [Neg 0; Neg 0; Neg 0; Neg 0])]) None)).
  { vm_compute. reflexivity. }
  assert (Ha : Neg 0 ∈ letters (domain square_map)) by (vm_compute; set_solver).
  split; [exact Hc|]. split; [exact H|]. split; [exact Ha|].
  rewrite <- (mul_square_image square_map _ (Neg 0) Hc H Ha). reflexivity.
Defined.

(** X8.  [compose_edge_map] keeps the two graphs, forgets the vertex map
    and stores, for every positive letter of the domain, the reduction of
    the image by the given morphism of the old image of the letter, and
    its reverse for the inverse letter. *)
Theorem compose_edge_map_image (f f' : GraphMap) (edge_morph : gmap letter word)
  (a : letter) :
  compose_edge_map f edge_morph = Ok f' →
  a ∈ positive_letters (domain f) →
  domain f' = domain f ∧ codomain f' = codomain f ∧ vertex_map f' = None
  ∧ ∃ w x, image f a = Ok w ∧ WordMorphism.apply edge_morph w = Ok x
           ∧ image f' a = Ok (reduce_word x)
           ∧ image f' (inverse_letter a) = Ok (reverse_word (reduce_word x)).
Proof.
  unfold compose_edge_map. intros H Ha. apply bind_Ok in H as (d & Hd & Hset).
  destruct (set_edge_map_frame _ _ _ Hset) as (H1 & H2 & H3).
  split; [done|]. split; [done|]. split; [done|].
  pose (F := λ a, WordMorphism.image (edge_map f) a ≫= WordMorphism.apply edge_morph).
  apply (build_dict_lookup F) in Hd as [Hall Hlook].
  2:{ intros d0 b. unfold F. by rewrite bind_assoc. }
  destruct (Hall a Ha) as [x Hx]. pose proof Hx as Hx'. unfold F in Hx'.
  apply bind_Ok in Hx' as (w & Hw & Hwx). exists w, x. split; [done|]. split; [done|].
  assert (Hda : d !! a = Some x) by (by rewrite Hlook, decide_True, Hx).
  assert (Hdi : d !! inverse_letter a = None).
  { rewrite Hlook, decide_False; [apply lookup_empty|].
    unfold positive_letters in Ha |- *. rewrite list_elem_of_fmap in Ha |- *.
    destruct Ha as (i & -> & _). intros (j & Hj & _). done. }
  destruct (set_edge_map_key _ _ _ _ _ Hset Hda Hdi) as [Ha1 Ha2].
  split; by apply image_Ok.
Qed.

Lemma compose_edge_map_image_witness :
  compose_edge_map square_map {[ Pos 0 := [Pos 1]; Neg 0 := [Neg 1] ]}
  = Ok (mkGraphMap (rose 1) (rose 1)
          (images [(Pos 0, [Pos 1; Pos 1]); (Neg 0, [Neg 1; Neg 1])]) None)
  ∧ Pos 0 ∈ positive_letters (domain square_map)
  ∧ ∃ w x, image square_map (Pos 0) = Ok w
           ∧ WordMorphism.apply {[ Pos 0 := [Pos 1]; Neg 0 := [Neg 1] ]} w = Ok x
           ∧ image (mkGraphMap (rose 1) (rose 1)
                      (images [(Pos 0, [Pos 1; Pos 1]); (Neg 0, [Neg 1; Neg 1])]) None)
               (Pos 0) = Ok (reduce_word x).
Proof.
  assert (H : compose_edge_map square_map {[ Pos 0 := [Pos 1]; Neg 0 := [Neg 1] ]}
              = Ok (mkGraphMap (rose 1) (rose 1)
                      (images [(Pos 0, [Pos 1; Pos 1]); (Neg 0, [Neg 1; Neg 1])]) None)).
  { vm_compute. reflexivity. }
  assert (Ha : Pos 0 ∈ positive_letters (domain square_map)) by (vm_compute; set_solver).
  split; [exact H|]. split; [exact Ha|].
  destruct (compose_edge_map_image _ _ _ (Pos 0) H Ha)
    as (_ & _ & _ & w & x & Hw & Hx & Hi & _).
  exists w, x. auto.
Defined.

(** ** Associativity of the product *)

(** Applying an inverse-consistent edge map to the reduction of a path
    gives, up to reduction, what applying it to the path gives. *)
Lemma apply_reduce (m : gmap letter word) (x y : word) :
  consistent m →
  WordMorphism.apply m x = Ok y →
  ∃ y', WordMorphism.apply m (reduce_word x) = Ok y' ∧ reduce_word y' = reduce_word y.
Proof.
  intros Hm. revert y. induction x as [|a x IH]; intros y Hy.
  - exists y. done.
  - cbn [WordMorphism.apply] in Hy. apply bind_Ok in Hy as (ia & Hia & Hy).
    apply bind_Ok in Hy as (r & Hr & Hy). simplify_eq.
    destruct (IH r Hr) as (r' & Hr' & Hred).
    assert (Hma : m !! a = Some ia).
    { unfold WordMorphism.image in Hia. by destruct (m !! a); simplify_eq. }
    rewrite reduce_word_cons. unfold reduce_step.
    destruct (reduce_word x) as [|b t] eqn:Hx.
    + simpl in Hr'. simplify_eq. exists ia. split.
      * by apply apply_singleton.
      * rewrite (reduce_word_app_r ia r), <- Hred. simpl. by rewrite app_nil_r.
    + destruct (decide (b = inverse_letter a)) as [->|Hb].
      * cbn [WordMorphism.apply] in Hr'. apply bind_Ok in Hr' as (ib & Hib & Hr').
        apply bind_Ok in Hr' as (rt & Hrt & Hr'). simplify_eq.
        exists rt. split; [done|].
        destruct (Hm a ia Hma) as (Hinv & _).
        unfold WordMorphism.image in Hib. rewrite Hinv in Hib. simplify_eq.
        rewrite (reduce_word_app_r ia r), <- Hred, <- reduce_word_app_r.
        by rewrite app_assoc, reduce_word_app_l, reduce_word_cancel.
      * exists (ia ++ r'). split.
        -- cbn [WordMorphism.apply]. cbn [WordMorphism.apply] in Hr'.
           by rewrite Hia, bind_Ok_l, Hr', bind_Ok_l.
        -- by rewrite (reduce_word_app_r ia r'), Hred, <- reduce_word_app_r.
Qed.

(** What the product [f * g] stores on a letter. *)
Lemma mul_lookup (f g h : GraphMap) (b : letter) (u : word) :
  inverse_consistent f → inverse_consistent g →
  mul f g = Ok h →
  edge_map h !! b = Some u →
  ∃ x y, edge_map g !! b = Some x ∧ WordMorphism.apply (edge_map f) x = Ok y
         ∧ u = reduce_word y.
Proof.
  intros Hf Hg Hmul Hu.
  assert (Hb : b ∈ letters (domain g)).
  { destruct (decide (b ∈ letters (domain g))) as [?|Hn]; [done|].
    rewrite (mul_unmapped _ _ _ _ Hmul Hn) in Hu. done. }
  apply elem_of_letters in Hb as [Hb|Hb].
  - destruct (mul_stores _ _ _ _ Hmul Hb) as (_ & _ & _ & w & u' & Hw & Hu' & H1 & _).
    apply image_Ok in Hw, H1. unfold apply_path in Hu'.
    apply bind_Ok in Hu' as (y & Hy & Hu'). simplify_eq. by exists w, y.
  - destruct (mul_stores _ _ _ _ Hmul Hb) as (_ & _ & _ & w & u' & Hw & Hu' & _ & H2).
    rewrite inverse_letter_involutive in H2. apply image_Ok in Hw, H2.
    unfold apply_path in Hu'. apply bind_Ok in Hu' as (y & Hy & Hu'). simplify_eq.
    destruct (Hg _ _ Hw) as (Hinv & _). rewrite inverse_letter_involutive in Hinv.
    exists (reverse_word w), (reverse_word y). split; [done|]. split.
    + by apply apply_reverse.
    + unfold reduce_path. by rewrite reduce_word_reverse.
Qed.

Lemma apply_mul (f g h : GraphMap) (w z : word) :
  inverse_consistent f → inverse_consistent g →
  mul f g = Ok h →
  WordMorphism.apply (edge_map h) w = Ok z →
  ∃ x y, WordMorphism.apply (edge_map g) w = Ok x
         ∧ WordMorphism.apply (edge_map f) x = Ok y
         ∧ reduce_word z = reduce_word y.
Proof.
  intros Hf Hg Hmul. revert z. induction w as [|b w IH]; intros z Hz.
  - simpl in Hz. simplify_eq. by exists [], [].
  - cbn [WordMorphism.apply] in Hz. apply bind_Ok in Hz as (ub & Hub & Hz).
    apply bind_Ok in Hz as (z' & Hz' & Hz). simplify_eq.
    destruct (IH z' Hz') as (x' & y' & Hx' & Hy' & Hred).
    assert (Hhb : edge_map h !! b = Some ub).
    { unfold WordMorphism.image in Hub. by destruct (edge_map h !! b); simplify_eq. }
    destruct (mul_lookup _ _ _ _ _ Hf Hg Hmul Hhb) as (xb & yb & Hxb & Hyb & ->).
    exists (xb ++ x'), (yb ++ y'). split; [|split].
    + cbn [WordMorphism.apply]. unfold WordMorphism.image. by rewrite Hxb, bind_Ok_l, Hx'.
    + by apply apply_app.
    + by rewrite reduce_word_app, reduce_word_idempotent, Hred, <- reduce_word_app.
Qed.

(** X9.  The product is associative: for maps [f] and [g] that satisfy
    the invariant, [(f * g) * k] and [f * (g * k)], when both are defined,
    are the same map. *)
Theorem mul_assoc (f g k fg gk h1 h2 : GraphMap) :
  inverse_consistent f → inverse_consistent g →
  mul f g = Ok fg → mul fg k = Ok h1 →
  mul g k = Ok gk → mul f gk = Ok h2 →
  h1 = h2.
Proof.
  intros Hf Hg Hfg Hh1 Hgk Hh2.
  assert (Hpos : ∀ a, a ∈ positive_letters (domain k) →
            edge_map h1 !! a = edge_map h2 !! a
            ∧ edge_map h1 !! inverse_letter a = edge_map h2 !! inverse_letter a).
  { intros a Ha.
    destruct (mul_stores _ _ _ _ Hh1 Ha) as (_ & _ & _ & w & u1 & Hw & Hu1 & H1 & H1').
    destruct (mul_stores _ _ _ _ Hgk Ha) as (Hd & _ & _ & w' & v & Hw' & Hv & Hgka & _).
    assert (Ha' : a ∈ positive_letters (domain gk)) by (by rewrite Hd).
    destruct (mul_stores _ _ _ _ Hh2 Ha') as (_ & _ & _ & v' & u2 & Hv' & Hu2 & H2 & H2').
    rewrite Hw in Hw'. rewrite Hgka in Hv'. simplify_eq.
    assert (Heq : u1 = u2).
    { unfold apply_path in Hu1, Hv, Hu2.
      apply bind_Ok in Hu1 as (z & Hz & Hu1). apply bind_Ok in Hv as (x & Hx & Hv).
      apply bind_Ok in Hu2 as (y2 & Hy2 & Hu2). simplify_eq.
      destruct (apply_mul _ _ _ _ _ Hf Hg Hfg Hz) as (x' & y & Hx' & Hy & Hred).
      rewrite Hx in Hx'. simplify_eq.
      destruct (apply_reduce _ _ _ Hf Hy) as (y' & Hy' & Hred').
      unfold reduce_path in Hy2. rewrite Hy' in Hy2. simplify_eq.
      destruct (mul_inv _ _ _ Hfg) as (? & ? & _ & _ & _ & ->).
      destruct (mul_inv _ _ _ Hh2) as (? & ? & _ & _ & _ & ->).
      unfold reduce_path. simpl. congruence. }
    subst u2. apply image_Ok in H1, H1', H2, H2'. by rewrite H1, H1', H2, H2'. }
  assert (Hmap : edge_map h1 = edge_map h2).
  { apply map_eq. intros b.
    destruct (decide (b ∈ letters (domain k))) as [Hb|Hb].
    - apply elem_of_letters in Hb as [Hb|Hb]; [by apply Hpos|].
      destruct (Hpos _ Hb) as [_ H]. by rewrite inverse_letter_involutive in H.
    - rewrite (mul_unmapped _ _ _ _ Hh1 Hb).
      destruct (mul_inv _ _ _ Hgk) as (? & ? & _ & _ & _ & Hgk').
      symmetry. apply (mul_unmapped _ _ _ _ Hh2). by rewrite Hgk'. }
  destruct (mul_inv _ _ _ Hfg) as (? & ? & _ & _ & _ & Efg).
  destruct (mul_inv _ _ _ Hgk) as (? & ? & _ & _ & _ & Egk).
  destruct (mul_inv _ _ _ Hh1) as (? & ? & _ & _ & _ & E1).
  destruct (mul_inv _ _ _ Hh2) as (? & ? & _ & _ & _ & E2).
  rewrite E1, E2 in Hmap |- *. simpl in Hmap. rewrite Hmap, Efg, Egk. done.
Qed.

Lemma mul_assoc_witness :
  inverse_consistent conjugate_map ∧ inverse_consistent square_map
  ∧ ∃ fg h1 gk h2,
      mul conjugate_map square_map = Ok fg ∧ mul fg square_map = Ok h1
      ∧ mul square_map square_map = Ok gk ∧ mul conjugate_map gk = Ok h2
      ∧ h1 = h2.
Proof.
  assert (Hc : inverse_consistent conjugate_map).
  { apply (init_consistent (rose 1) (rose 2) {[ Pos 0 := [Pos 0; Pos 1; Neg 0] ]} None).
    vm_compute. reflexivity. }
  assert (Hs : inverse_consistent square_map).
  { apply (init_consistent (rose 1) (rose 1) {[ Pos 0 := [Pos 0; Pos 0] ]} None).
    vm_compute. reflexivity. }
  split; [exact Hc|]. split; [exact Hs|].
  destruct (mul conjugate_map square_map) as [fg| |] eqn:Hfg;
    [|vm_compute in Hfg; discriminate Hfg..].
  destruct (mul fg square_map) as [h1| |] eqn:Hh1;
    [|vm_compute in Hfg; injection Hfg as <-; vm_compute in Hh1; discriminate Hh1..].
  destruct (mul square_map square_map) as [gk| |] eqn:Hgk;
    [|vm_compute in Hgk; discriminate Hgk..].
  destruct (mul conjugate_map gk) as [h2| |] eqn:Hh2;
    [|vm_compute in Hgk; injection Hgk as <-; vm_compute in Hh2; discriminate Hh2..].
  exists fg, h1, gk, h2.
  split; [reflexivity|]. split; [exact Hh1|]. split; [reflexivity|]. split; [exact Hh2|].
  exact (mul_assoc _ _ _ _ _ _ _ Hc Hs Hfg Hh1 Hgk Hh2).
Defined.

(** ** The vertex map *)

Lemma vertex_map_step_inv (f : GraphMap) (vm vm' : gmap vertex vertex) (e : letter) :
  vertex_map_step f vm e = Ok vm' →
  (edge_map f !! e = Some [] ∧ vm' = vm)
  ∨ ∃ c p x v cl y w,
      edge_map f !! e = Some (c :: p)
      ∧ initial (codomain f) !! c = Some x ∧ initial (domain f) !! e = Some v
      ∧ last (c :: p) = Some cl
      ∧ terminal (codomain f) !! cl = Some y ∧ terminal (domain f) !! e = Some w
      ∧ vm' = <[w := y]> (<[v := x]> vm).
Proof.
  unfold vertex_map_step. intros H. apply bind_Ok in H as (p & Hp & H).
  apply image_Ok in Hp. destruct p as [|c p]; [left; by simplify_eq|]. right.
  unfold initial_vertex, terminal_vertex, first_letter, last_letter in H.
  rewrite bind_Ok_l in H.
  apply bind_Ok in H as (x & Hx & H). apply getitem_Ok in Hx.
  apply bind_Ok in H as (v & Hv & H). apply getitem_Ok in Hv.
  destruct (last (c :: p)) as [cl|] eqn:Hl; [|done]. rewrite bind_Ok_l in H.
  apply bind_Ok in H as (y & Hy & H). apply getitem_Ok in Hy.
  apply bind_Ok in H as (w & Hw & H). apply getitem_Ok in Hw. simplify_eq.
  exists c, p, x, v, cl, y, w. done.
Qed.

Lemma compute_vertex_map_entries (f : GraphMap) (l l0 : list letter)
  (vm0 vm : gmap vertex vertex) :
  (∀ v x, vm0 !! v = Some x → justified f l0 v x) →
  (∀ e c p v, e ∈ l0 → edge_map f !! e = Some (c :: p) →
              initial (domain f) !! e = Some v ∨ terminal (domain f) !! e = Some v →
              is_Some (vm0 !! v)) →
  for_each (vertex_map_step f) vm0 l = Ok vm →
  (∀ v x, vm !! v = Some x → justified f (l0 ++ l) v x)
  ∧ (∀ e c p v, e ∈ l0 ++ l → edge_map f !! e = Some (c :: p) →
                initial (domain f) !! e = Some v ∨ terminal (domain f) !! e = Some v →
                is_Some (vm !! v)).
Proof.
  revert l0 vm0. induction l as [|e l IH]; intros l0 vm0 Hj Hc Hrun.
  - simpl in Hrun. simplify_eq. by rewrite app_nil_r.
  - cbn [for_each] in Hrun. apply bind_Ok in Hrun as (vm1 & Hstep & Hrun).
    replace (l0 ++ e :: l) with ((l0 ++ [e]) ++ l) by (by rewrite <- app_assoc).
    apply (IH (l0 ++ [e]) vm1); [| |done].
    + intros v x Hvx.
      assert (Hold : ∀ v x, justified f l0 v x → justified f (l0 ++ [e]) v x).
      { intros v' x' (e' & c & p & He' & H). exists e', c, p. split; [|done].
        apply elem_of_app. by left. }
      apply vertex_map_step_inv in Hstep
        as [[_ ->]|(c & p & x0 & v0 & cl & y & w & Hp & Hx0 & Hv0 & Hl & Hy & Hw & ->)].
      { by apply Hold, Hj. }
      assert (He : e ∈ l0 ++ [e]) by (apply elem_of_app; right; by left).
      destruct (decide (v = w)) as [->|Hvw].
      { rewrite lookup_insert_eq in Hvx. simplify_eq.
        exists e, c, p. split; [done|]. split; [done|]. right. eauto. }
      rewrite lookup_insert_ne in Hvx by done.
      destruct (decide (v = v0)) as [->|Hvv].
      { rewrite lookup_insert_eq in Hvx. simplify_eq.
        exists e, c, p. split; [done|]. split; [done|]. left. eauto. }
      rewrite lookup_insert_ne in Hvx by done. by apply Hold, Hj.
    + intros e' c p v He' Hp' Hv.
      assert (Hmono : ∀ u, is_Some (vm0 !! u) → is_Some (vm1 !! u)).
      { intros u Hu. apply vertex_map_step_inv in Hstep as [[_ ->]|(? & ? & ? & ? & ? & ? & ? & _ & _ & _ & _ & _ & _ & ->)]; [done|].
        rewrite !lookup_insert_is_Some'. auto. }
      apply elem_of_app in He' as [He'|He'].
      { apply Hmono. by eapply Hc. }
      apply list_elem_of_singleton in He' as ->.
      apply vertex_map_step_inv in Hstep
        as [[Hnil _]|(c' & p' & x0 & v0 & cl & y & w & Hp & Hx0 & Hv0 & Hl & Hy & Hw & ->)].
      { congruence. }
      rewrite !lookup_insert_is_Some'. destruct Hv as [Hv|Hv]; simplify_eq; auto.
Qed.

(** The vertex map that [update_vertex_map] computes. *)
Lemma update_vertex_map_spec (f f' : GraphMap) :
  update_vertex_map f = Ok f' →
  domain f' = domain f ∧ codomain f' = codomain f ∧ edge_map f' = edge_map f
  ∧ ∃ vm, vertex_map f' = Some vm
     ∧ (∀ v, is_Some (vm !! v) ↔ carried f v)
     ∧ (∀ v x, vm !! v = Some x → justified f (positive_letters (domain f)) v x).
Proof.
  unfold update_vertex_map. intros H. apply bind_Ok in H as (vm & Hvm & H).
  simplify_eq. simpl. repeat split. exists vm. split; [done|].
  destruct (compute_vertex_map_entries f (positive_letters (domain f)) [] ∅ vm)
    as [Hj Hc]; [| |done|].
  - intros v x. by rewrite lookup_empty.
  - intros e c p v He. by apply elem_of_nil in He.
  - simpl in Hj, Hc. split; [|done]. intros v. split.
    + intros [x Hx]. destruct (Hj v x Hx) as (e & c & p & He & Hp & Hv).
      exists e, (c :: p). split; [done|]. split; [done|]. split; [done|].
      destruct Hv as [[? _]|[? _]]; auto.
    + intros (e & p & He & Hp & Hne & Hv). destruct p as [|c p]; [done|]. by eapply Hc.
Qed.

(** X10.  When [update_vertex_map] returns, the vertex map it stores is
    defined exactly on the vertices that carry a positive letter with
    nonempty image, and each of its entries is the one some such letter
    dictates (the initial vertex of the first letter of its image at its
    initial vertex, the terminal vertex of the last letter at its terminal
    vertex); the graphs and the edge map are untouched. *)
Theorem update_vertex_map_entries (f f' : GraphMap) :
  update_vertex_map f = Ok f' →
  domain f' = domain f ∧ codomain f' = codomain f ∧ edge_map f' = edge_map f
  ∧ ∃ vm, vertex_map f' = Some vm
     ∧ (∀ v, is_Some (vm !! v) ↔ carried f v)
     ∧ (∀ v x, vm !! v = Some x → justified f (positive_letters (domain f)) v x).
Proof. exact (update_vertex_map_spec f f'). Qed.

Lemma update_vertex_map_entries_witness :
  update_vertex_map conjugate_map
  = Ok (mkGraphMap (rose 1) (rose 2) (edge_map conjugate_map) (Some {[ 0 := 0 ]}))
  ∧ ∃ vm, Some ({[ 0 := 0 ]} : gmap vertex vertex) = Some vm
     ∧ ∀ v, is_Some (vm !! v) ↔ carried conjugate_map v.
Proof.
  assert (H : update_vertex_map conjugate_map
              = Ok (mkGraphMap (rose 1) (rose 2) (edge_map conjugate_map)
                      (Some {[ 0 := 0 ]}))) by (vm_compute; reflexivity).
  split; [exact H|].
  destruct (update_vertex_map_entries _ _ H) as (_ & _ & _ & vm & Hvm & Hc & _).
  exists vm. split; [exact Hvm|exact Hc].
Defined.

Lemma last_elem_of {X : Type} (l : list X) (x : X) : last l = Some x → x ∈ l.
Proof.
  induction l as [|y l IH]; [done|]. destruct l as [|z l].
  - intros [= ->]. by left.
  - intros H. right. by apply IH.
Qed.

Lemma last_cons_Some {X : Type} (x : X) (l : list X) : ∃ y, last (x :: l) = Some y.
Proof.
  revert x. induction l as [|z l IH]; intros x; [by exists x|].
  destruct (IH z) as [y Hy]. exists y. done.
Qed.

(** X11.  On an incidence-complete map, [update_vertex_map] returns, and
    applying the map (without a cached vertex map) to a vertex of the
    domain that carries a positive letter with nonempty image returns a
    vertex and caches the vertex map. *)
Theorem call_on_carried_vertex (f : GraphMap) (v : vertex) :
  incidence_complete f →
  vertex_map f = None →
  has_vertex (domain f) v = true →
  carried f v →
  ∃ x vm, call f (Vertex v)
          = Ok (VertexValue x, mkGraphMap (domain f) (codomain f) (edge_map f) (Some vm))
          ∧ vm !! v = Some x.
Proof.
  intros Hic Hnone Hhas Hv.
  assert (Hrun : ∃ vm, compute_vertex_map f = Ok vm).
  { unfold compute_vertex_map.
    destruct (for_each_total (λ _ : gmap vertex vertex, True) (vertex_map_step f)
                (positive_letters (domain f))) with (s := (∅ : gmap vertex vertex))
      as (vm & Hvm & _); [|done|by exists vm].
    intros vm e He _. destruct (Hic e He) as ([vi Hvi] & [vt Hvt] & p & Hp & Hcod).
    unfold vertex_map_step. rewrite (proj2 (image_Ok f e p) Hp), bind_Ok_l.
    destruct p as [|c p]; [by eexists|].
    destruct (Hcod c) as [[x Hx] _]; [by left|].
    destruct (last_cons_Some c p) as [cl Hl].
    destruct (Hcod cl) as [_ [y Hy]]; [by apply last_elem_of|].
    assert (Hlast : last_letter (c :: p) = Ok cl) by (unfold last_letter; by rewrite Hl).
    unfold initial_vertex, terminal_vertex. cbn [first_letter]. rewrite bind_Ok_l.
    rewrite (proj2 (getitem_Ok _ _ _) Hx), bind_Ok_l.
    rewrite (proj2 (getitem_Ok _ _ _) Hvi), bind_Ok_l.
    rewrite Hlast, bind_Ok_l.
    rewrite (proj2 (getitem_Ok _ _ _) Hy), bind_Ok_l.
    rewrite (proj2 (getitem_Ok _ _ _) Hvt), bind_Ok_l. by eexists. }
  destruct Hrun as [vm Hvm].
  assert (Hupd : update_vertex_map f
                 = Ok (mkGraphMap (domain f) (codomain f) (edge_map f) (Some vm))).
  { unfold update_vertex_map. by rewrite Hvm. }
  destruct (update_vertex_map_spec _ _ Hupd) as (_ & _ & _ & vm' & Hvm' & Hc & _).
  simpl in Hvm'. simplify_eq. destruct (proj2 (Hc v) Hv) as [x Hx].
  exists x, vm'. split; [|done].
  unfold call. rewrite Hhas, Hnone, Hupd, bind_Ok_l. simpl.
  by rewrite (proj2 (getitem_Ok _ _ _) Hx).
Qed.

Lemma call_on_carried_vertex_witness :
  incidence_complete conjugate_map
  ∧ vertex_map conjugate_map = None
  ∧ has_vertex (domain conjugate_map) 0 = true
  ∧ carried conjugate_map 0
  ∧ ∃ x vm, call conjugate_map (Vertex 0)
            = Ok (VertexValue x,
                  mkGraphMap (rose 1) (rose 2) (edge_map conjugate_map) (Some vm))
            ∧ vm !! 0 = Some x.
Proof.
  assert (Hic : incidence_complete conjugate_map).
  { intros e He. vm_compute in He. apply list_elem_of_singleton in He as ->.
    split; [by eexists|]. split; [by eexists|].
    exists [Pos 0; Pos 1; Neg 0]. split; [reflexivity|]. intros c Hc.
    repeat (apply elem_of_cons in Hc as [->|Hc]; [split; by eexists|]).
    by apply elem_of_nil in Hc. }
  assert (Hv : carried conjugate_map 0).
  { exists (Pos 0), [Pos 0; Pos 1; Neg 0]. split; [vm_compute; set_solver|].
    split; [reflexivity|]. split; [done|]. by left. }
  split; [exact Hic|]. split; [reflexivity|]. split; [reflexivity|]. split; [exact Hv|].
  exact (call_on_carried_vertex conjugate_map 0 Hic eq_refl eq_refl Hv).
Defined.

(** ** [tighten]: failure and the case where nothing is to be stripped *)

Lemma image_dict_steps_Raise (f : GraphMap) (l : list letter) (d0 : gmap letter word)
  (a : letter) :
  a ∈ l → edge_map f !! a = None →
  for_each (λ d a, u ← image f a; Ok (<[a := u]> d)) d0 l = Raise LetterNotInDomain.
Proof.
  intros Ha Hnone. revert d0. induction l as [|b l IH]; intros d0.
  - by apply elem_of_nil in Ha.
  - cbn [for_each]. destruct (edge_map f !! b) as [u|] eqn:Hu.
    + rewrite (proj2 (image_Ok f b u) Hu), !bind_Ok_l.
      apply elem_of_cons in Ha as [->|Ha]; [congruence|]. by apply IH.
    + by rewrite (image_unmapped f b Hu).
Qed.

(** X12.  [tighten] raises, whatever the fuel, when some letter of the
    alphabet of the domain has no stored image: reading the images fails
    before the loop starts. *)
Theorem tighten_missing_image (fuel : nat) (f : GraphMap) (a : letter) :
  a ∈ letters (domain f) →
  edge_map f !! a = None →
  tighten fuel f = Raise LetterNotInDomain.
Proof.
  intros Ha Hnone. unfold tighten, image_dict.
  by rewrite (image_dict_steps_Raise f _ ∅ a Ha Hnone).
Qed.

Lemma tighten_missing_image_witness :
  Pos 1 ∈ letters (domain half_map)
  ∧ edge_map half_map !! Pos 1 = None
  ∧ tighten 5 half_map = Raise LetterNotInDomain.
Proof.
  assert (Ha : Pos 1 ∈ letters (domain half_map)) by (vm_compute; set_solver).
  split; [exact Ha|]. split; [reflexivity|].
  exact (tighten_missing_image 5 half_map (Pos 1) Ha eq_refl).
Defined.

(** What a nonempty prefix left by the first inner loop says about the
    letters seen so far. *)
Lemma prefix_pass_sound (G1 G2 : GraphWithInverses) (em : gmap letter word)
  (l l0 : list letter) (prefix0 prefix : gmap vertex word) :
  (∀ v c q, prefix0 !! v = Some (c :: q) →
     (∃ a w, a ∈ l0 ∧ initial G1 !! a = Some v ∧ em !! a = Some (c :: w))
     ∧ ∀ a w, a ∈ l0 → initial G1 !! a = Some v → em !! a = Some w → w ≠ [] →
              head w = Some c) →
  (∀ v, prefix0 !! v = None →
     ∀ a w, a ∈ l0 → initial G1 !! a = Some v → em !! a = Some w → w = []) →
  for_each (prefix_step G1 G2 em) prefix0 l = Ok prefix →
  ∀ v c q, prefix !! v = Some (c :: q) →
     (∃ a w, a ∈ l0 ++ l ∧ initial G1 !! a = Some v ∧ em !! a = Some (c :: w))
     ∧ ∀ a w, a ∈ l0 ++ l → initial G1 !! a = Some v → em !! a = Some w → w ≠ [] →
              head w = Some c.
Proof.
  revert l0 prefix0. induction l as [|a l IH]; intros l0 prefix0 Hsome Hnone Hrun.
  - simpl in Hrun. simplify_eq. by rewrite app_nil_r.
  - cbn [for_each] in Hrun. apply bind_Ok in Hrun as (prefix1 & Hstep & Hrun).
    replace (l0 ++ a :: l) with ((l0 ++ [a]) ++ l) by (by rewrite <- app_assoc).
    unfold prefix_step, initial_vertex in Hstep.
    apply bind_Ok in Hstep as (u & Hu & Hstep). apply getitem_Ok in Hu.
    apply bind_Ok in Hstep as (va & Hva & Hstep). apply getitem_Ok in Hva.
    assert (Hex : ∀ v c (P : Prop),
              (∃ b w, b ∈ l0 ∧ initial G1 !! b = Some v ∧ em !! b = Some (c :: w)) →
              ∃ b w, b ∈ l0 ++ [a] ∧ initial G1 !! b = Some v ∧ em !! b = Some (c :: w)).
    { intros v c _ (b & w & Hb & H). exists b, w. split; [|done].
      apply elem_of_app. by left. }
    apply (IH (l0 ++ [a]) prefix1); [| |done].
    + intros v c q Hq.
      destruct u as [|x u].
      { simplify_eq. destruct (Hsome v c q Hq) as [H1 H2]. split; [by apply (Hex v c True)|].
        intros b w Hb Hbv Hbw Hne. apply elem_of_app in Hb as [Hb|Hb]; [by eapply H2|].
        apply list_elem_of_singleton in Hb as ->. congruence. }
      destruct (decide (v = va)) as [->|Hv].
      * destruct (prefix0 !! va) as [[|y q0]|] eqn:Hp0; simplify_eq.
        -- rewrite lookup_insert_eq in Hq. unfold common_prefix_length in Hq.
           simpl in Hq. destruct (decide (x = y)) as [->|Hxy]; [|done].
           simpl in Hq. simplify_eq.
           destruct (Hsome va c q0 Hp0) as [H1 H2]. split; [by apply (Hex va c True)|].
           intros b w Hb Hbv Hbw Hne. apply elem_of_app in Hb as [Hb|Hb]; [by eapply H2|].
           apply list_elem_of_singleton in Hb as ->. by simplify_eq.
        -- rewrite lookup_insert_eq in Hq. simplify_eq. split.
           ++ exists a, q. split; [|done]. apply elem_of_app. right. by left.
           ++ intros b w Hb Hbv Hbw Hne. apply elem_of_app in Hb as [Hb|Hb].
              ** by rewrite (Hnone va Hp0 b w Hb Hbv Hbw) in Hne.
              ** apply list_elem_of_singleton in Hb as ->. by simplify_eq.
      * assert (Hq0 : prefix0 !! v = Some (c :: q)).
        { destruct (prefix0 !! va) as [[|y q0]|]; simplify_eq; try done;
            by rewrite lookup_insert_ne in Hq. }
        destruct (Hsome v c q Hq0) as [H1 H2]. split; [by apply (Hex v c True)|].
        intros b w Hb Hbv Hbw Hne. apply elem_of_app in Hb as [Hb|Hb]; [by eapply H2|].
        apply list_elem_of_singleton in Hb as ->. congruence.
    + intros v Hq b w Hb Hbv Hbw.
      assert (Hq0 : prefix0 !! v = None ∧ (v = va → u = [])).
      { destruct u as [|x u]; [by simplify_eq|].
        destruct (prefix0 !! va) as [[|y q0]|] eqn:Hp0; simplify_eq.
        - split; [done|]. intros ->. congruence.
        - apply lookup_insert_None in Hq as [? ?]. done.
        - apply lookup_insert_None in Hq as [? ?]. done. }
      destruct Hq0 as [Hq0 Hnil].
      apply elem_of_app in Hb as [Hb|Hb]; [by eapply Hnone|].
      apply list_elem_of_singleton in Hb as ->. simplify_eq. by apply Hnil.
Qed.

Lemma strip_pass_skip (G1 G2 : GraphWithInverses) (prefix : gmap vertex word)
  (l : list letter) (st : gmap letter word * bool) :
  (∀ a, a ∈ l → ∃ v, initial G1 !! a = Some v
                     ∧ (prefix !! v = None ∨ prefix !! v = Some [])) →
  for_each (strip_step G1 G2 prefix) st l = Ok st.
Proof.
  induction l as [|a l IH]; intros Hl; [done|].
  destruct (Hl a) as (v & Hv & Hp); [by left|]. cbn [for_each].
  assert (Hstep : strip_step G1 G2 prefix st a = Ok st).
  { unfold strip_step, initial_vertex. rewrite (proj2 (getitem_Ok _ _ _) Hv), bind_Ok_l.
    by destruct Hp as [-> | ->]. }
  rewrite Hstep, bind_Ok_l. apply IH. intros b Hb. apply Hl. by right.
Qed.

(** X13.  On a map that satisfies the invariant, whose letters all have
    an image and an initial vertex, and in which no vertex has a common
    prefix to strip, [tighten] returns at once and keeps the graphs and
    the image of every letter of the domain. *)
Theorem tighten_nothing_to_strip (k : nat) (f : GraphMap) :
  inverse_consistent f →
  (∀ a, a ∈ letters (domain f) →
        is_Some (edge_map f !! a) ∧ is_Some (initial (domain f) !! a)) →
  (∀ v, ¬ strippable f v) →
  ∃ f', tighten (S k) f = Ok f'
        ∧ domain f' = domain f ∧ codomain f' = codomain f
        ∧ ∀ a, a ∈ letters (domain f) → edge_map f' !! a = edge_map f !! a.
Proof.
  intros Hf Hall Hns.
  destruct (image_dict_steps_total f (letters (domain f)) ∅) as [em Hem].
  { intros a Ha. by apply Hall. }
  pose proof (image_dict_steps_lookup _ _ _ _ Hem) as Hlook.
  pose proof (image_dict_invariant f em Hf Hem) as [Hc Hdom].
  assert (Hag : ∀ a, a ∈ letters (domain f) → em !! a = edge_map f !! a).
  { intros a Ha. by rewrite Hlook, decide_True. }
  destruct (for_each_total (λ _ : gmap vertex word, True)
              (prefix_step (domain f) (domain f) em) (letters (domain f)))
    with (s := (∅ : gmap vertex word)) as (prefix & Hp & _); [|done|].
  { intros p a Ha _. destruct (Hall a Ha) as [[u Hu] [v Hv]].
    unfold prefix_step, initial_vertex. rewrite <- (Hag a Ha) in Hu.
    rewrite (proj2 (getitem_Ok _ _ _) Hu), bind_Ok_l.
    rewrite (proj2 (getitem_Ok _ _ _) Hv), bind_Ok_l.
    destruct u; [by eexists|]. destruct (p !! v) as [[|]|]; by eexists. }
  assert (Hskip : ∀ a, a ∈ letters (domain f) →
            ∃ v, initial (domain f) !! a = Some v
                 ∧ (prefix !! v = None ∨ prefix !! v = Some [])).
  { intros a Ha. destruct (Hall a Ha) as [_ [v Hv]]. exists v. split; [done|].
    destruct (prefix !! v) as [[|c q]|] eqn:Hq; auto. exfalso.
    destruct (prefix_pass_sound _ _ _ _ [] _ _
                ltac:(intros ? ? ?; by rewrite lookup_empty)
                ltac:(intros ? ? b ? Hb; by apply elem_of_nil in Hb)
                Hp v c q Hq) as [(b & w & Hb & Hbv & Hbw) Hcommon].
    simpl in Hb, Hcommon. apply (Hns v). exists c. split.
    - exists b. split; [done|]. split; [done|]. unfold first_of.
      by rewrite <- (Hag b Hb), Hbw.
    - intros b' w' Hb' Hbv' Hbw'. apply (Hcommon b' w'); [done|done|by rewrite Hag]. }
  assert (Hit : tighten_iteration (domain f) (domain f) (letters (domain f)) em
                = Ok (em, true)).
  { unfold tighten_iteration. rewrite Hp, bind_Ok_l. by apply strip_pass_skip. }
  destruct (set_edge_map_total f em) as [f' Hset].
  exists f'. split.
  - unfold tighten, image_dict. rewrite Hem, bind_Ok_l. cbn [tighten_loop].
    by rewrite Hit, !bind_Ok_l.
  - destruct (set_edge_map_frame _ _ _ Hset) as (? & ? & _). split; [done|]. split; [done|].
    intros a Ha. by rewrite (set_edge_map_consistent_id f f' em Hc Hset), Hag.
Qed.

Lemma tighten_nothing_to_strip_witness :
  inverse_consistent conjugate_map_tight
  ∧ (∀ a, a ∈ letters (domain conjugate_map_tight) →
          is_Some (edge_map conjugate_map_tight !! a)
          ∧ is_Some (initial (domain conjugate_map_tight) !! a))
  ∧ (∀ v, ¬ strippable conjugate_map_tight v)
  ∧ ∃ f', tighten 1 conjugate_map_tight = Ok f'
          ∧ ∀ a, a ∈ letters (domain conjugate_map_tight) →
                 edge_map f' !! a = edge_map conjugate_map_tight !! a.
Proof.
  assert (Hc : inverse_consistent conjugate_map_tight).
  { apply (init_consistent (rose 1) (rose 2) {[ Pos 0 := [Pos 1] ]} None).
    vm_compute. reflexivity. }
  assert (Hall : ∀ a, a ∈ letters (domain conjugate_map_tight) →
            is_Some (edge_map conjugate_map_tight !! a)
            ∧ is_Some (initial (domain conjugate_map_tight) !! a)).
  { intros a Ha. vm_compute in Ha.
    repeat (apply elem_of_cons in Ha as [->|Ha]; [split; by eexists|]).
    by apply elem_of_nil in Ha. }
  assert (Hns : ∀ v, ¬ strippable conjugate_map_tight v).
  { intros v (c & (a & Ha & Hav & _) & Hcommon).
    assert (Hv : v = 0).
    { vm_compute in Ha.
      repeat (apply elem_of_cons in Ha as [->|Ha];
              [vm_compute in Hav; by injection Hav|]).
      by apply elem_of_nil in Ha. }
    subst v.
    assert (H1 : head [Pos 1] = Some c).
    { apply (Hcommon (Pos 0)); [vm_compute; set_solver|reflexivity|reflexivity|done]. }
    assert (H2 : head [Neg 1] = Some c).
    { apply (Hcommon (Neg 0)); [vm_compute; set_solver|reflexivity|reflexivity|done]. }
    simpl in H1, H2. congruence. }
  split; [exact Hc|]. split; [exact Hall|]. split; [exact Hns|].
  destruct (tighten_nothing_to_strip 0 conjugate_map_tight Hc Hall Hns)
    as (f' & Hf' & _ & _ & Himg).
  exists f'. auto.
Defined.

(** ** Illegal turns, folding and subdivision: edge cases *)

Lemma illegal_turns_nonempty_witness :
  (∀ t, t ∈ turns (domain doubled_map) →
        is_Some (first_of doubled_map t.1) ∧ is_Some (first_of doubled_map t.2))
  ∧ illegal_turns doubled_map (turns (domain doubled_map))
    = Ok [(Pos 0, Pos 1); (Neg 0, Neg 1)].
Proof.
  assert (H : ∀ t, t ∈ turns (domain doubled_map) →
                   is_Some (first_of doubled_map t.1) ∧ is_Some (first_of doubled_map t.2)).
  { intros t Ht. vm_compute in Ht.
    repeat (apply elem_of_cons in Ht as [->|Ht]; [split; by eexists|]).
    by apply elem_of_nil in Ht. }
  split; [exact H|].
  rewrite (illegal_turns_nonempty doubled_map _ H). vm_compute. reflexivity.
Defined.

Lemma subdivide_long_short (f : GraphMap) (l : list letter) :
  (∀ a, a ∈ l → ∃ u, edge_map f !! a = Some u ∧ length u ≤ 1) →
  for_each subdivide_long f l = Ok f.
Proof.
  induction l as [|a l IH]; intros Hl; [done|].
  destruct (Hl a) as (u & Hu & Hlen); [by left|]. cbn [for_each].
  assert (Hstep : subdivide_long f a = Ok f).
  { unfold subdivide_long. rewrite (proj2 (image_Ok f a u) Hu), bind_Ok_l.
    by rewrite decide_False by lia. }
  rewrite Hstep, bind_Ok_l. apply IH. intros b Hb. apply Hl. by right.
Qed.

(** X15.  [folding] returns the map as it is, without using any fuel,
    when the letters [A] iterates over all have an image of at most one
    letter and [illegal_turns] finds no illegal turn among the turns of
    the domain. *)
Theorem folding_immersion (order : set_order) (fuel : nat)
  (it : GraphWithInverses → list letter) (f : GraphMap) :
  (∀ a, a ∈ it (domain f) → ∃ u, edge_map f !! a = Some u ∧ length u ≤ 1) →
  illegal_turns f (turns (domain f)) = Ok [] →
  folding order fuel (Some it) f = Ok f.
Proof.
  intros Hshort Hil. unfold folding, lookup_A.
  rewrite bind_Ok_l, (subdivide_long_short f _ Hshort), bind_Ok_l, Hil, bind_Ok_l.
  by destruct fuel.
Qed.

Lemma folding_immersion_witness :
  (∀ a, a ∈ letters (domain doubled_map_folded) →
        ∃ u, edge_map doubled_map_folded !! a = Some u ∧ length u ≤ 1)
  ∧ illegal_turns doubled_map_folded (turns (domain doubled_map_folded)) = Ok []
  ∧ folding list_set 0 (Some letters) doubled_map_folded = Ok doubled_map_folded.
Proof.
  assert (H : ∀ a, a ∈ letters (domain doubled_map_folded) →
                   ∃ u, edge_map doubled_map_folded !! a = Some u ∧ length u ≤ 1).
  { intros a Ha. vm_compute in Ha.
    repeat (apply elem_of_cons in Ha as [->|Ha];
            [eexists; split; [reflexivity|simpl; lia]|]).
    by apply elem_of_nil in Ha. }
  split; [exact H|]. split; [reflexivity|].
  exact (folding_immersion list_set 0 letters doubled_map_folded H eq_refl).
Defined.

(** X16.  [subdivide_domain] raises [IndexError] on a letter whose
    stored image is the empty path: taking the first letter of the image
    fails. *)
Theorem subdivide_domain_empty_image (f : GraphMap) (e : letter) :
  edge_map f !! e = Some [] →
  subdivide_domain f e = Raise IndexError.
Proof.
  intros He. unfold subdivide_domain.
  by rewrite (proj2 (image_Ok f e []) He), bind_Ok_l.
Qed.

Lemma subdivide_domain_empty_image_witness :
  edge_map constant_map !! Pos 0 = Some []
  ∧ subdivide_domain constant_map (Pos 0) = Raise IndexError.
Proof.
  split; [reflexivity|].
  exact (subdivide_domain_empty_image constant_map (Pos 0) eq_refl).
Defined.

(** ** The result of [inverse] *)

(** After a [for] loop that returns: a property that the body
    establishes for the item it treats, and that later turns keep, holds
    for every item. *)
Lemma for_each_covers {S X : Type} (P : X → S → Prop) (body : S → X → result S)
  (l : list X) :
  (∀ s x s', body s x = Ok s' → P x s') →
  (∀ s x s' y, body s x = Ok s' → P y s → P y s') →
  ∀ s s', for_each body s l = Ok s' → ∀ x, x ∈ l → P x s'.
Proof.
  intros Hest Hkeep. induction l as [|y l IH]; intros s s' Hrun x Hx.
  - by apply elem_of_nil in Hx.
  - cbn [for_each] in Hrun. apply bind_Ok in Hrun as (s1 & Hstep & Hrun).
    apply elem_of_cons in Hx as [->|Hx]; [|by eapply IH].
    pose proof (Hest _ _ _ Hstep) as Hy. clear Hstep IH.
    revert s1 Hy Hrun. induction l as [|z l IH]; intros s1 Hy Hrun.
    + simpl in Hrun. by simplify_eq.
    + cbn [for_each] in Hrun. apply bind_Ok in Hrun as (s2 & Hstep & Hrun).
      apply (IH s2); [by eapply Hkeep|done].
Qed.

(** X17.  When [inverse] returns, the map it returns goes from the
    codomain to the domain, has no cached vertex map, satisfies the
    invariant of the edge map, and has an image for every letter of its
    domain. *)
Theorem inverse_result
  (spanning_tree : GraphWithInverses → gmap vertex word)
  (automorphism_inverse : gmap letter word → result (gmap letter word))
  (f g : GraphMap) :
  inverse spanning_tree automorphism_inverse f = Ok g →
  domain g = codomain f ∧ codomain g = domain f ∧ vertex_map g = None
  ∧ inverse_consistent g
  ∧ ∀ a, a ∈ letters (domain g) → is_Some (edge_map g !! a).
Proof.
  intros Hinv. pose proof (inverse_consistent_result _ _ _ _ Hinv) as Hc.
  unfold inverse in Hinv. apply bind_Ok in Hinv as ([[phi tr] em0] & _ & Hinv).
  apply bind_Ok in Hinv as (psi & _ & Hinv).
  apply bind_Ok in Hinv as ([em i] & Hloop & Hinit).
  apply init_inv in Hinit as (g0 & Hset & ->). simpl.
  split; [done|]. split; [done|]. split; [done|]. split; [done|].
  assert (Hpos : ∀ a, a ∈ positive_letters (codomain f) → is_Some (em !! a)).
  { intros a Ha.
    apply (for_each_covers (λ a (st : gmap letter word * nat), is_Some (st.1 !! a))
             _ _ ) with (x := a) in Hloop; [done| | |done].
    - intros [em1 i1] b [em2 i2]. unfold back_step.
      destruct (em1 !! b) as [w|] eqn:Hb; [intros; simplify_eq; simpl; eauto|].
      intros H. apply bind_Ok in H as (Ai & _ & H). apply bind_Ok in H as (img & _ & H).
      apply bind_Ok in H as (r & _ & H). simplify_eq. simpl. by rewrite lookup_insert_eq.
    - intros [em1 i1] b [em2 i2] y. unfold back_step.
      destruct (em1 !! b) as [w|] eqn:Hb; [intros; by simplify_eq|].
      intros H Hy. apply bind_Ok in H as (Ai & _ & H). apply bind_Ok in H as (img & _ & H).
      apply bind_Ok in H as (r & _ & H). simplify_eq. simpl in *.
      rewrite lookup_insert_is_Some'. auto. }
  intros a Ha. apply elem_of_letters in Ha.
  destruct (edge_map g0 !! a) as [w|] eqn:Hw; [by eexists|]. exfalso.
  apply (set_edge_map_unmapped _ _ _ a Hset) in Hw as [H1 H2].
  destruct Ha as [Ha|Ha]; apply Hpos in Ha as [? ?]; congruence.
Qed.

Lemma inverse_result_witness :
  inverse rose_tree identity_inverse (identity_map (rose 1)) = Ok (identity_map (rose 1))
  ∧ inverse_consistent (identity_map (rose 1))
  ∧ ∀ a, a ∈ letters (rose 1) → is_Some (edge_map (identity_map (rose 1)) !! a).
Proof.
  assert (H : inverse rose_tree identity_inverse (identity_map (rose 1))
              = Ok (identity_map (rose 1))) by (vm_compute; reflexivity).
  split; [exact H|].
  destruct (inverse_result _ _ _ _ H) as (_ & _ & _ & Hc & Hall).
  split; [exact Hc|exact Hall].
Defined.

(** ** Subdividing an edge with an image of one letter *)

(** With no new edge, the loop of [subdivide_domain] that copies the old
    images copies the image of every letter it visits, [e] apart. *)
Lemma keep_image_steps_no_new (f : GraphMap) (e : letter) (l : list letter)
  (d0 : gmap letter word) :
  (∀ a, a ∈ l → is_Some (edge_map f !! a)) →
  ∃ d, for_each (keep_image_step f e []) d0 l = Ok d
       ∧ ∀ b, d !! b = if decide (b ∈ l ∧ b ≠ e) then edge_map f !! b else d0 !! b.
Proof.
  revert d0. induction l as [|a l IH]; intros d0 Hl.
  - exists d0. split; [done|]. intros b. rewrite decide_False; [done|].
    intros [H _]. by apply elem_of_nil in H.
  - destruct (Hl a) as [u Hu]; [by left|].
    assert (Hstep : keep_image_step f e [] d0 a
                    = Ok (if decide (a ≠ e) then <[a := u]> d0 else d0)).
    { unfold keep_image_step. rewrite filter_nil. simpl length.
      rewrite decide_True by done.
      destruct (decide (a ≠ e)); [|done]. by rewrite (proj2 (image_Ok f a u) Hu). }
    cbn [for_each]. rewrite Hstep, bind_Ok_l.
    destruct (IH (if decide (a ≠ e) then <[a := u]> d0 else d0)) as (d & Hd & Hlook).
    { intros b Hb. apply Hl. by right. }
    exists d. split; [done|]. intros b. rewrite Hlook.
    destruct (decide (b ∈ l ∧ b ≠ e)) as [[Hin Hne]|Hn].
    + rewrite decide_True; [done|]. split; [by right|done].
    + destruct (decide (b ∈ a :: l ∧ b ≠ e)) as [[Hin Hne]|Hn'].
      * apply elem_of_cons in Hin as [->|Hin]; [|naive_solver].
        rewrite decide_True by done. by rewrite lookup_insert_eq.
      * destruct (decide (a ≠ e)); [|done]. rewrite lookup_insert_ne; [done|].
        intros ->. apply Hn'. split; [by left|done].
Qed.

Lemma add_no_new_letters (G : GraphWithInverses) : add_new_letters G 0 = (G, []).
Proof. destruct G. unfold add_new_letters, new_letters. simpl. by rewrite app_nil_r. Qed.

(** X18.  On a positive letter whose image is a single letter, in a map
    that satisfies the invariant and has an image for every positive
    letter of its domain, [subdivide_domain] creates nothing: it returns
    the dictionary that sends every letter to itself and leaves the two
    graphs and the image of every letter of the domain as they were. *)
Theorem subdivide_domain_single_letter (f : GraphMap) (e c : letter) :
  inverse_consistent f →
  (∀ a, a ∈ positive_letters (domain f) → is_Some (edge_map f !! a)) →
  e ∈ positive_letters (domain f) →
  edge_map f !! e = Some [c] →
  ∃ f' rm, subdivide_domain f e = Ok (f', rm)
    ∧ domain f' = domain f ∧ codomain f' = codomain f
    ∧ (∀ a, a ∈ letters (domain f) → edge_map f' !! a = edge_map f !! a)
    ∧ (∀ a, a ∈ letters (domain f) → rm !! a = Some [a]).
Proof.
  intros Hc Hall He Hec.
  destruct (keep_image_steps_no_new f e (positive_letters (domain f)) (<[e := [c]]> ∅) Hall)
    as (d & Hd & Hlook).
  set (g := mkGraphMap (domain f) (codomain f) (edge_map f) (vertex_map f)).
  destruct (set_edge_map_total g d) as [f' Hset].
  exists f', (list_to_map ((λ a, (a, [a])) <$> letters (domain f))).
  split.
  { unfold subdivide_domain. rewrite (proj2 (image_Ok f e [c]) Hec), bind_Ok_l.
    change (Z.of_nat (length [c]) - 1)%Z with 0%Z. cbv zeta. rewrite add_no_new_letters.
    cbn [enumerate length seq zip zip_with for_each]. rewrite bind_Ok_l.
    cbn [first_letter]. rewrite bind_Ok_l, Hd, bind_Ok_l.
    fold g. by rewrite Hset. }
  destruct (set_edge_map_frame _ _ _ Hset) as (Hdom & Hcod & _).
  split; [done|]. split; [done|].
  split; [|intros a Ha; by apply identity_dict_lookup].
  assert (Hkeys : ∀ a, is_Some (d !! a) → ∃ j, a = Pos j).
  { intros a. rewrite Hlook.
    destruct (decide (a ∈ positive_letters (domain f) ∧ a ≠ e)) as [[Ha _]|_].
    - intros _. apply list_elem_of_fmap in Ha as (j & -> & _). by exists j.
    - rewrite lookup_insert_is_Some', lookup_empty. intros [->|[? ?]]; [|done].
      apply list_elem_of_fmap in He as (j & -> & _). by exists j. }
  assert (Hd_pos : ∀ b, b ∈ positive_letters (domain f) → d !! b = edge_map f !! b).
  { intros b Hb. rewrite Hlook.
    destruct (decide (b ∈ positive_letters (domain f) ∧ b ≠ e)) as [_|Hn]; [done|].
    destruct (decide (b = e)) as [->|Hbe]; [|naive_solver].
    by rewrite lookup_insert_eq. }
  assert (Hpos : ∀ b, b ∈ positive_letters (domain f) →
                      ∃ w, edge_map f !! b = Some w ∧ edge_map f' !! b = Some w).
  { intros b Hb. destruct (Hall b Hb) as [w Hw]. exists w. split; [done|].
    pose proof Hb as Hb'. apply list_elem_of_fmap in Hb' as (j & -> & _).
    rewrite (set_edge_map_positive_keys g f' d j w Hkeys Hset)
      by (by rewrite Hd_pos).
    f_equal. apply reduce_word_reduced. by destruct (Hc _ _ Hw) as (_ & ? & _). }
  intros a Ha. apply elem_of_letters in Ha as [Ha|Ha].
  - destruct (Hpos a Ha) as (w & -> & ->). done.
  - destruct (Hpos _ Ha) as (w & Hw & Hw').
    destruct (Hc _ _ Hw) as (Hi & _).
    destruct (set_edge_map_consistent _ _ _ Hset _ _ Hw') as (Hi' & _).
    rewrite inverse_letter_involutive in Hi, Hi'. by rewrite Hi, Hi'.
Qed.

Lemma subdivide_domain_single_letter_witness :
  inverse_consistent doubled_map
  ∧ (∀ a, a ∈ positive_letters (domain doubled_map) →
          is_Some (edge_map doubled_map !! a))
  ∧ Pos 1 ∈ positive_letters (domain doubled_map)
  ∧ edge_map doubled_map !! Pos 1 = Some [Pos 0]
  ∧ ∃ f' rm, subdivide_domain doubled_map (Pos 1) = Ok (f', rm)
      ∧ domain f' = domain doubled_map
      ∧ ∀ a, a ∈ letters (domain doubled_map) →
             edge_map f' !! a = edge_map doubled_map !! a.
Proof.
  assert (Hc : inverse_consistent doubled_map).
  { apply (init_consistent (rose 2) (rose 1)
             {[ Pos 0 := [Pos 0]; Pos 1 := [Pos 0] ]} None).
    vm_compute. reflexivity. }
  assert (Hall : ∀ a, a ∈ positive_letters (domain doubled_map) →
                      is_Some (edge_map doubled_map !! a)).
  { intros a Ha. vm_compute in Ha.
    repeat (apply elem_of_cons in Ha as [->|Ha]; [by eexists|]).
    by apply elem_of_nil in Ha. }
  assert (He : Pos 1 ∈ positive_letters (domain doubled_map)).
  { vm_compute. apply list_elem_of_further, list_elem_of_here. }
  split; [exact Hc|]. split; [exact Hall|]. split; [exact He|]. split; [reflexivity|].
  destruct (subdivide_domain_single_letter doubled_map (Pos 1) (Pos 0) Hc Hall He eq_refl)
    as (f' & rm & Hrun & Hdom & _ & Himg & _).
  exists f', rm. auto.
Defined.

(** ** The map on paths *)

(** X19.  On a map that satisfies the invariant, a path and its reduction
    have the same image: the map is well defined on homotopy classes of
    paths. *)
Theorem apply_path_reduce (f : GraphMap) (w u : word) :
  inverse_consistent f →
  apply_path f w = Ok u →
  apply_path f (reduce_path (domain f) w) = Ok u.
Proof.
  intros Hf Hw. unfold apply_path in *. apply bind_Ok in Hw as (y & Hy & Hw).
  destruct (apply_reduce _ _ _ Hf Hy) as (y' & Hy' & Hred).
  unfold reduce_path in *. rewrite Hy', bind_Ok_l. simplify_eq. by rewrite Hred.
Qed.

Lemma apply_path_reduce_witness :
  inverse_consistent conjugate_map
  ∧ apply_path conjugate_map [Pos 0; Pos 0; Neg 0] = Ok [Pos 0; Pos 1; Neg 0]
  ∧ apply_path conjugate_map (reduce_path (domain conjugate_map) [Pos 0; Pos 0; Neg 0])
    = Ok [Pos 0; Pos 1; Neg 0].
Proof.
  assert (Hc : inverse_consistent conjugate_map).
  { apply (init_consistent (rose 1) (rose 2) {[ Pos 0 := [Pos 0; Pos 1; Neg 0] ]} None).
    vm_compute. reflexivity. }
  split; [exact Hc|]. split; [reflexivity|].
  exact (apply_path_reduce conjugate_map [Pos 0; Pos 0; Neg 0] _ Hc eq_refl).
Defined.

(** X20.  The image of a concatenation of two paths is the reduction of
    the concatenation of their images. *)
Theorem apply_path_app (f : GraphMap) (u v x y : word) :
  apply_path f u = Ok x →
  apply_path f v = Ok y →
  apply_path f (u ++ v) = Ok (reduce_path (codomain f) (x ++ y)).
Proof.
  unfold apply_path, reduce_path. intros Hu Hv.
  apply bind_Ok in Hu as (x0 & Hx0 & Hu). apply bind_Ok in Hv as (y0 & Hy0 & Hv).
  simplify_eq. rewrite (apply_app _ _ _ _ _ Hx0 Hy0), bind_Ok_l.
  by rewrite <- reduce_word_app.
Qed.

Lemma apply_path_app_witness :
  apply_path conjugate_map [Pos 0] = Ok [Pos 0; Pos 1; Neg 0]
  ∧ apply_path conjugate_map [Pos 0; Pos 0] = Ok [Pos 0; Pos 1; Pos 1; Neg 0].
Proof.
  split; [reflexivity|].
  exact (apply_path_app conjugate_map [Pos 0] [Pos 0] _ _ eq_refl eq_refl).
Defined.

(** X21.  The product acts on paths as the composition: for maps [f] and
    [g] that satisfy the invariant, the image of a path by [f * g] is the
    image by [f] of its image by [g]. *)
Theorem mul_apply_path (f g h : GraphMap) (w z : word) :
  inverse_consistent f → inverse_consistent g →
  mul f g = Ok h →
  apply_path h w = Ok z →
  ∃ x, apply_path g w = Ok x ∧ apply_path f x = Ok z.
Proof.
  intros Hf Hg Hmul Hz. unfold apply_path in *.
  apply bind_Ok in Hz as (z0 & Hz0 & Hz).
  destruct (apply_mul _ _ _ _ _ Hf Hg Hmul Hz0) as (x & y & Hx & Hy & Hred).
  destruct (apply_reduce _ _ _ Hf Hy) as (y' & Hy' & Hred').
  exists (reduce_path (codomain g) x). unfold reduce_path in *.
  rewrite Hx, bind_Ok_l. split; [done|].
  rewrite Hy', bind_Ok_l. simplify_eq. by rewrite Hred', Hred.
Qed.

Lemma mul_apply_path_witness :
  inverse_consistent conjugate_map ∧ inverse_consistent square_map
  ∧ ∃ h z, mul conjugate_map square_map = Ok h
      ∧ apply_path h [Pos 0; Neg 0; Pos 0] = Ok z
      ∧ ∃ x, apply_path square_map [Pos 0; Neg 0; Pos 0] = Ok x
             ∧ apply_path conjugate_map x = Ok z.
Proof.
  assert (Hc : inverse_consistent conjugate_map).
  { apply (init_consistent (rose 1) (rose 2) {[ Pos 0 := [Pos 0; Pos 1; Neg 0] ]} None).
    vm_compute. reflexivity. }
  assert (Hs : inverse_consistent square_map).
  { apply (init_consistent (rose 1) (rose 1) {[ Pos 0 := [Pos 0; Pos 0] ]} None).
    vm_compute. reflexivity. }
  split; [exact Hc|]. split; [exact Hs|].
  destruct (mul conjugate_map square_map) as [h| |] eqn:Hh;
    [|vm_compute in Hh; discriminate Hh..].
  destruct (apply_path h [Pos 0; Neg 0; Pos 0]) as [z| |] eqn:Hz;
    [|vm_compute in Hh; injection Hh as <-; vm_compute in Hz; discriminate Hz..].
  exists h, z. split; [reflexivity|]. split; [exact Hz|].
  exact (mul_apply_path _ _ _ _ _ Hc Hs Hh Hz).
Defined.

(** * The invariant on the whole alphabet of the domain *)

(** ** What [set_edge_map] needs *)

Lemma on_alphabet_intro (f : GraphMap) :
  inverse_consistent f →
  (∀ a, a ∈ letters (domain f) → is_Some (edge_map f !! a)) →
  inverse_consistent_on_alphabet f.
Proof.
  intros Hc Hall a Ha. destruct (Hall a Ha) as [w Hw]. exists w.
  split; [done|]. by apply Hc.
Qed.

Lemma on_alphabet_defined (f : GraphMap) (a : letter) :
  inverse_consistent_on_alphabet f → a ∈ letters (domain f) → is_Some (edge_map f !! a).
Proof. intros H Ha. destruct (H a Ha) as (w & Hw & _). by exists w. Qed.

(** After [set_edge_map] the invariant holds on the whole alphabet of
    the domain exactly when the given edge map covers that alphabet. *)
Lemma set_edge_map_on_alphabet (f f' : GraphMap) (spec : gmap letter word) :
  set_edge_map f spec = Ok f' →
  inverse_consistent_on_alphabet f' ↔ covers (domain f) spec.
Proof.
  intros Hset. destruct (set_edge_map_frame _ _ _ Hset) as (Hdom & _ & _).
  pose proof (set_edge_map_unmapped f f' spec) as Hun. split.
  - intros Hinv a Ha. rewrite <- Hdom in Ha.
    destruct (on_alphabet_defined _ _ Hinv Ha) as [w Hw].
    destruct (spec !! a) as [u|] eqn:Hu; [left; by eexists|]. right.
    destruct (spec !! inverse_letter a) as [u|] eqn:Hi; [by eexists|].
    assert (edge_map f' !! a = None) by (apply (Hun a Hset); done). congruence.
  - intros Hcov. apply on_alphabet_intro; [by eapply set_edge_map_consistent|].
    intros a Ha. rewrite Hdom in Ha.
    destruct (edge_map f' !! a) as [w|] eqn:Hw; [by eexists|].
    apply (Hun a Hset) in Hw as [H1 H2].
    destruct (Hcov a Ha) as [[? ?]|[? ?]]; congruence.
Qed.

Lemma covers_positive (G : GraphWithInverses) (d : gmap letter word) :
  (∀ a, a ∈ positive_letters G → is_Some (d !! a)) → covers G d.
Proof.
  intros H a Ha. apply elem_of_letters in Ha as [Ha|Ha]; [left|right]; by apply H.
Qed.

Lemma covers_letters (G : GraphWithInverses) (d : gmap letter word) :
  (∀ a, a ∈ letters G → is_Some (d !! a)) → covers G d.
Proof. intros H a Ha. left. by apply H. Qed.

Lemma init_on_alphabet (dom cod : GraphWithInverses) (spec : gmap letter word)
  (vmap : option (gmap vertex vertex)) (f : GraphMap) :
  covers dom spec → init dom cod spec vmap = Ok f → inverse_consistent_on_alphabet f.
Proof.
  intros Hcov Hinit. apply init_inv in Hinit as (f0 & Hset & ->).
  pose proof (proj2 (set_edge_map_on_alphabet _ _ _ Hset) Hcov) as H0.
  destruct (set_edge_map_frame _ _ _ Hset) as (Hdom & _ & _). simpl in Hdom.
  intros a Ha. simpl in Ha |- *. apply H0. by rewrite Hdom.
Qed.

(** ** Composition *)

Lemma compose_edge_map_on_alphabet (f f' : GraphMap) (edge_morph : gmap letter word) :
  compose_edge_map f edge_morph = Ok f' → inverse_consistent_on_alphabet f'.
Proof.
  unfold compose_edge_map. intros H. apply bind_Ok in H as (d & Hd & Hset).
  apply (set_edge_map_on_alphabet _ _ _ Hset), covers_positive. intros a Ha.
  pose (F := λ a, WordMorphism.image (edge_map f) a ≫= WordMorphism.apply edge_morph).
  apply (build_dict_lookup F) in Hd as [Hall Hlook].
  2:{ intros d0 b. unfold F. by rewrite bind_assoc. }
  destruct (Hall a Ha) as [x Hx]. rewrite Hlook, decide_True, Hx by done. by eexists.
Qed.

Lemma mul_on_alphabet (f g h : GraphMap) :
  mul f g = Ok h → inverse_consistent_on_alphabet h.
Proof.
  intros Hmul. destruct (mul_inv _ _ _ Hmul) as (rm & f0 & Hrm & _ & Hset & ->).
  apply (init_on_alphabet (domain g) (codomain f) rm None).
  - apply covers_positive. intros a Ha.
    destruct (Hrm a Ha) as (w & u & _ & _ & Hu). by eexists.
  - unfold init. rewrite Hset, bind_Ok_l.
    destruct (set_edge_map_frame _ _ _ Hset) as (-> & -> & _). done.
Qed.

(** ** [tighten] *)

(** The loop of [tighten] never removes a key of its dictionary. *)
Lemma tighten_iteration_keys (G1 G2 : GraphWithInverses) (A1 : list letter)
  (em em' : gmap letter word) (done' : bool) (b : letter) :
  tighten_iteration G1 G2 A1 em = Ok (em', done') →
  is_Some (em !! b) → is_Some (em' !! b).
Proof.
  unfold tighten_iteration. intros H Hb. apply bind_Ok in H as (prefix & _ & H).
  revert H.
  apply (for_each_invariant (λ st : gmap letter word * bool, is_Some (st.1 !! b)));
    [|done].
  intros [em1 d1] a [em2 d2] _ H1 Hstep. simpl in *.
  apply strip_step_cases in Hstep
    as [(-> & _)|[(v & pv & ua & uaa & _ & _ & _ & _ & _ & _ & -> & _)
                 |(v & pv & _ & _ & _ & _ & -> & _)]];
    [done|rewrite !lookup_insert_is_Some'; auto..].
Qed.

Lemma tighten_loop_keys (fuel : nat) (G1 G2 : GraphWithInverses) (A1 : list letter)
  (em em' : gmap letter word) (b : letter) :
  tighten_loop fuel G1 G2 A1 em = Ok em' →
  is_Some (em !! b) → is_Some (em' !! b).
Proof.
  revert em. induction fuel as [|n IH]; intros em H Hb; [done|].
  cbn [tighten_loop] in H. apply bind_Ok in H as ([em1 d1] & Hit & H).
  pose proof (tighten_iteration_keys _ _ _ _ _ _ b Hit Hb) as Hb1.
  destruct d1; [by simplify_eq|]. by eapply IH.
Qed.

Lemma tighten_on_alphabet (fuel : nat) (f f' : GraphMap) :
  tighten fuel f = Ok f' → inverse_consistent_on_alphabet f'.
Proof.
  unfold tighten. intros H. apply bind_Ok in H as (em0 & Hdict & H).
  apply bind_Ok in H as (em & Hloop & Hset).
  apply (set_edge_map_on_alphabet _ _ _ Hset), covers_letters. intros a Ha.
  apply (tighten_loop_keys _ _ _ _ _ _ a Hloop).
  unfold image_dict in Hdict.
  rewrite (image_dict_steps_lookup _ _ _ _ Hdict a), decide_True by done.
  by apply (image_dict_steps_defined _ _ _ _ Hdict).
Qed.

(** ** Subdivision *)

(** The loop of [subdivide_domain] that copies the old images never
    removes a key, and gives an image to every letter it visits that is
    neither [e] nor a new letter. *)
Lemma keep_image_steps_keys (f : GraphMap) (e : letter) (new_edges : list (letter * letter))
  (l : list letter) (d0 d : gmap letter word) :
  for_each (keep_image_step f e new_edges) d0 l = Ok d →
  (∀ b, is_Some (d0 !! b) → is_Some (d !! b))
  ∧ ∀ a, a ∈ l →
      is_Some (d !! a) ∨ a = e ∨ ∃ g, g ∈ new_edges ∧ (a = g.1 ∨ a = g.2).
Proof.
  revert d0. induction l as [|a l IH]; intros d0 Hrun.
  - simpl in Hrun. simplify_eq. split; [done|]. intros a Ha. by apply elem_of_nil in Ha.
  - cbn [for_each] in Hrun. apply bind_Ok in Hrun as (d1 & Hstep & Hrun).
    destruct (IH d1 Hrun) as [Hmono Hl].
    assert (Hstep' : (∀ b, is_Some (d0 !! b) → is_Some (d1 !! b))
                     ∧ (is_Some (d1 !! a) ∨ a = e
                        ∨ ∃ g, g ∈ new_edges ∧ (a = g.1 ∨ a = g.2))).
    { unfold keep_image_step in Hstep.
      destruct (filter (λ g : letter * letter, a = g.1 ∨ a = g.2) new_edges)
        as [|g rest] eqn:Hfil.
      - simpl in Hstep. destruct (decide (a ≠ e)) as [Hae|Hae].
        + apply bind_Ok in Hstep as (u & _ & Hstep). simplify_eq. split.
          * intros b Hb. rewrite lookup_insert_is_Some'. auto.
          * left. rewrite lookup_insert_eq. by eexists.
        + simplify_eq. split; [done|]. right; left.
          by destruct (decide (a = e)).
      - simpl in Hstep. simplify_eq. split; [done|]. right; right. exists g.
        assert (Hg : g ∈ filter (λ g : letter * letter, a = g.1 ∨ a = g.2) new_edges)
          by (rewrite Hfil; by left).
        by apply list_elem_of_filter in Hg as [? ?]. }
    destruct Hstep' as [Hmono1 Ha]. split; [by auto|].
    intros b Hb. apply elem_of_cons in Hb as [->|Hb]; [|by apply Hl].
    destruct Ha as [Ha|Ha]; [left; by apply Hmono|by right].
Qed.

Lemma elem_of_enumerate {X : Type} (l : list X) (x : X) :
  x ∈ l → ∃ i, (i, x) ∈ enumerate l.
Proof.
  intros Hx. apply list_elem_of_lookup in Hx as [i Hi]. exists i.
  apply list_elem_of_lookup. exists i. unfold enumerate.
  rewrite lookup_zip_with, lookup_seq_lt by (by eapply lookup_lt_Some).
  simpl. by rewrite Hi.
Qed.

(** The first loop of [subdivide_domain] gives an image to every new
    positive letter. *)
Lemma subdivide_steps_keys (e : letter) (w : word) (new_edges : list (letter * letter))
  (new_vs : list vertex) (st st' : GraphWithInverses * gmap letter word * gmap letter word)
  (l : list (nat * (letter * letter))) :
  for_each (subdivide_step e w new_edges new_vs) st l = Ok st' →
  ∀ ia, ia ∈ l → is_Some (st'.2 !! ia.2.1).
Proof.
  apply (for_each_covers
           (λ (ia : nat * (letter * letter))
              (s : GraphWithInverses * gmap letter word * gmap letter word),
              is_Some (s.2 !! ia.2.1))).
  - intros [[G rm] d] [i a] s' Hstep. unfold subdivide_step in Hstep.
    inv_bind. simpl. rewrite lookup_insert_eq. by eexists.
  - intros [[G rm] d] [i a] s' y Hstep Hy. unfold subdivide_step in Hstep.
    inv_bind. simpl in *. rewrite lookup_insert_is_Some'. auto.
Qed.

Lemma subdivide_domain_on_alphabet (f f' : GraphMap) (e : letter)
  (result_map : gmap letter word) :
  subdivide_domain f e = Ok (f', result_map) → inverse_consistent_on_alphabet f'.
Proof.
  unfold subdivide_domain. intros H. apply bind_Ok in H as (w & _ & H). cbv zeta in H.
  destruct (add_new_letters (domain f) (Z.of_nat (length w) - 1)) as [G0 new_edges] eqn:Hnew.
  apply bind_Ok in H as ([[G rm] d] & Hloop & H).
  apply bind_Ok in H as (w0 & _ & H). apply bind_Ok in H as (d' & Hkeep & H).
  apply bind_Ok in H as (f'' & Hset & H). simplify_eq.
  apply (set_edge_map_on_alphabet _ _ _ Hset), covers_positive. simpl.
  destruct (keep_image_steps_keys _ _ _ _ _ _ Hkeep) as [Hmono Hl].
  intros a Ha. destruct (Hl a Ha) as [Hd|[->|(g & Hg & Hag)]]; [done| |].
  - apply Hmono. rewrite lookup_insert_eq. by eexists.
  - assert (Hform : ∃ i, g = (Pos i, Neg i)).
    { unfold add_new_letters, new_letters in Hnew. simplify_eq.
      apply list_elem_of_fmap in Hg as (i & -> & _). by exists i. }
    destruct Hform as [i ->]. simpl in Hag.
    apply list_elem_of_fmap in Ha as (j & -> & _).
    destruct Hag as [Hag|Hag]; [|done]. rewrite Hag.
    apply Hmono. rewrite lookup_insert_is_Some'. right.
    destruct (elem_of_enumerate _ _ Hg) as [k Hk].
    exact (subdivide_steps_keys _ _ _ _ _ _ _ Hloop _ Hk).
Qed.

(** ** Folding *)

(** The graph after a fold has none of the edges that were identified
    with the first one. *)
Lemma fold_letters (G G' : GraphWithInverses) (e0 : letter) (rest : list letter)
  (a : letter) :
  fold G (e0 :: rest) = Ok G' → a ∈ letters G' → a ∉ rest.
Proof.
  unfold fold. intros H Ha. apply bind_Ok in H as (ve0 & _ & H).
  apply bind_Ok in H as (ends & _ & H). simplify_eq.
  unfold letters, positive_letters, negative_letters in Ha. cbn [alphabet] in Ha.
  apply elem_of_app in Ha as [Ha|Ha]; apply list_elem_of_fmap in Ha as (i & -> & Hi);
    apply list_elem_of_filter in Hi as [Hi _]; intros Hin; apply Hi;
    apply elem_of_app; [by left|right].
  apply list_elem_of_fmap. by exists (Neg i).
Qed.

Lemma fold_iteration_on_alphabet (order : set_order) (A : ambient) (f f' : GraphMap)
  (Il_turns : list (letter * letter)) :
  yields_alphabet A →
  fold_iteration order A f Il_turns = Ok f' → inverse_consistent_on_alphabet f'.
Proof.
  intros HA H. unfold fold_iteration in H.
  apply bind_Ok in H as (t & _ & H). apply bind_Ok in H as (ls & Hls & H).
  destruct A as [it|]; [|done]. simpl in Hls. simplify_eq.
  apply bind_Ok in H as (el0 & _ & H). cbv zeta in H.
  apply bind_Ok in H as (G & Hfold & H). apply bind_Ok in H as (e0 & He0 & H).
  apply bind_Ok in H as (w0 & _ & H). apply bind_Ok in H as (ls2 & Hls2 & H).
  simpl in Hls2. simplify_eq. apply bind_Ok in H as (d & Hd & Hset).
  apply (set_edge_map_on_alphabet _ _ _ Hset), covers_letters. simpl. intros a Ha.
  unfold getindex in He0. destruct (order el0) as [|x rest] eqn:Hel; [done|].
  simpl in He0. simplify_eq.
  pose proof (fold_letters _ _ _ _ a Hfold Ha) as Hrest.
  assert (Hmono : ∀ b, is_Some (({[e0 := w0]} : gmap letter word) !! b) → is_Some (d !! b)).
  { intros b Hb. revert Hd.
    apply (for_each_invariant (λ d : gmap letter word, is_Some (d !! b))); [|done].
    intros d1 c d2 _ H1 Hstep. destruct (decide (c ∈ e0 :: rest)); [by simplify_eq|].
    apply bind_Ok in Hstep as (u & _ & Hstep). simplify_eq.
    rewrite lookup_insert_is_Some'. auto. }
  destruct (decide (a = e0)) as [->|Hne].
  { apply Hmono. rewrite lookup_singleton_eq. by eexists. }
  assert (Hnot : a ∉ e0 :: rest) by (rewrite not_elem_of_cons; done).
  assert (Hin : a ∈ it G) by (by apply (HA it)).
  apply (for_each_covers (λ c (d : gmap letter word), c ∈ e0 :: rest ∨ is_Some (d !! c)))
    with (x := a) in Hd as [?|?]; [done|done| | |done].
  - intros d1 c d2 Hstep. destruct (decide (c ∈ e0 :: rest)); [by left|]. right.
    apply bind_Ok in Hstep as (u & _ & Hstep). simplify_eq.
    rewrite lookup_insert_eq. by eexists.
  - intros d1 c d2 y Hstep [Hy|Hy]; [by left|right].
    destruct (decide (c ∈ e0 :: rest)); [by simplify_eq|].
    apply bind_Ok in Hstep as (u & _ & Hstep). simplify_eq.
    rewrite lookup_insert_is_Some'. auto.
Qed.

Lemma folding_loop_on_alphabet (order : set_order) (fuel : nat) (A : ambient)
  (f f' : GraphMap) (Il_turns : list (letter * letter)) :
  yields_alphabet A → inverse_consistent_on_alphabet f →
  folding_loop order fuel A f Il_turns = Ok f' → inverse_consistent_on_alphabet f'.
Proof.
  intros HA. revert f Il_turns. induction fuel as [|n IH]; intros f Il Hf H.
  - destruct Il; simpl in H; by simplify_eq.
  - destruct Il as [|t Il]; [simpl in H; by simplify_eq|].
    cbn [folding_loop] in H. apply bind_Ok in H as (f1 & Hit & H).
    apply bind_Ok in H as (Il' & _ & H).
    eapply IH; [|exact H]. by eapply fold_iteration_on_alphabet.
Qed.

(** The first loop of [folding] reads the image of every letter it
    visits: when it returns, either nothing was subdivided and all these
    letters have an image, or the last subdivision left the invariant on
    the whole alphabet. *)
Lemma subdivide_long_loop (ls : list letter) (f f1 : GraphMap) :
  for_each subdivide_long f ls = Ok f1 →
  (f1 = f ∧ ∀ a, a ∈ ls → is_Some (edge_map f !! a))
  ∨ inverse_consistent_on_alphabet f1.
Proof.
  revert f. induction ls as [|a ls IH]; intros f H.
  - simpl in H. simplify_eq. left. split; [done|]. intros a Ha. by apply elem_of_nil in Ha.
  - cbn [for_each] in H. apply bind_Ok in H as (f2 & Hstep & H).
    unfold subdivide_long in Hstep. apply bind_Ok in Hstep as (u & Hu & Hstep).
    apply image_Ok in Hu. destruct (decide (1 < length u)).
    + apply bind_Ok in Hstep as ([f3 rm] & Hsub & Hstep). simplify_eq.
      apply subdivide_domain_on_alphabet in Hsub.
      destruct (IH _ H) as [[-> _]|?]; by right.
    + simplify_eq. destruct (IH _ H) as [[-> Hall]|?]; [left|by right].
      split; [done|]. intros b Hb. apply elem_of_cons in Hb as [->|Hb]; [by eexists|].
      by apply Hall.
Qed.

Lemma folding_on_alphabet (order : set_order) (fuel : nat) (A : ambient)
  (f f' : GraphMap) :
  inverse_consistent f → yields_alphabet A →
  folding order fuel A f = Ok f' → inverse_consistent_on_alphabet f'.
Proof.
  intros Hf HA H. unfold folding in H. apply bind_Ok in H as (ls & Hls & H).
  destruct A as [it|]; [|done]. simpl in Hls. simplify_eq.
  apply bind_Ok in H as (f1 & Hsub & H). apply bind_Ok in H as (Il & _ & H).
  eapply folding_loop_on_alphabet; [exact HA| |exact H].
  destruct (subdivide_long_loop _ _ _ Hsub) as [[-> Hall]|?]; [|done].
  apply on_alphabet_intro; [done|]. intros a Ha. apply Hall. by apply (HA it).
Qed.

(** ** Inversion *)

Lemma inverse_on_alphabet
  (spanning_tree : GraphWithInverses → gmap vertex word)
  (automorphism_inverse : gmap letter word → result (gmap letter word))
  (f g : GraphMap) :
  inverse spanning_tree automorphism_inverse f = Ok g → inverse_consistent_on_alphabet g.
Proof.
  intros Hinv. unfold inverse in Hinv.
  apply bind_Ok in Hinv as ([[phi tr] em0] & _ & Hinv).
  apply bind_Ok in Hinv as (psi & _ & Hinv).
  apply bind_Ok in Hinv as ([em i] & Hloop & Hinit).
  apply (init_on_alphabet _ _ _ _ _) in Hinit; [done|].
  apply covers_positive. intros a Ha.
  apply (for_each_covers (λ a (st : gmap letter word * nat), is_Some (st.1 !! a))
           _ _ ) with (x := a) in Hloop; [done| | |done].
  - intros [em1 i1] b [em2 i2]. unfold back_step.
    destruct (em1 !! b) as [w|] eqn:Hb; [intros; simplify_eq; simpl; eauto|].
    intros H. apply bind_Ok in H as (Ai & _ & H). apply bind_Ok in H as (img & _ & H).
    apply bind_Ok in H as (r & _ & H). simplify_eq. simpl. by rewrite lookup_insert_eq.
  - intros [em1 i1] b [em2 i2] y. unfold back_step.
    destruct (em1 !! b) as [w|] eqn:Hb; [intros; by simplify_eq|].
    intros H Hy. apply bind_Ok in H as (Ai & _ & H). apply bind_Ok in H as (img & _ & H).
    apply bind_Ok in H as (r & _ & H). simplify_eq. simpl in *.
    rewrite lookup_insert_is_Some'. auto.
Qed.

(** [list_set] is one of the orders in which a set can be listed. *)
Lemma list_set_listing : listing list_set.
Proof.
  intros l. unfold list_set. split; [apply NoDup_elements|].
  intros x. by rewrite elem_of_elements, elem_of_list_to_set.
Qed.

(** With [A] bound to letters that leave an edge of the domain out,
    [folding] can return an object in which that edge has no stored image,
    although the object it was called on satisfied the invariant on the
    whole alphabet: the condition on [A] for folding is needed. *)
Lemma folding_needs_the_alphabet :
  inverse_consistent_on_alphabet stray_map
  ∧ folding list_set 1 some_letters stray_map = Ok stray_map_folded
  ∧ ¬ inverse_consistent_on_alphabet stray_map_folded.
Proof.
  split; [|split].
  - apply (init_on_alphabet (domain stray_map) (rose 1)
             {[ Pos 0 := [Pos 0]; Pos 1 := [Pos 0]; Pos 2 := [Pos 0] ]} None);
      [|vm_compute; reflexivity].
    apply covers_positive. intros a Ha. vm_compute in Ha.
    repeat (apply elem_of_cons in Ha as [->|Ha]; [by eexists|]).
    by apply elem_of_nil in Ha.
  - vm_compute. reflexivity.
  - intros H. destruct (H (Pos 2)) as (w & Hw & _).
    + vm_compute. set_solver.
    + vm_compute in Hw. discriminate Hw.
Qed.

(** ** The theorem *)

(** C1 (as amended).  After the constructor and after [set_edge_map],
    provided the given edge map gives an image to every letter of the
    alphabet of the domain or to its inverse, and after composition
    ([__mul__], [compose_edge_map]), [tighten], subdivision, folding and
    inversion whenever they return, the inverse-consistency invariant
    holds on the whole alphabet of the domain: every letter [a] of it has
    a stored image [w], [inverse_letter a] has the stored image
    [reverse_word w], and both are reduced. *)
Theorem invariant_after_mutation (f : GraphMap) :
  produced f → inverse_consistent_on_alphabet f.
Proof.
  intros [dom cod spec vmap f' Hcov H
         |f0 spec f' Hcov H
         |f0 morph f' H
         |f0 g h H
         |fuel f0 f' H
         |f0 e f' rm H
         |order fuel A f0 f' Hf0 HA H
         |st ai f0 f' H].
  - by eapply init_on_alphabet.
  - by apply (set_edge_map_on_alphabet _ _ _ H).
  - by eapply compose_edge_map_on_alphabet.
  - by eapply mul_on_alphabet.
  - by eapply tighten_on_alphabet.
  - by eapply subdivide_domain_on_alphabet.
  - by eapply folding_on_alphabet.
  - by eapply inverse_on_alphabet.
Qed.

Lemma invariant_after_mutation_witness :
  covers (rose 1) {[ Pos 0 := [Pos 0; Pos 1; Neg 0] ]}
  ∧ init (rose 1) (rose 2) {[ Pos 0 := [Pos 0; Pos 1; Neg 0] ]} None = Ok conjugate_map
  ∧ inverse_consistent_on_alphabet conjugate_map.
Proof.
  assert (Hcov : covers (rose 1) {[ Pos 0 := [Pos 0; Pos 1; Neg 0] ]}).
  { intros a Ha. vm_compute in Ha.
    apply elem_of_cons in Ha as [->|Ha]; [left; by eexists|].
    apply elem_of_cons in Ha as [->|Ha]; [right; by eexists|].
    by apply elem_of_nil in Ha. }
  assert (Hinit : init (rose 1) (rose 2) {[ Pos 0 := [Pos 0; Pos 1; Neg 0] ]} None
                  = Ok conjugate_map) by (vm_compute; reflexivity).
  split; [exact Hcov|]. split; [exact Hinit|].
  exact (invariant_after_mutation conjugate_map
           (prod_init (rose 1) (rose 2) _ None conjugate_map Hcov Hinit)).
Defined.

(** * The call on a vertex that carries nothing *)

Lemma vertex_map_step_fuel (f : GraphMap) (vm : gmap vertex vertex) (e : letter) :
  vertex_map_step f vm e ≠ OutOfFuel.
Proof.
  unfold vertex_map_step, image, WordMorphism.image, first_letter, last_letter,
    initial_vertex, terminal_vertex, getitem.
  repeat (match goal with
          | |- context [match ?x with _ => _ end] => destruct x eqn:?
          end; simpl); done.
Qed.

(** On an incidence-complete map every lookup of [update_vertex_map]
    succeeds: the computation returns. *)
Lemma compute_vertex_map_total (f : GraphMap) :
  incidence_complete f → ∃ vm, compute_vertex_map f = Ok vm.
Proof.
  intros Hic. unfold compute_vertex_map.
  destruct (for_each_total (λ _ : gmap vertex vertex, True) (vertex_map_step f)
              (positive_letters (domain f))) with (s := (∅ : gmap vertex vertex))
    as (vm & Hvm & _); [|done|by exists vm].
  intros vm e He _. destruct (Hic e He) as ([vi Hvi] & [vt Hvt] & p & Hp & Hcod).
  unfold vertex_map_step. rewrite (proj2 (image_Ok f e p) Hp), bind_Ok_l.
  destruct p as [|c p]; [by eexists|].
  destruct (Hcod c) as [[x Hx] _]; [by left|].
  destruct (last_cons_Some c p) as [cl Hl].
  destruct (Hcod cl) as [_ [y Hy]]; [by apply last_elem_of|].
  assert (Hlast : last_letter (c :: p) = Ok cl) by (unfold last_letter; by rewrite Hl).
  unfold initial_vertex, terminal_vertex. cbn [first_letter]. rewrite bind_Ok_l.
  rewrite (proj2 (getitem_Ok _ _ _) Hx), bind_Ok_l.
  rewrite (proj2 (getitem_Ok _ _ _) Hvi), bind_Ok_l.
  rewrite Hlast, bind_Ok_l.
  rewrite (proj2 (getitem_Ok _ _ _) Hy), bind_Ok_l.
  rewrite (proj2 (getitem_Ok _ _ _) Hvt), bind_Ok_l. by eexists.
Qed.

(** C6 (as amended).  Applying a map without a cached vertex map to a
    vertex of the domain computes the vertex map from the edge map.  For
    a vertex with no incident positive letter of nonempty image that
    computation raises no error of its own.  On any map the call ends in
    the error of a failed lookup ([KeyError], [IndexError] or the missing
    letter of the word morphism), never in a value and never in
    [DisconnectedImageError].  On an incidence-complete map, where the
    lookups of the computation all succeed, the computation returns: it
    stores a partial map without an entry for the vertex, and it is the
    lookup of the vertex in it that raises [KeyError]. *)
Theorem call_on_uncarried_vertex (f : GraphMap) (v : vertex) :
  vertex_map f = None →
  has_vertex (domain f) v = true →
  ¬ carried f v →
  (∃ e, call f (Vertex v) = Raise e
        ∧ (e = KeyError ∨ e = LetterNotInDomain ∨ e = IndexError))
  ∧ (incidence_complete f →
     ∃ vm, update_vertex_map f
           = Ok (mkGraphMap (domain f) (codomain f) (edge_map f) (Some vm))
         ∧ vm !! v = None
         ∧ call f (Vertex v) = Raise KeyError).
Proof.
  intros Hnone Hhas Hv.
  assert (Hok : ∀ vm, compute_vertex_map f = Ok vm →
            update_vertex_map f
            = Ok (mkGraphMap (domain f) (codomain f) (edge_map f) (Some vm))
            ∧ vm !! v = None
            ∧ call f (Vertex v) = Raise KeyError).
  { intros vm Hvm.
    pose proof (compute_vertex_map_not_carried f v vm Hv Hvm) as Hlook.
    assert (Hupd : update_vertex_map f
                   = Ok (mkGraphMap (domain f) (codomain f) (edge_map f) (Some vm))).
    { unfold update_vertex_map. by rewrite Hvm. }
    split; [done|]. split; [done|].
    unfold call. rewrite Hhas, Hnone, Hupd. simpl. unfold getitem. by rewrite Hlook. }
  split.
  - destruct (compute_vertex_map f) as [vm|e|] eqn:Hvm.
    + exists KeyError. destruct (Hok vm eq_refl) as (_ & _ & Hcall). auto.
    + exists e. split.
      * unfold call, update_vertex_map. by rewrite Hhas, Hnone, Hvm.
      * destruct (compute_vertex_map_Raise f e Hvm) as [-> | [-> | ->]]; auto.
    + exfalso. revert Hvm. apply for_each_fuel. intros s x. apply vertex_map_step_fuel.
  - intros Hic. destruct (compute_vertex_map_total f Hic) as [vm Hvm].
    exists vm. by apply Hok.
Qed.

Lemma call_on_uncarried_vertex_witness :
  vertex_map constant_map = None
  ∧ has_vertex (domain constant_map) 0 = true
  ∧ ¬ carried constant_map 0
  ∧ incidence_complete constant_map
  ∧ update_vertex_map constant_map
    = Ok (mkGraphMap (rose 1) (rose 1) (edge_map constant_map) (Some ∅))
  ∧ call constant_map (Vertex 0) = Raise KeyError.
Proof.
  assert (Hv : ¬ carried constant_map 0).
  { intros (e & p & He & Hp & Hne & _). vm_compute in He.
    apply list_elem_of_singleton in He as ->. vm_compute in Hp. by simplify_eq. }
  assert (Hic : incidence_complete constant_map).
  { intros e He. vm_compute in He. apply list_elem_of_singleton in He as ->.
    split; [by eexists|]. split; [by eexists|].
    exists []. split; [reflexivity|]. intros c Hc. by apply elem_of_nil in Hc. }
  split; [reflexivity|]. split; [reflexivity|]. split; [exact Hv|]. split; [exact Hic|].
  split; [reflexivity|].
  destruct (call_on_uncarried_vertex constant_map 0 eq_refl eq_refl Hv) as [_ H].
  destruct (H Hic) as (vm & _ & _ & Hcall). exact Hcall.
Defined.

(** * The failure of the inversion of the automorphism *)

Lemma getitem_Raise `{Countable K} {V : Type} (d : gmap K V) (k : K) (e : exception) :
  getitem d k = Raise e → e = KeyError.
Proof. unfold getitem. destruct (d !! k); intros; by simplify_eq. Qed.

Lemma tree_loop_Raise (G : GraphWithInverses) (t : gmap vertex word) (a : letter)
  (e : exception) :
  tree_loop G t a = Raise e → lookup_error e.
Proof.
  unfold tree_loop, initial_vertex, terminal_vertex. intros H.
  repeat (apply bind_Raise in H as [H|(? & _ & H)];
          [apply getitem_Raise in H as ->; by left|]).
  done.
Qed.

(** The third loop of [inverse] raises nothing but the errors of its
    lookups. *)
Lemma back_step_Raise (f : GraphMap) (t1 : gmap vertex word) (n : Z)
  (psi : gmap letter word) (translate : gmap letter letter)
  (st : gmap letter word * nat) (a : letter) (e : exception) :
  back_step f t1 n psi translate st a = Raise e → lookup_error e.
Proof.
  destruct st as [em i]. unfold back_step. destruct (em !! a); [done|]. intros H.
  apply bind_Raise in H as [H|(Ai & _ & H)].
  { unfold rank_letter in H. destruct (decide _); simplify_eq. right; by left. }
  apply bind_Raise in H as [H|(img & _ & H)].
  { unfold WordMorphism.image in H. destruct (psi !! Ai); simplify_eq. right; by right. }
  apply bind_Raise in H as [H|(r & _ & H)]; [|done].
  apply for_each_Raise in H as (r & b & _ & H).
  apply bind_Raise in H as [H|(c & _ & H)]; [apply getitem_Raise in H as ->; by left|].
  apply bind_Raise in H as [H|(q & _ & H)]; [by eapply tree_loop_Raise|done].
Qed.

(** C7 (as amended).  [inverse] has no handler around the inversion of
    the automorphism and no error of its own for it: once its preparatory
    loops have built the automorphism [phi], a failure [e] of the
    inversion on [phi] is the failure of [inverse], unchanged, and no map
    is returned.  Conversely, whatever the inversion collaborator, an
    error of [inverse] that is not the error of a lookup
    ([NotAHomotopyEquivalenceError], say) is the error the inversion
    itself raised on [phi]. *)
Theorem inverse_propagates_failure
  (spanning_tree : GraphWithInverses → gmap vertex word)
  (automorphism_inverse : gmap letter word → result (gmap letter word))
  (f : GraphMap) (phi : gmap letter word) (translate : gmap letter letter)
  (em : gmap letter word) (e : exception) :
  inverse_setup spanning_tree f = Ok (phi, translate, em) →
  automorphism_inverse phi = Raise e →
  inverse spanning_tree automorphism_inverse f = Raise e
  ∧ (∀ g, inverse spanning_tree automorphism_inverse f ≠ Ok g)
  ∧ (∀ inversion e', inverse spanning_tree inversion f = Raise e' →
       ¬ lookup_error e' → inversion phi = Raise e').
Proof.
  intros Hsetup Hinv.
  assert (H : inverse spanning_tree automorphism_inverse f = Raise e).
  { unfold inverse. rewrite Hsetup. simpl. by rewrite Hinv. }
  split; [done|]. split; [intros g; by rewrite H|].
  intros inversion e' Hrun Hown. unfold inverse in Hrun.
  rewrite Hsetup, bind_Ok_l in Hrun.
  apply bind_Raise in Hrun as [Hrun|(psi & _ & Hrun)]; [done|]. exfalso.
  apply bind_Raise in Hrun as [Hrun|([em' i] & _ & Hrun)].
  - apply for_each_Raise in Hrun as (s & a & _ & Hrun).
    apply Hown. by eapply back_step_Raise.
  - unfold init, set_edge_map in Hrun. simpl in Hrun. discriminate Hrun.
Qed.

Lemma inverse_propagates_failure_witness :
  inverse_setup rose_tree square_map
  = Ok ({[ Pos 0 := [Pos 0; Pos 0] ]}, {[ Pos 0 := Pos 0; Neg 0 := Neg 0 ]}, ∅)
  ∧ never_invertible {[ Pos 0 := [Pos 0; Pos 0] ]} = Raise NotInvertible
  ∧ inverse rose_tree never_invertible square_map = Raise NotInvertible.
Proof.
  assert (H : inverse_setup rose_tree square_map
              = Ok ({[ Pos 0 := [Pos 0; Pos 0] ]},
                    {[ Pos 0 := Pos 0; Neg 0 := Neg 0 ]}, ∅)).
  { vm_compute. reflexivity. }
  split; [exact H|]. split; [reflexivity|].
  exact (proj1 (inverse_propagates_failure rose_tree never_invertible square_map
                  _ _ _ NotInvertible H eq_refl)).
Defined.

(** C7 as stated fails: on the map of degree two of the rose, which is
    not a homotopy equivalence, the inversion reports [NotInvertible],
    and that report, not [NotAHomotopyEquivalenceError], is what
    [inverse] raises. *)
Lemma inverse_raises_the_report :
  inverse rose_tree never_invertible square_map = Raise NotInvertible
  ∧ inverse rose_tree never_invertible square_map ≠ Raise NotAHomotopyEquivalenceError.
Proof. split; [vm_compute; reflexivity|]. vm_compute. discriminate. Qed.
